(** * Math Rush (src/App.jsx): domain layer, game reducer, hooks

    A shallow embedding of the domain layer ([OPERATIONS], [MathProblem],
    [ProblemGenerator], [ScoreManager]), of the state management
    ([INITIAL_STATE], [gameReducer]), of the effects of the hooks and of
    [MathGameApp] and of the logic of the screens of src/App.jsx, together
    with the part of the JavaScript runtime these functions call: binary64
    Numbers, [parseFloat], [Number::toString], [JSON.parse],
    [JSON.stringify], [Array.prototype.sort], [String.prototype.trim],
    [localStorage] and [Math.random]. *)

From Stdlib Require Import ZArith QArith Qround Qabs Floats.SpecFloat Ascii String
  Sorted.
From Stdlib Require DecimalFacts DecimalPos DecimalN.
From stdpp Require Import base option list gmap.

#[local] Set Warnings "-register-all".

Open Scope Z_scope.

(** ** JavaScript Numbers: IEEE 754 binary64 *)

Module Number.

Abbreviation t := spec_float.

Definition prec : Z := 53.
Definition emax : Z := 1024.

Definition NaN : t := S754_nan.
Definition Infinity : t := S754_infinity false.

Definition add : t -> t -> t := SFadd prec emax.
Definition sub : t -> t -> t := SFsub prec emax.
Definition mul : t -> t -> t := SFmul prec emax.
Definition div : t -> t -> t := SFdiv prec emax.
Definition abs : t -> t := SFabs.
Definition ltb : t -> t -> bool := SFltb.

(** The Number nearest to the integer [z] (ties to even). *)
Definition of_Z (z : Z) : t := binary_normalize prec emax z 0 false.

(** The Number nearest to [(-1)^neg * m * 10^e10], for [m >= 0]: the
    rounding the runtime applies to a decimal literal. *)
Definition of_decimal (neg : bool) (m e10 : Z) : t :=
  match m with
  | Zpos p =>
      if 0 <=? e10
      then binary_round prec emax neg (Z.to_pos (m * 10 ^ e10)) 0
      else let '(q, e, l) :=
             SFdiv_core_binary prec emax m 0 (10 ^ (- e10)) 0 in
           binary_round_aux prec emax neg q e l
  | _ => S754_zero neg
  end.

Definition is_nan (x : t) : bool :=
  match x with S754_nan => true | _ => false end.

Definition is_finite (x : t) : bool :=
  match x with S754_zero _ | S754_finite _ _ _ => true | _ => false end.

(** The integer a Number denotes, when it denotes one. *)
Definition to_Z (x : t) : option Z :=
  match x with
  | S754_zero _ => Some 0
  | S754_finite s m e =>
      let n := if 0 <=? e then Z.pos m * 2 ^ e else Z.pos m / 2 ^ (- e) in
      if (0 <=? e) || (Z.pos m mod 2 ^ (- e) =? 0)
      then Some (if s then - n else n) else None
  | _ => None
  end.

End Number.

(** ** JavaScript strings: sequences of UTF-16 code units *)

Abbreviation jsstring := (list N).

(** A string literal of the source, code unit by code unit (ASCII). *)
Definition js (s : string) : jsstring :=
  List.map N_of_ascii (list_ascii_of_string s).

(** ** parseFloat

    [parseFloat] trims leading white space and line terminators, takes the
    longest prefix of what remains that is a [StrDecimalLiteral] and returns
    its numeric value, or NaN when no prefix is one. *)

Module Parse.

(** [StrWhiteSpaceChar]: white space and line terminators. *)
Definition is_whitespace (c : N) : bool :=
  bool_decide (c ∈ [9; 10; 11; 12; 13; 32; 160; 5760; 8232; 8233; 8239;
                     8287; 12288; 65279]%N)
  || ((8192 <=? c) && (c <=? 8202))%N.

Definition is_digit (c : N) : bool := ((48 <=? c) && (c <=? 57))%N.

Fixpoint skip_whitespace (s : jsstring) : jsstring :=
  match s with
  | c :: s' => if is_whitespace c then skip_whitespace s' else s
  | [] => []
  end.

(** The longest run of decimal digits at the head of [s], as digit
    values, and what follows it. *)
Fixpoint scan_digits (s : jsstring) : list N * jsstring :=
  match s with
  | c :: s' =>
      if is_digit c
      then let '(ds, r) := scan_digits s' in ((c - 48)%N :: ds, r)
      else ([], s)
  | [] => ([], [])
  end.

Definition digits_value (ds : list N) : Z :=
  fold_left (fun acc d => 10 * acc + Z.of_N d) ds 0.

(** [+] or [-] at the head of [s]: whether it is [-], and what follows. *)
Definition scan_sign (s : jsstring) : bool * jsstring :=
  match s with
  | c :: s' =>
      if bool_decide (c = 43%N) then (false, s')
      else if bool_decide (c = 45%N) then (true, s')
      else (false, s)
  | [] => (false, [])
  end.

(** [ExponentPart]: [e] or [E], an optional sign and at least one digit.
    Without a digit there is no exponent part and nothing is consumed. *)
Definition scan_exponent (s : jsstring) : Z * jsstring :=
  match s with
  | c :: s' =>
      if bool_decide (c = 101%N) || bool_decide (c = 69%N)
      then let '(neg, s1) := scan_sign s' in
           match scan_digits s1 with
           | ([], _) => (0, s)
           | (ds, r) =>
               (if neg then - digits_value ds else digits_value ds, r)
           end
      else (0, s)
  | [] => (0, [])
  end.

(** A scanned [StrUnsignedDecimalLiteral]. *)
Inductive literal : Type :=
| Lit_Infinity
| Lit_Decimal (int_digits frac_digits : list N) (exponent : Z).

Fixpoint strip_prefix (p s : jsstring) : option jsstring :=
  match p, s with
  | [], _ => Some s
  | a :: p', b :: s' => if bool_decide (a = b) then strip_prefix p' s' else None
  | _ :: _, [] => None
  end.

(** [.] and the digits after it, when [s] starts with [.]. *)
Definition scan_fraction (s : jsstring) : option (list N * jsstring) :=
  match s with
  | c :: s' => if bool_decide (c = 46%N) then Some (scan_digits s') else None
  | [] => None
  end.

(** The longest [StrUnsignedDecimalLiteral] at the head of [s]:
    [Infinity], or [DecimalDigits . DecimalDigits? ExponentPart?], or
    [. DecimalDigits ExponentPart?], or [DecimalDigits ExponentPart?]. *)
Definition scan_unsigned (s : jsstring) : option (literal * jsstring) :=
  match strip_prefix (js "Infinity") s with
  | Some r => Some (Lit_Infinity, r)
  | None =>
      let '(int_digits, s1) := scan_digits s in
      match scan_fraction s1 with
      | Some (frac_digits, s2) =>
          match int_digits, frac_digits with
          | [], [] => None
          | _, _ =>
              let '(e, r) := scan_exponent s2 in
              Some (Lit_Decimal int_digits frac_digits e, r)
          end
      | None =>
          match int_digits with
          | [] => None
          | _ =>
              let '(e, r) := scan_exponent s1 in
              Some (Lit_Decimal int_digits [] e, r)
          end
      end
  end.

(** The longest [StrDecimalLiteral] at the head of [s], with its sign. *)
Definition scan_literal (s : jsstring) : option (bool * literal * jsstring) :=
  let '(neg, s1) := scan_sign s in
  match scan_unsigned s1 with
  | Some (l, r) => Some (neg, l, r)
  | None => None
  end.

(** [StringNumericValue] of a literal. *)
Definition literal_value (neg : bool) (l : literal) : Number.t :=
  match l with
  | Lit_Infinity => S754_infinity neg
  | Lit_Decimal int_digits frac_digits e =>
      Number.of_decimal neg (digits_value (int_digits ++ frac_digits))
        (e - Z.of_nat (length frac_digits))
  end.

End Parse.

Definition parseFloat (s : jsstring) : Number.t :=
  match Parse.scan_literal (Parse.skip_whitespace s) with
  | Some (neg, l, _) => Parse.literal_value neg l
  | None => Number.NaN
  end.

(** ** Number::toString (radix 10)

    The shortest decimal digit string [s] (with [k] digits) and the
    exponent [n] such that [s * 10^(n-k)] rounds to the Number, laid out
    by the rules of [Number::toString]. *)

Module Print.

Fixpoint uint_codes (u : Decimal.uint) : jsstring :=
  match u with
  | Decimal.Nil => []
  | Decimal.D0 u => 48%N :: uint_codes u
  | Decimal.D1 u => 49%N :: uint_codes u
  | Decimal.D2 u => 50%N :: uint_codes u
  | Decimal.D3 u => 51%N :: uint_codes u
  | Decimal.D4 u => 52%N :: uint_codes u
  | Decimal.D5 u => 53%N :: uint_codes u
  | Decimal.D6 u => 54%N :: uint_codes u
  | Decimal.D7 u => 55%N :: uint_codes u
  | Decimal.D8 u => 56%N :: uint_codes u
  | Decimal.D9 u => 57%N :: uint_codes u
  end.

(** The decimal digits of a non-negative integer. *)
Definition decimal_digits (z : Z) : jsstring :=
  uint_codes (N.to_uint (Z.to_N z)).

Section Shortest.
(** The positive value [num / den] of the Number [x] to print. *)
Variables (x : Number.t) (num den : Z).

(** The least [n >= 1] with [num / den < 10^n], for [p = den * 10^n]. *)
Fixpoint magnitude_up (fuel : nat) (p n : Z) : Z :=
  match fuel with
  | O => n
  | S fuel' =>
      if num <? p then n else magnitude_up fuel' (10 * p) (n + 1)
  end.

(** The least [n <= 0] with [num / den < 10^n], for [q = num * 10^-n]. *)
Fixpoint magnitude_down (fuel : nat) (q n : Z) : Z :=
  match fuel with
  | O => n
  | S fuel' =>
      if 10 * q <? den then magnitude_down fuel' (10 * q) (n - 1) else n
  end.

(** [n0] with [10^(n0-1) <= num/den < 10^n0]. *)
Definition n0 : Z :=
  if num <? den then magnitude_down 400 num 0
  else magnitude_up 400 (10 * den) 1.

(** [floor (num / den / 10^sc)] *)
Definition scaled_floor (sc : Z) : Z :=
  if 0 <=? sc then num / (den * 10 ^ sc) else (num * 10 ^ (- sc)) / den.

(** How [num/den] compares with the midpoint [(lo + 1/2) * 10^sc]. *)
Definition compare_midpoint (lo sc : Z) : comparison :=
  if 0 <=? sc
  then 2 * num ?= (2 * lo + 1) * 10 ^ sc * den
  else 2 * num * 10 ^ (- sc) ?= (2 * lo + 1) * den.

Definition round_trips (s n k : Z) : bool :=
  SFeqb (Number.of_decimal false s (n - k)) x.

(** The [k]-digit candidates around [num/den], the closest first
    (the even one first when at equal distance). *)
Definition candidates (k : Z) : list (Z * Z) :=
  let sc := n0 - k in
  let lo := scaled_floor sc in
  let c_lo := (lo, n0) in
  let c_hi := if lo + 1 =? 10 ^ k then (10 ^ (k - 1), n0 + 1)
              else (lo + 1, n0) in
  match compare_midpoint lo sc with
  | Lt => [c_lo; c_hi]
  | Gt => [c_hi; c_lo]
  | Eq => if Z.even lo then [c_lo; c_hi] else [c_hi; c_lo]
  end.

Fixpoint shortest (fuel : nat) (k : Z) : Z * Z * Z :=
  match List.filter (fun '(s, n) => round_trips s n k) (candidates k) with
  | (s, n) :: _ => (s, n, k)
  | [] =>
      match fuel with
      | O => (scaled_floor (n0 - k), n0, k)
      | S fuel' => shortest fuel' (k + 1)
      end
  end.
End Shortest.

Definition zeros (n : Z) : jsstring := replicate (Z.to_nat n) 48%N.

Definition layout (s n k : Z) : jsstring :=
  let ds := decimal_digits s in
  if (k <=? n) && (n <=? 21) then ds ++ zeros (n - k)
  else if (0 <? n) && (n <=? 21)
  then take (Z.to_nat n) ds ++ [46%N] ++ drop (Z.to_nat n) ds
  else if (-6 <? n) && (n <=? 0)
  then [48%N; 46%N] ++ zeros (- n) ++ ds
  else
    let e := n - 1 in
    let exponent :=
      [101%N; if e <? 0 then 45%N else 43%N] ++ decimal_digits (Z.abs e) in
    if k =? 1 then ds ++ exponent
    else take 1 ds ++ [46%N] ++ drop 1 ds ++ exponent.

Definition Number_toString (x : Number.t) : jsstring :=
  match x with
  | S754_nan => js "NaN"
  | S754_zero _ => js "0"
  | S754_infinity neg => (if neg then [45%N] else []) ++ js "Infinity"
  | S754_finite neg m e =>
      let num := if 0 <=? e then Z.pos m * 2 ^ e else Z.pos m in
      let den := if 0 <=? e then 1 else 2 ^ (- e) in
      let '(s, n, k) := shortest (S754_finite false m e) num den 16 1 in
      (if neg then [45%N] else []) ++ layout s n k
  end.

End Print.

(** ** Exceptions and the random source *)

Inductive exn : Type :=
| SyntaxError | TypeError | SecurityError | QuotaExceededError.

(** The completion of a call: a value, or a thrown exception. *)
Inductive completion (A : Type) : Type :=
| Normal (a : A)
| Throw (e : exn).
Arguments Normal {A} a.
Arguments Throw {A} e.

#[global] Instance completion_ret : MRet completion := fun A a => Normal a.

#[global] Instance completion_bind : MBind completion :=
  fun A B k c =>
    match c with
    | Normal a => k a
    | Throw e => Throw e
    end.

(** [try { body } catch { handler }] *)
Definition try_catch {A} (body : completion A) (handler : exn -> A) : A :=
  match body with
  | Normal a => a
  | Throw e => handler e
  end.

(** Whether a Number is one [Math.random()] can return: a Number of
    positive sign that is at least [+0] and less than 1. *)
Definition unit_interval (x : Number.t) : bool :=
  valid_binary Number.prec Number.emax x
  && match x with
     | S754_zero false => true
     | S754_finite false _ _ => Number.ltb x (Number.of_Z 1)
     | _ => false
     end.

(** A value [Math.random()] returns. *)
Record Random01 : Type := {
  random_value :> Number.t;
  random_range : unit_interval random_value = true
}.

(** The injectable random source: the values successive calls of
    [Math.random()] return. The generator threads the number of values
    drawn so far. *)
Definition RandomSource : Type := nat -> Random01.

(** The integer [Math.floor(x)] is, for a finite Number [x].
    [Math.floor] returns NaN and the infinities as they are, and they
    are no integers; the source applies it to the product of a value of
    [Math.random()] with 9 or with 4 only, which is finite
    ([random_times_nine] and [random_times_four] below), so the value
    given for them here, 0, is never used. *)
Definition Math_floor (x : Number.t) : Z :=
  match x with
  | S754_finite s m e =>
      if 0 <=? e then cond_Zopp s (Z.pos m * 2 ^ e)
      else cond_Zopp s (Z.pos m) / 2 ^ (- e)
  | _ => 0
  end.

(** [a[i]] for an array [a]: [undefined] (here [None]) out of range. *)
Definition array_get {A} (a : list A) (i : Z) : option A :=
  if i <? 0 then None else a !! Z.to_nat i.

(** ** Domain layer *)

(** The four entries of [OPERATIONS]; an operation is compared by
    identity ([===]), which is equality of the entry. *)
Inductive Operation : Type :=
| ADDITION | SUBTRACTION | MULTIPLICATION | DIVISION.

#[global] Instance Operation_eq_dec : EqDecision Operation.
Proof. solve_decision. Defined.

Definition symbol (o : Operation) : jsstring :=
  match o with
  | ADDITION => js "+"
  | SUBTRACTION => js "-"
  | MULTIPLICATION => [215%N]
  | DIVISION => [247%N]
  end.

Definition fn (o : Operation) (a b : Number.t) : Number.t :=
  match o with
  | ADDITION => Number.add a b
  | SUBTRACTION => Number.sub a b
  | MULTIPLICATION => Number.mul a b
  | DIVISION => Number.div a b
  end.

Definition name (o : Operation) : jsstring :=
  match o with
  | ADDITION => js "suma"
  | SUBTRACTION => js "resta"
  | MULTIPLICATION => js "multiplicaci" ++ [243%N] ++ js "n"
  | DIVISION => js "divisi" ++ [243%N] ++ js "n"
  end.

(** [Object.values(OPERATIONS)] *)
Definition operations : list Operation :=
  [ADDITION; SUBTRACTION; MULTIPLICATION; DIVISION].

Module MathProblem.

(** The operands the program constructs problems from are integers. *)
Record t : Type := {
  operand1 : Z;
  operand2 : Z;
  operation : Operation;
  answer : Number.t
}.

Definition new (operand1 operand2 : Z) (operation : Operation) : t :=
  {| operand1 := operand1;
     operand2 := operand2;
     operation := operation;
     answer := fn operation (Number.of_Z operand1) (Number.of_Z operand2) |}.

Definition toString (this : t) : jsstring :=
  Print.Number_toString (Number.of_Z (operand1 this)) ++ js " "
  ++ symbol (operation this) ++ js " "
  ++ Print.Number_toString (Number.of_Z (operand2 this)).

(** [Math.abs(parseFloat(userAnswer) - this.answer) < 0.01] *)
Definition isCorrect (this : t) (userAnswer : jsstring) : bool :=
  Number.ltb
    (Number.abs (Number.sub (parseFloat userAnswer) (answer this)))
    (Number.of_decimal false 1 (-2)).

End MathProblem.

Module ProblemGenerator.

(** One pass through the body of the [do ... while (true)] loop per unit
    of fuel; [None] when the fuel runs out before the loop breaks. The
    result carries the number of random values drawn. *)
Fixpoint generate_loop (fuel : nat) (random : RandomSource) (drawn : nat)
  : option (completion (MathProblem.t * nat)) :=
  match fuel with
  | O => None
  | S fuel' =>
      let operand1 :=
        Math_floor (Number.mul (random drawn) (Number.of_Z 9)) + 1 in
      let operand2 :=
        Math_floor (Number.mul (random (drawn + 1)%nat) (Number.of_Z 9))
        + 1 in
      let index :=
        Math_floor
          (Number.mul (random (drawn + 2)%nat)
             (Number.of_Z (Z.of_nat (length operations)))) in
      let drawn' := (drawn + 3)%nat in
      match array_get operations index with
      | None =>
          (* [operation] is [undefined]: the constructor throws *)
          Some (Throw TypeError)
      | Some operation =>
          if bool_decide (operation = DIVISION)
             && ((operand2 =? 0) || negb (Z.rem operand1 operand2 =? 0))
          then generate_loop fuel' random drawn'
          else
            let '(operand1, operand2) :=
              if bool_decide (operation = SUBTRACTION)
                 && (operand1 <? operand2)
              then (operand2, operand1) else (operand1, operand2) in
            Some (Normal (MathProblem.new operand1 operand2 operation,
                          drawn'))
      end
  end.

Definition generate := generate_loop.

End ProblemGenerator.

(** ** JSON values, [JSON.parse] and [JSON.stringify] *)

(** The values [JSON.parse] builds. An object lists its members in
    property order, each key once. *)
Inductive json : Type :=
| JNull
| JBool (b : bool)
| JNum (x : Number.t)
| JStr (s : jsstring)
| JArr (elements : list json)
| JObj (members : list (jsstring * json)).

Module JSON.

(** *** Objects *)

Definition get (key : jsstring) (members : list (jsstring * json))
  : option json :=
  snd <$> List.find (fun m => bool_decide (m.1 = key)) members.

(** The array index a key denotes, when it is the canonical decimal
    string of an integer below [2^32 - 1]. *)
Definition array_index (key : jsstring) : option Z :=
  match Parse.scan_digits key with
  | (d :: ds, []) =>
      let i := Parse.digits_value (d :: ds) in
      if (negb (bool_decide (d = 0%N)) || bool_decide (ds = []))
         && (i <? 2 ^ 32 - 1)
      then Some i else None
  | _ => None
  end.

(** Where a new key goes: array indices come first, in ascending
    order; other keys follow in order of creation. *)
Fixpoint add (key : jsstring) (v : json) (members : list (jsstring * json))
  : list (jsstring * json) :=
  match members with
  | [] => [(key, v)]
  | (k, w) :: rest =>
      match array_index key, array_index k with
      | Some i, Some j =>
          if i <? j then (key, v) :: members else (k, w) :: add key v rest
      | Some _, None => (key, v) :: members
      | None, _ => (k, w) :: add key v rest
      end
  end.

Fixpoint replace (key : jsstring) (v : json)
  (members : list (jsstring * json)) : list (jsstring * json) :=
  match members with
  | [] => []
  | (k, w) :: rest =>
      if bool_decide (k = key) then (k, v) :: rest
      else (k, w) :: replace key v rest
  end.

(** [CreateDataProperty]: a key already present keeps its place and
    takes the new value. *)
Definition set (key : jsstring) (v : json)
  (members : list (jsstring * json)) : list (jsstring * json) :=
  match get key members with
  | Some _ => replace key v members
  | None => add key v members
  end.

(** *** JSON.parse *)

Definition is_whitespace (c : N) : bool :=
  bool_decide (c ∈ [9; 10; 13; 32]%N).

Fixpoint skip_whitespace (s : jsstring) : jsstring :=
  match s with
  | c :: s' => if is_whitespace c then skip_whitespace s' else s
  | [] => []
  end.

Definition hex_value (c : N) : option N :=
  if ((48 <=? c) && (c <=? 57))%N then Some (c - 48)%N
  else if ((97 <=? c) && (c <=? 102))%N then Some (c - 87)%N
  else if ((65 <=? c) && (c <=? 70))%N then Some (c - 55)%N
  else None.

(** The character a single-character escape stands for. *)
Definition escape (c : N) : option N :=
  if bool_decide (c = 34%N) then Some 34%N          (* quotation mark *)
  else if bool_decide (c = 92%N) then Some 92%N     (* backslash *)
  else if bool_decide (c = 47%N) then Some 47%N     (* solidus *)
  else if bool_decide (c = 98%N) then Some 8%N      (* b: backspace *)
  else if bool_decide (c = 102%N) then Some 12%N    (* f: form feed *)
  else if bool_decide (c = 110%N) then Some 10%N    (* n: line feed *)
  else if bool_decide (c = 114%N) then Some 13%N    (* r: carriage return *)
  else if bool_decide (c = 116%N) then Some 9%N     (* t: tab *)
  else None.

(** The characters of a string up to its closing quote, and what
    follows the quote. *)
Fixpoint parse_string (s : jsstring) : option (jsstring * jsstring) :=
  match s with
  | [] => None
  | c :: r =>
      if bool_decide (c = 34%N) then Some ([], r)
      else if bool_decide (c = 92%N) then
        match r with
        | e :: r1 =>
            if bool_decide (e = 117%N) then
              match r1 with
              | h1 :: h2 :: h3 :: h4 :: r2 =>
                  match hex_value h1, hex_value h2, hex_value h3,
                        hex_value h4, parse_string r2 with
                  | Some a, Some b, Some c, Some d, Some (cs, r3) =>
                      Some ((((a * 16 + b) * 16 + c) * 16 + d)%N :: cs, r3)
                  | _, _, _, _, _ => None
                  end
              | _ => None
              end
            else
              match escape e, parse_string r1 with
              | Some c', Some (cs, r2) => Some (c' :: cs, r2)
              | _, _ => None
              end
        | [] => None
        end
      else if (c <? 32)%N then None
      else
        match parse_string r with
        | Some (cs, r1) => Some (c :: cs, r1)
        | None => None
        end
  end.

(** [-? int frac? exp?] with [int] without a leading zero, [frac] and
    [exp] with at least one digit. *)
Definition parse_number (s : jsstring) : option (Number.t * jsstring) :=
  let '(neg, s1) :=
    match s with
    | c :: s' => if bool_decide (c = 45%N) then (true, s') else (false, s)
    | [] => (false, [])
    end in
  let '(int_digits, s2) := Parse.scan_digits s1 in
  match int_digits with
  | [] => None
  | d :: ds =>
      if bool_decide (d = 0%N) && negb (bool_decide (ds = [])) then None
      else
        frac ←
          match Parse.scan_fraction s2 with
          | Some ([], _) => None
          | Some (frac_digits, s3) => Some (frac_digits, s3)
          | None => Some ([], s2)
          end;
        let '(frac_digits, s3) := frac in
        exp ←
          match s3 with
          | c :: s4 =>
              if bool_decide (c = 101%N) || bool_decide (c = 69%N) then
                let '(eneg, s5) := Parse.scan_sign s4 in
                match Parse.scan_digits s5 with
                | ([], _) => None
                | (eds, s6) =>
                    let e := Parse.digits_value eds in
                    Some (if eneg then - e else e, s6)
                end
              else Some (0, s3)
          | [] => Some (0, [])
          end;
        let '(e, r) := exp in
        Some (Number.of_decimal neg
                (Parse.digits_value (int_digits ++ frac_digits))
                (e - Z.of_nat (length frac_digits)), r)
  end.

(** A JSON value at the head of [s], after white space, and what
    follows it; [None] is a [SyntaxError]. Every call spends one unit
    of fuel. *)
Fixpoint parse_value (fuel : nat) (s : jsstring)
  : option (json * jsstring) :=
  match fuel with
  | O => None
  | S fuel' =>
      match skip_whitespace s with
      | [] => None
      | c :: r =>
          if bool_decide (c = 91%N) then               (* [ *)
            match skip_whitespace r with
            | c' :: r' =>
                if bool_decide (c' = 93%N) then Some (JArr [], r')
                else parse_elements fuel' r []
            | [] => None
            end
          else if bool_decide (c = 123%N) then         (* { *)
            match skip_whitespace r with
            | c' :: r' =>
                if bool_decide (c' = 125%N) then Some (JObj [], r')
                else parse_members fuel' r []
            | [] => None
            end
          else if bool_decide (c = 34%N) then          (* string *)
            '(cs, r') ← parse_string r; Some (JStr cs, r')
          else
            match Parse.strip_prefix (js "true") (c :: r),
                  Parse.strip_prefix (js "false") (c :: r),
                  Parse.strip_prefix (js "null") (c :: r) with
            | Some r', _, _ => Some (JBool true, r')
            | _, Some r', _ => Some (JBool false, r')
            | _, _, Some r' => Some (JNull, r')
            | None, None, None =>
                '(x, r') ← parse_number (c :: r); Some (JNum x, r')
            end
      end
  end
(** The elements of an array after [acc], up to its closing bracket. *)
with parse_elements (fuel : nat) (s : jsstring) (acc : list json)
  : option (json * jsstring) :=
  match fuel with
  | O => None
  | S fuel' =>
      '(v, r) ← parse_value fuel' s;
      match skip_whitespace r with
      | c :: r' =>
          if bool_decide (c = 44%N) then parse_elements fuel' r' (acc ++ [v])
          else if bool_decide (c = 93%N) then Some (JArr (acc ++ [v]), r')
          else None
      | [] => None
      end
  end
(** The members of an object after [acc], up to its closing brace. *)
with parse_members (fuel : nat) (s : jsstring)
  (acc : list (jsstring * json)) : option (json * jsstring) :=
  match fuel with
  | O => None
  | S fuel' =>
      match skip_whitespace s with
      | c :: r =>
          if bool_decide (c = 34%N) then
            '(key, r1) ← parse_string r;
            match skip_whitespace r1 with
            | c1 :: r2 =>
                if bool_decide (c1 = 58%N) then
                  '(v, r3) ← parse_value fuel' r2;
                  match skip_whitespace r3 with
                  | c3 :: r4 =>
                      if bool_decide (c3 = 44%N)
                      then parse_members fuel' r4 (set key v acc)
                      else if bool_decide (c3 = 125%N)
                      then Some (JObj (set key v acc), r4)
                      else None
                  | [] => None
                  end
                else None
            | [] => None
            end
          else None
      | [] => None
      end
  end.

(** [JSON.parse(text)]: the text is one value between white space. *)
Definition parse (text : jsstring) : completion json :=
  match parse_value (2 * length text + 2) text with
  | Some (v, r) =>
      match skip_whitespace r with
      | [] => Normal v
      | _ => Throw SyntaxError
      end
  | None => Throw SyntaxError
  end.

(** *** JSON.stringify *)

Definition hex_digit (n : N) : N :=
  if (n <? 10)%N then (n + 48)%N else (n + 87)%N.

(** [\uXXXX] with lowercase hexadecimal digits. *)
Definition unicode_escape (c : N) : jsstring :=
  [92; 117; hex_digit (c / 4096 mod 16); hex_digit (c / 256 mod 16);
   hex_digit (c / 16 mod 16); hex_digit (c mod 16)]%N.

Definition quote_char (c : N) : jsstring :=
  if bool_decide (c = 8%N) then js "\b"
  else if bool_decide (c = 9%N) then js "\t"
  else if bool_decide (c = 10%N) then js "\n"
  else if bool_decide (c = 12%N) then js "\f"
  else if bool_decide (c = 13%N) then js "\r"
  else if bool_decide (c = 34%N) then [92; 34]%N
  else if bool_decide (c = 92%N) then [92; 92]%N
  else if (c <? 32)%N then unicode_escape c
  else [c].

Definition is_high_surrogate (c : N) : bool :=
  ((55296 <=? c) && (c <=? 56319))%N.
Definition is_low_surrogate (c : N) : bool :=
  ((56320 <=? c) && (c <=? 57343))%N.

(** The characters of [QuoteJSONString]: a surrogate that is not part
    of a pair is escaped. *)
Fixpoint quote_chars (s : jsstring) : jsstring :=
  match s with
  | [] => []
  | c :: r =>
      if is_high_surrogate c then
        match r with
        | c' :: r' =>
            if is_low_surrogate c' then c :: c' :: quote_chars r'
            else unicode_escape c ++ quote_chars r
        | [] => unicode_escape c
        end
      else if is_low_surrogate c then unicode_escape c ++ quote_chars r
      else quote_char c ++ quote_chars r
  end.

Definition quote (s : jsstring) : jsstring :=
  [34%N] ++ quote_chars s ++ [34%N].

Fixpoint join (separator : jsstring) (parts : list jsstring) : jsstring :=
  match parts with
  | [] => []
  | [p] => p
  | p :: rest => p ++ separator ++ join separator rest
  end.

(** [JSON.stringify(v)] for a value built by [JSON.parse] or by the
    object and array literals of the source. *)
Fixpoint stringify (v : json) : jsstring :=
  match v with
  | JNull => js "null"
  | JBool b => if b then js "true" else js "false"
  | JNum x => if Number.is_finite x then Print.Number_toString x
              else js "null"
  | JStr s => quote s
  | JArr elements =>
      [91%N] ++ join [44%N] (List.map stringify elements) ++ [93%N]
  | JObj members =>
      [123%N]
      ++ join [44%N]
           (List.map (fun m => quote m.1 ++ [58%N] ++ stringify m.2)
              members)
      ++ [125%N]
  end.

End JSON.

(** ** Conversions and [Array.prototype.sort] *)

Module Runtime.

(** [TrimString(s, start+end)] *)
Definition trim (s : jsstring) : jsstring :=
  rev (Parse.skip_whitespace (rev (Parse.skip_whitespace s))).

(** The value of the digits [s] in radix [radix], when [s] is not
    empty and all its characters are digits of that radix. *)
Definition radix_value (radix : N) (s : jsstring) : option Z :=
  match s with
  | [] => None
  | _ =>
      fold_left
        (fun acc c =>
           a ← acc;
           d ← JSON.hex_value c;
           if (d <? radix)%N then Some (Z.of_N radix * a + Z.of_N d)
           else None)
        s (Some 0)
  end.

(** [StringToNumber]: white space around one [StrNumericLiteral], or
    nothing but white space. *)
Definition StringToNumber (s : jsstring) : Number.t :=
  let t := trim s in
  match t with
  | [] => Number.of_Z 0
  | _ =>
      let non_decimal :=
        match t with
        | 48%N :: c :: digits =>
            if bool_decide (c = 120%N) || bool_decide (c = 88%N)
            then Some (radix_value 16 digits)
            else if bool_decide (c = 111%N) || bool_decide (c = 79%N)
            then Some (radix_value 8 digits)
            else if bool_decide (c = 98%N) || bool_decide (c = 66%N)
            then Some (radix_value 2 digits)
            else None
        | _ => None
        end in
      match non_decimal with
      | Some (Some n) => Number.of_Z n
      | Some None => Number.NaN
      | None =>
          match Parse.scan_literal t with
          | Some (neg, l, []) => Parse.literal_value neg l
          | _ => Number.NaN
          end
      end
  end.

Definition has_key (key : jsstring) (members : list (jsstring * json))
  : bool :=
  bool_decide (is_Some (JSON.get key members)).

(** [ToString(v)]. An array is joined with commas, [null] elements as
    the empty string; an object is ["[object Object]"], unless it has a
    member [toString], which is not callable. *)
Fixpoint ToString (v : json) : completion jsstring :=
  match v with
  | JNull => Normal (js "null")
  | JBool b => Normal (if b then js "true" else js "false")
  | JNum x => Normal (Print.Number_toString x)
  | JStr s => Normal s
  | JArr elements =>
      (fix join (l : list json) : completion jsstring :=
         let element e :=
           match e with JNull => Normal [] | _ => ToString e end in
         match l with
         | [] => Normal []
         | [e] => element e
         | e :: rest =>
             s ← element e; r ← join rest; Normal (s ++ [44%N] ++ r)
         end) elements
  | JObj members =>
      if has_key (js "toString") members then Throw TypeError
      else Normal (js "[object Object]")
  end.

(** [ToNumber(v)], [None] standing for [undefined]. *)
Definition ToNumber (v : option json) : completion Number.t :=
  match v with
  | None => Normal Number.NaN
  | Some JNull => Normal (Number.of_Z 0)
  | Some (JBool b) => Normal (Number.of_Z (if b then 1 else 0))
  | Some (JNum x) => Normal x
  | Some (JStr s) => Normal (StringToNumber s)
  | Some (JArr elements) =>
      s ← ToString (JArr elements); Normal (StringToNumber s)
  | Some (JObj members) =>
      if has_key (js "toString") members then Throw TypeError
      else Normal Number.NaN
  end.

(** [v.key] *)
Definition get_property (v : json) (key : jsstring)
  : completion (option json) :=
  match v with
  | JNull => Throw TypeError
  | JObj members => Normal (JSON.get key members)
  | _ => Normal None
  end.

Section Sort.
Context {A : Type} (comparefn : A -> A -> completion Number.t).

(** [x] goes before the first element that the comparator puts
    after it (a positive result); a NaN result counts as 0. *)
Fixpoint insert (x : A) (sorted : list A) : completion (list A) :=
  match sorted with
  | [] => Normal [x]
  | y :: rest =>
      v ← comparefn y x;
      if Number.ltb (Number.of_Z 0) v then Normal (x :: y :: rest)
      else (rest' ← insert x rest; Normal (y :: rest'))
  end.

(** [Array.prototype.sort(comparefn)]: the sort is stable, and an
    exception of the comparator ends it. This is the order of the
    language for a consistent comparator only: every stable sort then
    returns it. For a comparator that is not consistent (one that
    returns NaN for some pairs and a sign for others, say) the language
    leaves the order to the engine, and the order computed here need
    not be the one an engine gives; nothing below relies on it then:
    the sort is used on integer scores, on elements without any score,
    where every comparison is NaN, and as a permutation. *)
Definition sort (a : list A) : completion (list A) :=
  foldl (fun sorted x => s ← sorted; insert x s) (Normal []) a.
End Sort.

(** [a.slice(0, end)] *)
Definition slice0 {A} (a : list A) (end_ : Z) : list A :=
  let len := Z.of_nat (length a) in
  let final := if end_ <? 0 then Z.max (len + end_) 0 else Z.min end_ len in
  take (Z.to_nat final) a.

End Runtime.

(** ** localStorage *)

(** The storage area of the page: its items, whether the page may use
    it (when not, every access throws a [SecurityError]) and how many
    code units of keys and values it can hold. *)
Record LocalStorage : Type := {
  items : gmap jsstring jsstring;
  accessible : bool;
  quota : nat
}.

Definition used (m : gmap jsstring jsstring) : nat :=
  map_fold (fun k v n => (length k + length v + n)%nat) O m.

(** [localStorage.getItem(key)]: [None] stands for [null]. *)
Definition getItem (ls : LocalStorage) (key : jsstring)
  : completion (option jsstring) :=
  if accessible ls then Normal (items ls !! key) else Throw SecurityError.

(** [localStorage.setItem(key, value)] *)
Definition setItem (ls : LocalStorage) (key value : jsstring)
  : completion LocalStorage :=
  if accessible ls then
    let items' := <[key := value]> (items ls) in
    if (used items' <=? quota ls)%nat
    then Normal {| items := items';
                   accessible := accessible ls;
                   quota := quota ls |}
    else Throw QuotaExceededError
  else Throw SecurityError.

(** [value || fallback] for a string or [null]: [null] and the empty
    string are falsy. *)
Definition or_else (value : option jsstring) (fallback : jsstring)
  : jsstring :=
  match value with
  | Some (c :: s) => c :: s
  | Some [] | None => fallback
  end.

(** ** ScoreManager *)

Module ScoreManager.

Definition STORAGE_KEY : jsstring := js "math_game_scores".

(** [JSON.parse(localStorage.getItem(this.STORAGE_KEY) || '[]')] *)
Definition read_scores (ls : LocalStorage) : completion json :=
  raw ← getItem ls STORAGE_KEY;
  JSON.parse (or_else raw (js "[]")).

(** [(a, b) => b.score - a.score] *)
Definition by_score (a b : json) : completion Number.t :=
  b_score ← Runtime.get_property b (js "score");
  a_score ← Runtime.get_property a (js "score");
  x ← Runtime.ToNumber b_score;
  y ← Runtime.ToNumber a_score;
  Normal (Number.sub x y).

(** [scores.sort(...)]: only an array has a method [sort]. *)
Definition call_sort (scores : json) : completion (list json) :=
  match scores with
  | JArr elements => Runtime.sort by_score elements
  | _ => Throw TypeError
  end.

Definition getTopScores (limit : Z) (ls : LocalStorage) : list json :=
  try_catch
    (scores ← read_scores ls;
     sorted ← call_sort scores;
     Normal (Runtime.slice0 sorted limit))
    (fun _ => []).

(** [{ name: playerName, score, date: ... }] *)
Definition record (playerName : jsstring) (score : Z) (date : jsstring)
  : json :=
  JObj [(js "name", JStr playerName);
        (js "score", JNum (Number.of_Z score));
        (js "date", JStr date)].

(** [scores.push(v)]: only an array has a method [push]. *)
Definition call_push (scores : json) (v : json) : completion json :=
  match scores with
  | JArr elements => Normal (JArr (elements ++ [v]))
  | _ => Throw TypeError
  end.

(** [saveScore(playerName, score)] at the time [now] (the string
    [new Date().toISOString()] returns): the storage it leaves, and
    the error it logged with [console.error], if any. *)
Definition saveScore (playerName : jsstring) (score : Z) (now : jsstring)
  (ls : LocalStorage) : LocalStorage * option exn :=
  try_catch
    (scores ← read_scores ls;
     scores' ← call_push scores (record playerName score now);
     ls' ← setItem ls STORAGE_KEY (JSON.stringify scores');
     Normal (ls', None))
    (fun e => (ls, Some e)).

End ScoreManager.

(** ** State management *)

Inductive GAME_STATES : Type := MENU | PLAYING | GAME_OVER.

#[global] Instance GAME_STATES_eq_dec : EqDecision GAME_STATES.
Proof. solve_decision. Defined.

Record GameState : Type := {
  gameState : GAME_STATES;
  currentProblem : option MathProblem.t;
  userInput : jsstring;
  score : Z;
  timeRemaining : Z;
  showSuccess : bool;
  topScores : list json;
  playerNameToSave : option jsstring
}.

Definition INITIAL_STATE : GameState := {|
  gameState := MENU;
  currentProblem := None;
  userInput := [];
  score := 0;
  timeRemaining := 30;
  showSuccess := false;
  topScores := [];
  playerNameToSave := None
|}.

(** An action, by its [type], with its [payload]; [OTHER] is an action
    of any other type. *)
Inductive Action : Type :=
| START_GAME
| UPDATE_INPUT (payload : jsstring)
| CORRECT_ANSWER
| HIDE_SUCCESS
| TICK
| SAVE_SCORE (payload : jsstring)
| RETURN_TO_MENU
| LOAD_SCORES
| OTHER (type : jsstring).

(** What the reducer reads besides its arguments: the random source, with
    the number of values drawn from it so far, and the storage. *)
Record Env : Type := {
  random : RandomSource;
  drawn : nat;
  localStorage : LocalStorage
}.

Definition with_drawn (env : Env) (n : nat) : Env :=
  {| random := random env; drawn := n; localStorage := localStorage env |}.

(** [ProblemGenerator.generate()] in the environment [env]. *)
Definition generate_in (fuel : nat) (env : Env)
  : option (completion (MathProblem.t * Env)) :=
  match ProblemGenerator.generate fuel (random env) (drawn env) with
  | Some (Normal (p, n)) => Some (Normal (p, with_drawn env n))
  | Some (Throw e) => Some (Throw e)
  | None => None
  end.

(** [gameReducer(state, action)]; [fuel] bounds the passes through the
    loop of the problem generator, and the result is [None] when the
    loop does not end within it. *)
Definition gameReducer (fuel : nat) (env : Env) (state : GameState)
  (action : Action) : option (completion (GameState * Env)) :=
  match action with
  | START_GAME =>
      match generate_in fuel env with
      | Some (Normal (problem, env')) =>
          Some (Normal
            ({| gameState := PLAYING;
                currentProblem := Some problem;
                userInput := [];
                score := 0;
                timeRemaining := 30;
                showSuccess := false;
                topScores := topScores state;
                playerNameToSave := playerNameToSave state |}, env'))
      | Some (Throw e) => Some (Throw e)
      | None => None
      end
  | UPDATE_INPUT payload =>
      Some (Normal
        ({| gameState := gameState state;
            currentProblem := currentProblem state;
            userInput := payload;
            score := score state;
            timeRemaining := timeRemaining state;
            showSuccess := showSuccess state;
            topScores := topScores state;
            playerNameToSave := playerNameToSave state |}, env))
  | CORRECT_ANSWER =>
      match generate_in fuel env with
      | Some (Normal (problem, env')) =>
          Some (Normal
            ({| gameState := gameState state;
                currentProblem := Some problem;
                userInput := [];
                score := score state + 1;
                timeRemaining := timeRemaining state;
                showSuccess := true;
                topScores := topScores state;
                playerNameToSave := playerNameToSave state |}, env'))
      | Some (Throw e) => Some (Throw e)
      | None => None
      end
  | HIDE_SUCCESS =>
      Some (Normal
        ({| gameState := gameState state;
            currentProblem := currentProblem state;
            userInput := userInput state;
            score := score state;
            timeRemaining := timeRemaining state;
            showSuccess := false;
            topScores := topScores state;
            playerNameToSave := playerNameToSave state |}, env))
  | TICK =>
      let newTime := Z.max 0 (timeRemaining state - 1) in
      Some (Normal
        ({| gameState := if newTime =? 0 then GAME_OVER else gameState state;
            currentProblem := currentProblem state;
            userInput := userInput state;
            score := score state;
            timeRemaining := newTime;
            showSuccess := showSuccess state;
            topScores := topScores state;
            playerNameToSave := playerNameToSave state |}, env))
  | SAVE_SCORE payload =>
      Some (Normal
        ({| gameState := gameState state;
            currentProblem := currentProblem state;
            userInput := userInput state;
            score := score state;
            timeRemaining := timeRemaining state;
            showSuccess := showSuccess state;
            topScores := topScores state;
            playerNameToSave := Some payload |}, env))
  | RETURN_TO_MENU =>
      Some (Normal
        ({| gameState := gameState INITIAL_STATE;
            currentProblem := currentProblem INITIAL_STATE;
            userInput := userInput INITIAL_STATE;
            score := score INITIAL_STATE;
            timeRemaining := timeRemaining INITIAL_STATE;
            showSuccess := showSuccess INITIAL_STATE;
            topScores := ScoreManager.getTopScores 5 (localStorage env);
            playerNameToSave := playerNameToSave INITIAL_STATE |}, env))
  | LOAD_SCORES =>
      Some (Normal
        ({| gameState := gameState state;
            currentProblem := currentProblem state;
            userInput := userInput state;
            score := score state;
            timeRemaining := timeRemaining state;
            showSuccess := showSuccess state;
            topScores := ScoreManager.getTopScores 5 (localStorage env);
            playerNameToSave := playerNameToSave state |}, env))
  | OTHER _ => Some (Normal (state, env))
  end.

(** The state after the actions [actions], dispatched in order. *)
Fixpoint dispatch_all (fuel : nat) (env : Env) (state : GameState)
  (actions : list Action) : option (completion (GameState * Env)) :=
  match actions with
  | [] => Some (Normal (state, env))
  | action :: rest =>
      match gameReducer fuel env state action with
      | Some (Normal (state', env')) => dispatch_all fuel env' state' rest
      | r => r
      end
  end.

(** ** Auxiliary definitions used by the statements and proofs *)

(** The operands and the operation the loop body of
    [ProblemGenerator.generate] samples from the three random values at
    position [i]. *)
Definition sample (random : RandomSource) (i : nat)
  : Z * Z * option Operation :=
  (Math_floor (Number.mul (random i) (Number.of_Z 9)) + 1,
   Math_floor (Number.mul (random (i + 1)%nat) (Number.of_Z 9)) + 1,
   array_get operations
     (Math_floor (Number.mul (random (i + 2)%nat) (Number.of_Z 4)))).

(** A sample is rejected when it is a division with a remainder, and is
    otherwise turned into a problem, after the swap for subtractions. *)
Definition rejected (a b : Z) (op : Operation) : bool :=
  bool_decide (op = DIVISION) && ((b =? 0) || negb (Z.rem a b =? 0)).

Definition build (a b : Z) (op : Operation) : MathProblem.t :=
  if bool_decide (op = SUBTRACTION) && (a <? b)
  then MathProblem.new b a op else MathProblem.new a b op.

(** The constraint of the rejection sampling, in the words of the
    specification: a non-Division operation, or a Division pair where
    operand2 evenly divides operand1. *)
Definition satisfies_constraints (random : RandomSource) (i : nat) : Prop :=
  let '(a, b, op) := sample random i in
  exists o, op = Some o /\ (o <> DIVISION \/ (b | a)).

(** Every problem the generator can build: the check of the round trip
    of the answer through its decimal string runs over this list. *)
Definition all_samples : list (Z * Z * Operation) :=
  a ← seqZ 1 9; b ← seqZ 1 9; op ← operations; [(a, b, op)].

Definition round_trip (p : MathProblem.t) : bool :=
  MathProblem.isCorrect p (Print.Number_toString (MathProblem.answer p)).

(** The Number [x] as a value of [Math.random()], when it is one, and
    [+0] otherwise. *)
Definition random_or_zero (x : Number.t) : Random01 :=
  match unit_interval x as b return unit_interval x = b -> Random01 with
  | true => fun H => {| random_value := x; random_range := H |}
  | false =>
      fun _ => {| random_value := S754_zero false; random_range := eq_refl |}
  end eq_refl.

(** Random sources for the examples: [n / 16] for [n] from 0 to 15,
    which is a Number exactly, and [+0] otherwise. *)
Definition random_of (n : Z) : Random01 :=
  random_or_zero (Number.div (Number.of_Z n) (Number.of_Z 16)).

(** The source that returns [l !! i / 16] at call [i], and 0 after the
    end of [l]. *)
Definition source_of (l : list Z) : RandomSource :=
  fun i => nth i (List.map random_of l) (random_of 0).

(** A character that can continue a decimal literal: a digit, [.], [e],
    [E], [+] or [-]. *)
Definition continues_number (c : N) : bool :=
  Parse.is_digit c || bool_decide (c ∈ [46; 101; 69; 43; 45]%N).

(** A suffix of non-numeric characters: no character of it is a digit,
    or its first character cannot continue a decimal literal. *)
Definition non_numeric (suffix : jsstring) : Prop :=
  Forall (fun c => Parse.is_digit c = false) suffix
  \/ exists c rest, suffix = c :: rest /\ continues_number c = false.

(** What the scanners need of a suffix for it to leave the literal
    scanned before it unchanged. *)
Record inert (s : jsstring) : Prop := {
  inert_digits : Parse.scan_digits s = ([], s);
  inert_exponent : fst (Parse.scan_exponent s) = 0;
  inert_fraction : forall frac_digits r,
    Parse.scan_fraction s = Some (frac_digits, r) ->
    frac_digits = [] /\ fst (Parse.scan_exponent r) = 0;
  inert_sign : fst (Parse.scan_digits (snd (Parse.scan_sign s))) = []
}.

(** A Number that is finite or infinite with the sign [s]. *)
Definition has_sign (s : bool) (x : Number.t) : Prop :=
  match x with
  | S754_finite s' _ _ | S754_infinity s' => s' = s
  | _ => False
  end.

(** A Number with the sign [s] that is infinite, or finite with an
    exponent of at least [lo]. *)
Definition has_sign_above (s : bool) (lo : Z) (x : Number.t) : Prop :=
  match x with
  | S754_finite s' _ e => s' = s /\ lo <= e
  | S754_infinity s' => s' = s
  | _ => False
  end.

(** The rational a finite Number denotes: [m * 2^e], written as the
    fraction [m / 2^-e] when [e] is negative. *)
Definition to_Q (x : Number.t) : option Q :=
  match x with
  | S754_zero _ => Some 0%Q
  | S754_finite s m e =>
      Some (if 0 <=? e then inject_Z (cond_Zopp s (Z.pos m * 2 ^ e))
            else cond_Zopp s (Z.pos m) # Z.to_pos (2 ^ (- e)))
  | _ => None
  end.

(** The parsed value [x] and the answer [a] are finite and differ, as
    rationals, by less than 0.01. *)
Definition within_tolerance (x a : Number.t) : Prop :=
  match to_Q x, to_Q a with
  | Some v, Some w => (Qabs (v - w) < 1 # 100)%Q
  | _, _ => False
  end.

(** An answer for which the comparison of the source agrees with the
    comparison of the exact values: zero, or a valid Number of magnitude
    between [2^-4] and [2^53]. *)
Definition tolerance_safe (a : Number.t) : bool :=
  valid_binary Number.prec Number.emax a
  && match a with
     | S754_zero _ => true
     | S754_finite _ _ e => (-56 <=? e) && (e <=? 0)
     | _ => false
     end.

(** The score of a stored record: the integer its member [score]
    denotes. *)
Definition score_of (v : json) : option Z :=
  match v with
  | JObj members =>
      match JSON.get (js "score") members with
      | Some (JNum x) => Number.to_Z x
      | _ => None
      end
  | _ => None
  end.

Definition score_key (v : json) : Z := default 0 (score_of v).

(** A stored element without a score: [v.score] is [undefined]. *)
Definition has_no_score (v : json) : Prop :=
  Runtime.get_property v (js "score") = Normal None.

(** Stable insertion sort by descending key, on plain lists: what
    [Runtime.sort] computes when the comparator orders by an integer
    key. *)
Section SortByKey.
Context {A : Type} (key : A -> Z).

Fixpoint insert_by_key (x : A) (sorted : list A) : list A :=
  match sorted with
  | [] => [x]
  | y :: rest =>
      if key y <? key x then x :: y :: rest
      else y :: insert_by_key x rest
  end.

Definition sort_by_key (l : list A) : list A :=
  foldl (fun sorted x => insert_by_key x sorted) [] l.
End SortByKey.

(** Storage for the examples: an empty accessible store, and the store
    after saving the scores 5, 9, 2, 9, 1 in that order. *)
Definition empty_storage : LocalStorage :=
  {| items := ∅; accessible := true; quota := 4096 |}.

Definition example_date : jsstring := js "2024-01-01T00:00:00.000Z".

Definition save (playerName : string) (score : Z) (ls : LocalStorage)
  : LocalStorage :=
  (ScoreManager.saveScore (js playerName) score example_date ls).1.

Definition example_storage : LocalStorage :=
  save "e" 1 (save "d" 9 (save "c" 2 (save "b" 9 (save "a" 5
    empty_storage)))).

(** A store whose value under the key of the scores is JSON, and an
    array, of numbers and not of records. *)
Definition numbers_storage : LocalStorage :=
  {| items := {[ScoreManager.STORAGE_KEY := js "[1,2,3]"]};
     accessible := true;
     quota := 4096 |}.

(** A store whose value under the key of the scores is not JSON. *)
Definition corrupted_storage : LocalStorage :=
  {| items := {[ScoreManager.STORAGE_KEY := js "{oops"]};
     accessible := true;
     quota := 4096 |}.

(** The transition table of the specification: the phases in which an
    event is listed as valid. *)
Definition valid_in (action : Action) (phase : GAME_STATES) : bool :=
  match action with
  | START_GAME => bool_decide (phase = MENU) || bool_decide (phase = GAME_OVER)
  | UPDATE_INPUT _ | CORRECT_ANSWER | HIDE_SUCCESS | TICK =>
      bool_decide (phase = PLAYING)
  | SAVE_SCORE _ => bool_decide (phase = GAME_OVER)
  | RETURN_TO_MENU | LOAD_SCORES => true
  | OTHER _ => false
  end.

(** An environment for the examples. *)
Definition example_env : Env :=
  {| random := source_of [8; 4; 12; 15; 0; 4];
     drawn := 0;
     localStorage := example_storage |}.

(** The mantissa of a finite Number at the exponent [ez], an exponent
    that is not larger than its own, with its sign; 0 for a zero. *)
Definition scaled (x : Number.t) (ez : Z) : Z :=
  match x with
  | S754_finite s m e => cond_Zopp s (Z.pos m * 2 ^ (e - ez))
  | _ => 0
  end.

(** The Number the literal [0.01] of the source denotes. *)
Definition tolerance : Number.t := S754_finite false 5764607523034235 (-59).

(** ** Hooks and components *)

(** Whether a string is truthy: every string but the empty one. *)
Definition truthy (s : jsstring) : bool :=
  match s with [] => false | _ :: _ => true end.

(** The global [isNaN], on a Number. *)
Definition isNaN (x : Number.t) : bool := Number.is_nan x.

(** The body of the effect of [useAutoValidation]: whether it calls
    [onCorrect]. [None] stands for a [currentProblem] that is [null]. *)
Definition useAutoValidation (userInput : jsstring)
  (currentProblem : option MathProblem.t) : bool :=
  match currentProblem with
  | Some problem =>
      if negb (truthy userInput) then false
      else
        let numericInput := parseFloat userInput in
        if isNaN numericInput then false
        else MathProblem.isCorrect problem userInput
  | None => false
  end.

Module GameScreen.

(** [(timeRemaining / 30) * 100] *)
Definition progressPercentage (timeRemaining : Z) : Number.t :=
  Number.mul (Number.div (Number.of_Z timeRemaining) (Number.of_Z 30))
             (Number.of_Z 100).

End GameScreen.

Module GameOverScreen.

(** The state of the component: [playerName] and [saved]. *)
Record t : Type := {
  playerName : jsstring;
  saved : bool
}.

Definition initial : t := {| playerName := []; saved := false |}.

(** [setPlayerName(e.target.value)] *)
Definition setPlayerName (value : jsstring) (st : t) : t :=
  {| playerName := value; saved := saved st |}.

(** [handleSave]: the name [onSaveScore] is called with, when it is
    called, and the state of the component after. *)
Definition handleSave (st : t) : option jsstring * t :=
  if truthy (Runtime.trim (playerName st)) && negb (saved st)
  then (Some (Runtime.trim (playerName st)),
        {| playerName := playerName st; saved := true |})
  else (None, st).

End GameOverScreen.

(** The storage of an environment replaced. *)
Definition with_storage (env : Env) (ls : LocalStorage) : Env :=
  {| random := random env; drawn := drawn env; localStorage := ls |}.

(** The body of the effect of [MathGameApp] that saves the score, at the
    time [now]: a truthy [playerNameToSave] is saved with the score of
    the state, and then [LOAD_SCORES] is dispatched. *)
Definition save_effect (fuel : nat) (now : jsstring) (env : Env)
  (state : GameState) : option (completion (GameState * Env)) :=
  match playerNameToSave state with
  | Some name =>
      if truthy name then
        let ls' :=
          (ScoreManager.saveScore name (score state) now
             (localStorage env)).1 in
        gameReducer fuel (with_storage env ls') state LOAD_SCORES
      else Some (Normal (state, env))
  | None => Some (Normal (state, env))
  end.

(** ** Auxiliary definitions for the properties of the whole game *)

(** The exact result of an operation on integers; the division is the
    quotient. *)
Definition integer_result (op : Operation) (a b : Z) : Z :=
  match op with
  | ADDITION => a + b
  | SUBTRACTION => a - b
  | MULTIPLICATION => a * b
  | DIVISION => a / b
  end.

#[global] Instance Number_eq_dec : EqDecision Number.t.
Proof. solve_decision. Defined.

(** The states the reducer can reach from [INITIAL_STATE], with any
    actions, random values and storage. *)
Inductive reachable : GameState -> Prop :=
| reachable_initial : reachable INITIAL_STATE
| reachable_step fuel env state action state' env' :
    reachable state ->
    gameReducer fuel env state action = Some (Normal (state', env')) ->
    reachable state'.

(** A problem as the generator builds them. *)
Definition generated (p : MathProblem.t) : Prop :=
  exists a b op,
    p = build a b op /\ rejected a b op = false
    /\ 1 <= a <= 9 /\ 1 <= b <= 9.

Definition is_tick (action : Action) : bool :=
  match action with TICK => true | _ => false end.

Definition is_correct_answer (action : Action) : bool :=
  match action with CORRECT_ANSWER => true | _ => false end.

(** The actions that neither start a game nor leave it. *)
Definition in_game (action : Action) : bool :=
  match action with START_GAME | RETURN_TO_MENU => false | _ => true end.

(** The number of actions of [actions] that satisfy [f]. *)
Definition count (f : Action -> bool) (actions : list Action) : Z :=
  Z.of_nat (length (List.filter f actions)).

(** The sixteenths for [source_of] whose products select the operand
    [a], of 1..9, and the operation [op]: [Math.floor(n / 16 * 9) + 1]
    is [a], and [Math.floor(n / 16 * 4)] is the index of [op]. *)
Definition draw_for_operand (a : Z) : Z := (16 * (a - 1) + 8) / 9.

Definition draw_for_operation (op : Operation) : Z :=
  match op with
  | ADDITION => 0
  | SUBTRACTION => 4
  | MULTIPLICATION => 8
  | DIVISION => 12
  end.

(** The constraints on a problem of the game, with its answer. *)
Definition well_formed_problem (p : MathProblem.t) : Prop :=
  1 <= MathProblem.operand1 p <= 9 /\ 1 <= MathProblem.operand2 p <= 9
  /\ (MathProblem.operation p = DIVISION ->
      Z.rem (MathProblem.operand1 p) (MathProblem.operand2 p) = 0)
  /\ (MathProblem.operation p = SUBTRACTION ->
      MathProblem.operand2 p <= MathProblem.operand1 p)
  /\ MathProblem.answer p
     = Number.of_Z (integer_result (MathProblem.operation p)
                      (MathProblem.operand1 p) (MathProblem.operand2 p)).

(** What every state the reducer can reach satisfies. *)
Definition game_invariant (s : GameState) : Prop :=
  0 <= timeRemaining s <= 30
  /\ 0 <= score s
  /\ (gameState s = GAME_OVER <-> timeRemaining s = 0)
  /\ (gameState s = PLAYING -> is_Some (currentProblem s))
  /\ (forall p, currentProblem s = Some p -> well_formed_problem p)
  /\ (length (topScores s) <= 5)%nat.

(** The state after [START_GAME] in the environment of the examples. *)
Definition example_state : GameState :=
  {| gameState := PLAYING;
     currentProblem := Some (MathProblem.new 9 1 SUBTRACTION);
     userInput := [];
     score := 0;
     timeRemaining := 30;
     showSuccess := false;
     topScores := [];
     playerNameToSave := None |}.

(** ** Auxiliary definitions for the stored scores *)

(** A saved score: the name, the score and the date of its record. *)
Definition entry : Type := jsstring * Z * jsstring.

Definition entry_score (e : entry) : Z := e.1.2.

(** The records [saveScore] builds for the entries [entries]. *)
Definition records (entries : list entry) : list json :=
  List.map (fun e : entry => ScoreManager.record e.1.1 e.1.2 e.2) entries.

(** A score [saveScore] can store and [getTopScores] read back as the
    same integer: a whole number from 0 to below [2^53]. *)
Definition storable (score : Z) : Prop := 0 <= score < 2 ^ 53.

(** A storage the page may use that holds the records of [entries] as
    [saveScore] writes them; with no entries, the key may also be absent
    or hold the empty string. *)
Definition holds (ls : LocalStorage) (entries : list entry) : Prop :=
  accessible ls = true
  /\ or_else (items ls !! ScoreManager.STORAGE_KEY) (js "[]")
     = JSON.stringify (JArr (records entries)).

(** An environment with nothing stored yet, for the examples. *)
Definition fresh_env : Env :=
  {| random := source_of [8; 4; 12; 15; 0; 4];
     drawn := 0;
     localStorage := empty_storage |}.

(** * Properties *)

(** ** Numbers that denote integers *)

Section NumberFacts.

Lemma digits2_pos_bounds p :
  2 ^ (Z.pos (digits2_pos p) - 1) <= Z.pos p < 2 ^ Z.pos (digits2_pos p).
Proof.
  induction p as [p IH | p IH |]; cbn [digits2_pos].
  - rewrite Pos2Z.inj_succ.
    replace (Z.succ (Z.pos (digits2_pos p)) - 1)
      with (Z.succ (Z.pos (digits2_pos p) - 1)) by lia.
    rewrite !Z.pow_succ_r by lia. lia.
  - rewrite Pos2Z.inj_succ.
    replace (Z.succ (Z.pos (digits2_pos p)) - 1)
      with (Z.succ (Z.pos (digits2_pos p) - 1)) by lia.
    rewrite !Z.pow_succ_r by lia. lia.
  - cbn. lia.
Qed.

(** A lower bound on the value bounds the number of digits. *)
Lemma digits2_pos_lower p k :
  0 <= k -> 2 ^ k <= Z.pos p -> k < Z.pos (digits2_pos p).
Proof.
  intros Hk H. pose proof (digits2_pos_bounds p) as [_ Hp].
  apply (Z.pow_lt_mono_r_iff 2); lia.
Qed.

Lemma iter_xO_pow m d : Z.pos (Pos.iter xO m d) = Z.pos m * 2 ^ Z.pos d.
Proof.
  induction d as [|d IH] using Pos.peano_ind.
  - cbn. lia.
  - rewrite Pos.iter_succ, Pos2Z.inj_succ, Z.pow_succ_r by lia.
    rewrite Pos2Z.inj_xO, IH. lia.
Qed.

(** [shl_align] to an exponent that is not larger multiplies the
    mantissa by the power of two between the exponents. *)
Lemma shl_align_fst m e e' :
  e' <= e -> Z.pos (fst (shl_align m e e')) = Z.pos m * 2 ^ (e - e').
Proof.
  intros He. unfold shl_align.
  destruct (e' - e) as [|d|d] eqn:Hd; try lia.
  - replace (e - e') with 0 by lia. cbn [fst]. lia.
  - cbn [fst]. rewrite iter_xO_pow. f_equal. f_equal. lia.
Qed.

Lemma shr_m_shr_1 mrs : 0 <= shr_m mrs -> shr_m (shr_1 mrs) = shr_m mrs / 2.
Proof.
  destruct mrs as [m r s]. cbn [shr_m]. intros Hm.
  destruct m as [|[p|p|]|p]; cbn [shr_1 shr_m]; try lia.
  - reflexivity.
  - apply Z.div_unique with 1; lia.
  - apply Z.div_unique with 0; lia.
  - reflexivity.
Qed.

Lemma shr_m_iter n mrs :
  0 <= shr_m mrs ->
  shr_m (SpecFloat.iter_pos shr_1 n mrs) = shr_m mrs / 2 ^ Z.pos n.
Proof.
  revert mrs. induction n as [n IH | n IH |]; intros mrs Hm; cbn [SpecFloat.iter_pos].
  - assert (H1 : 0 <= shr_m (shr_1 mrs)).
    { rewrite shr_m_shr_1 by assumption. apply Z.div_pos; lia. }
    assert (H2 : 0 <= shr_m (SpecFloat.iter_pos shr_1 n (shr_1 mrs))).
    { rewrite IH by assumption. apply Z.div_pos; lia. }
    rewrite IH, IH, shr_m_shr_1 by assumption.
    rewrite !Z.div_div by lia. f_equal.
    rewrite Pos2Z.inj_xI, Z.pow_add_r, Z.pow_mul_r by lia.
    change (2 ^ 2) with 4. change (2 ^ 1) with 2.
    replace (4 ^ Z.pos n) with (2 ^ Z.pos n * 2 ^ Z.pos n).
    + lia.
    + rewrite <- Z.pow_add_r by lia.
      replace (Z.pos n + Z.pos n) with (2 * Z.pos n) by lia.
      rewrite Z.pow_mul_r by lia. reflexivity.
  - assert (H2 : 0 <= shr_m (SpecFloat.iter_pos shr_1 n mrs)).
    { rewrite IH by assumption. apply Z.div_pos; lia. }
    rewrite IH, IH by assumption.
    rewrite !Z.div_div by lia. f_equal.
    rewrite Pos2Z.inj_xO, <- Z.pow_add_r by lia. f_equal. lia.
  - rewrite shr_m_shr_1 by assumption. reflexivity.
Qed.

Lemma shr_m_of_loc m l : shr_m (shr_record_of_loc m l) = m.
Proof. destruct l as [|[]]; reflexivity. Qed.

(** Shifting to the exponent of the format keeps at least one digit
    of a mantissa whose value is above the smallest exponent. *)
Lemma shr_fexp_lower m e l :
  emin Number.prec Number.emax < Z.pos (digits2_pos m) + e ->
  exists k,
    0 <= k <= Z.pos (digits2_pos m) - 1
    /\ snd (shr_fexp Number.prec Number.emax (Z.pos m) e l) = e + k
    /\ fexp Number.prec Number.emax (Z.pos (digits2_pos m) + e) <= e + k
    /\ 2 ^ (Z.pos (digits2_pos m) - 1 - k)
       <= shr_m (fst (shr_fexp Number.prec Number.emax (Z.pos m) e l)).
Proof.
  intros Hd. pose proof (digits2_pos_bounds m) as [Hlo Hhi].
  unfold shr_fexp, shr. cbn [Zdigits2].
  set (d := Z.pos (digits2_pos m)) in *.
  destruct (fexp Number.prec Number.emax (d + e) - e) as [|p|p] eqn:Hn.
  - exists 0. cbn [fst snd]. rewrite shr_m_of_loc.
    replace (d - 1 - 0) with (d - 1) by lia. lia.
  - exists (Z.pos p). cbn [fst snd].
    assert (Hp : Z.pos p <= d - 1).
    { unfold fexp, emin, Number.prec, Number.emax in *. lia. }
    rewrite shr_m_iter, shr_m_of_loc by (rewrite shr_m_of_loc; lia).
    repeat split; try lia.
    apply Z.div_le_lower_bound; [lia|].
    rewrite <- Z.pow_add_r by lia.
    replace (Z.pos p + (d - 1 - Z.pos p)) with (d - 1) by lia. exact Hlo.
  - exists 0. cbn [fst snd]. rewrite shr_m_of_loc.
    replace (d - 1 - 0) with (d - 1) by lia. lia.
Qed.

Lemma round_nearest_even_ge m l : m <= round_nearest_even m l.
Proof. destruct l as [|[]]; cbn; try destruct (Z.even m); lia. Qed.

(** Rounding a positive mantissa whose value is above the smallest
    exponent never gives zero: the result has the sign asked for, and an
    exponent that is at least the one the format gives the mantissa. *)
Lemma binary_round_aux_above s m e l :
  emin Number.prec Number.emax < Z.pos (digits2_pos m) + e ->
  has_sign_above s
    (fexp Number.prec Number.emax (Z.pos (digits2_pos m) + e))
    (binary_round_aux Number.prec Number.emax s (Z.pos m) e l).
Proof.
  intros Hd. unfold binary_round_aux.
  destruct (shr_fexp_lower m e l Hd) as (k & Hk & He1 & Hf1 & Hm1).
  destruct (shr_fexp Number.prec Number.emax (Z.pos m) e l)
    as [mrs1 e1]. cbn [fst snd] in *.
  pose proof (round_nearest_even_ge (shr_m mrs1) (loc_of_shr_record mrs1))
    as Hr.
  assert (H1 : 1 <= 2 ^ (Z.pos (digits2_pos m) - 1 - k))
    by (apply Z.pow_le_mono_r with (b := 0); lia).
  destruct (round_nearest_even (shr_m mrs1) (loc_of_shr_record mrs1))
    as [|m2|m2]; try lia.
  assert (Hd2 : emin Number.prec Number.emax < Z.pos (digits2_pos m2) + e1).
  { assert (Z.pos (digits2_pos m) - 1 - k < Z.pos (digits2_pos m2))
      by (apply digits2_pos_lower; lia).
    lia. }
  destruct (shr_fexp_lower m2 e1 loc_Exact Hd2)
    as (k2 & Hk2 & He2 & _ & Hm2).
  destruct (shr_fexp Number.prec Number.emax (Z.pos m2) e1 loc_Exact)
    as [mrs2 e2]. cbn [fst snd] in *.
  assert (H2 : 1 <= 2 ^ (Z.pos (digits2_pos m2) - 1 - k2))
    by (apply Z.pow_le_mono_r with (b := 0); lia).
  destruct (shr_m mrs2) as [|m3|m3]; try lia.
  destruct (e2 <=? Number.emax - Number.prec); cbn; [split|]; lia || reflexivity.
Qed.

Lemma has_sign_above_sign s lo x : has_sign_above s lo x -> has_sign s x.
Proof. destruct x; cbn; tauto. Qed.

Lemma binary_round_aux_sign s m e l :
  emin Number.prec Number.emax < Z.pos (digits2_pos m) + e ->
  has_sign s (binary_round_aux Number.prec Number.emax s (Z.pos m) e l).
Proof. intros H. eapply has_sign_above_sign, binary_round_aux_above, H. Qed.

Lemma digits2_pos_iter_xO m d :
  Z.pos (digits2_pos (Pos.iter xO m d)) = Z.pos (digits2_pos m) + Z.pos d.
Proof.
  induction d as [|d IH] using Pos.peano_ind.
  - cbn. lia.
  - rewrite Pos.iter_succ. cbn [digits2_pos].
    rewrite Pos2Z.inj_succ, IH. lia.
Qed.

Lemma binary_round_above s m e :
  emin Number.prec Number.emax < Z.pos (digits2_pos m) + e ->
  has_sign_above s
    (fexp Number.prec Number.emax (Z.pos (digits2_pos m) + e))
    (binary_round Number.prec Number.emax s m e).
Proof.
  intros Hd. unfold binary_round, shl_align.
  destruct (fexp Number.prec Number.emax (Z.pos (digits2_pos m) + e) - e)
    as [|p|p] eqn:Hn; try (apply binary_round_aux_above; exact Hd).
  replace (Z.pos (digits2_pos m) + e)
    with (Z.pos (digits2_pos (Pos.iter xO m p))
          + fexp Number.prec Number.emax (Z.pos (digits2_pos m) + e)) at 1
    by (rewrite digits2_pos_iter_xO; lia).
  apply binary_round_aux_above. rewrite digits2_pos_iter_xO. lia.
Qed.

Lemma binary_round_sign s m e :
  emin Number.prec Number.emax < Z.pos (digits2_pos m) + e ->
  has_sign s (binary_round Number.prec Number.emax s m e).
Proof. intros H. eapply has_sign_above_sign, binary_round_above, H. Qed.

Lemma ltb_zero_sign s x :
  has_sign s x -> Number.ltb (Number.of_Z 0) x = negb s.
Proof.
  destruct x as [| s' | | s' m e]; cbn; try contradiction;
    intros ->; destruct s; reflexivity.
Qed.

(** The integer a finite Number denotes, scaled to a common exponent
    [ez] that is not larger than its own. *)
Lemma to_Z_scaled s m e a ez :
  Number.to_Z (S754_finite s m e) = Some a -> ez <= e ->
  cond_Zopp s (Z.pos m * 2 ^ (e - ez)) * 2 ^ Z.max ez 0
  = a * 2 ^ Z.max (- ez) 0.
Proof.
  unfold Number.to_Z. intros H Hez.
  assert (Hopp : forall v w, cond_Zopp s v * w = cond_Zopp s (v * w))
    by (intros; destruct s; cbn; lia).
  destruct (Z.leb_spec 0 e) as [He | He]; cbn [orb] in H.
  - injection H as <-.
    replace (if s then - (Z.pos m * 2 ^ e) else Z.pos m * 2 ^ e)
      with (cond_Zopp s (Z.pos m * 2 ^ e)) by reflexivity.
    rewrite !Hopp. f_equal.
    rewrite <- !Z.mul_assoc, <- !Z.pow_add_r by lia. do 2 f_equal. lia.
  - destruct (Z.eqb_spec (Z.pos m mod 2 ^ (- e)) 0) as [Hm | Hm];
      [|discriminate].
    injection H as <-.
    replace (if s then - (Z.pos m / 2 ^ (- e)) else Z.pos m / 2 ^ (- e))
      with (cond_Zopp s (Z.pos m / 2 ^ (- e))) by reflexivity.
    rewrite !Hopp. f_equal.
    rewrite Z.max_r, Z.max_l by lia. rewrite Z.pow_0_r, Z.mul_1_r.
    assert (Hdiv : Z.pos m = 2 ^ (- e) * (Z.pos m / 2 ^ (- e))).
    { apply Z.div_exact; [apply Z.pow_nonzero; lia | exact Hm]. }
    rewrite Hdiv at 1.
    replace (- ez) with (- e + (e - ez)) by lia.
    rewrite Z.pow_add_r by lia. lia.
Qed.

Lemma to_Z_sign s m e a :
  Number.to_Z (S754_finite s m e) = Some a ->
  if s then a < 0 else 0 < a.
Proof.
  unfold Number.to_Z. intros H.
  destruct (Z.leb_spec 0 e) as [He | He]; cbn [orb] in H.
  - injection H as <-.
    assert (0 < Z.pos m * 2 ^ e) by (apply Z.mul_pos_pos; lia).
    destruct s; lia.
  - destruct (Z.eqb_spec (Z.pos m mod 2 ^ (- e)) 0) as [Hm | Hm];
      [|discriminate].
    injection H as <-.
    assert (0 < Z.pos m / 2 ^ (- e)).
    { apply Z.div_exact in Hm; [|apply Z.pow_nonzero; lia].
      assert (0 < 2 ^ (- e)) by (apply Z.pow_pos_nonneg; lia).
      assert (0 <= Z.pos m / 2 ^ (- e)) by (apply Z.div_pos; lia).
      nia. }
    destruct s; lia.
Qed.

(** The sign of the difference of two Numbers that denote integers is
    the sign of the difference of the integers: the subtraction does
    not round to zero. *)
Lemma sub_sign x y a b :
  Number.to_Z x = Some a -> Number.to_Z y = Some b ->
  Number.ltb (Number.of_Z 0) (Number.sub y x) = (a <? b).
Proof.
  intros Hx Hy.
  destruct x as [sx | sx | | sx mx ex]; try discriminate;
    destruct y as [sy | sy | | sy my ey]; try discriminate.
  - injection Hx as <-. injection Hy as <-.
    destruct sx, sy; reflexivity.
  - injection Hx as <-. apply to_Z_sign in Hy.
    destruct sy; cbn; symmetry; [apply Z.ltb_ge | apply Z.ltb_lt]; lia.
  - injection Hy as <-. apply to_Z_sign in Hx.
    destruct sx; cbn; symmetry; [apply Z.ltb_lt | apply Z.ltb_ge]; lia.
  - unfold Number.sub, SFsub.
    set (ez := Z.min ey ex).
    pose proof (to_Z_scaled _ _ _ _ ez Hx ltac:(lia)) as HX.
    pose proof (to_Z_scaled _ _ _ _ ez Hy ltac:(lia)) as HY.
    assert (Hfx := shl_align_fst mx ex ez ltac:(lia)).
    assert (Hfy := shl_align_fst my ey ez ltac:(lia)).
    rewrite Hfx, Hfy.
    set (X := cond_Zopp sx (Z.pos mx * 2 ^ (ex - ez))) in *.
    set (Y := cond_Zopp sy (Z.pos my * 2 ^ (ey - ez))) in *.
    assert (HD : (Y - X) * 2 ^ Z.max ez 0 = (b - a) * 2 ^ Z.max (- ez) 0)
      by lia.
    assert (Hp1 : 0 < 2 ^ Z.max ez 0) by (apply Z.pow_pos_nonneg; lia).
    assert (Hp2 : 0 < 2 ^ Z.max (- ez) 0) by (apply Z.pow_pos_nonneg; lia).
    unfold binary_normalize.
    destruct (Y - X) as [|p|p] eqn:HYX.
    + assert (b - a = 0) by nia.
      cbn. symmetry. apply Z.ltb_ge. lia.
    + assert (0 < b - a) by nia.
      rewrite (ltb_zero_sign false).
      * symmetry. apply Z.ltb_lt. lia.
      * apply binary_round_sign.
        assert (Z.max (- ez) 0 < Z.pos (digits2_pos p)).
        { apply digits2_pos_lower; [lia|].
          destruct (Z.max_spec ez 0) as [[? E] | [? E]]; rewrite E in *.
          - rewrite Z.pow_0_r in HD. 
            assert (2 ^ Z.max (- ez) 0 <= (b - a) * 2 ^ Z.max (- ez) 0)
              by nia.
            lia.
          - replace (Z.max (- ez) 0) with 0 by lia.
            rewrite Z.pow_0_r. lia. }
        unfold emin, Number.prec, Number.emax. lia.
    + assert (b - a < 0) by nia.
      rewrite (ltb_zero_sign true).
      * symmetry. apply Z.ltb_ge. lia.
      * apply binary_round_sign.
        assert (Z.max (- ez) 0 < Z.pos (digits2_pos p)).
        { apply digits2_pos_lower; [lia|].
          destruct (Z.max_spec ez 0) as [[? E] | [? E]]; rewrite E in *.
          - rewrite Z.pow_0_r in HD.
            assert (2 ^ Z.max (- ez) 0 <= (a - b) * 2 ^ Z.max (- ez) 0)
              by nia.
            lia.
          - replace (Z.max (- ez) 0) with 0 by lia.
            rewrite Z.pow_0_r. lia. }
        unfold emin, Number.prec, Number.emax. lia.
Qed.

End NumberFacts.

(** ** Valid Numbers *)

Section Validity.

Local Abbreviation fexp := (SpecFloat.fexp Number.prec Number.emax).
Local Abbreviation emin := (SpecFloat.emin Number.prec Number.emax).

Lemma digits2_pos_unique p d :
  2 ^ (d - 1) <= Z.pos p < 2 ^ d -> Z.pos (digits2_pos p) = d.
Proof.
  intros [Hlo Hhi]. pose proof (digits2_pos_bounds p) as [Hlo' Hhi'].
  assert (0 < d).
  { destruct (Z.ltb_spec 0 d); [assumption|]. exfalso.
    destruct (Z.eq_dec d 0) as [-> | Hd]; [cbn in Hhi; lia|].
    rewrite Z.pow_neg_r in Hhi by lia. lia. }
  assert (d - 1 < Z.pos (digits2_pos p))
    by (apply (Z.pow_lt_mono_r_iff 2); lia).
  assert (Z.pos (digits2_pos p) - 1 < d)
    by (apply (Z.pow_lt_mono_r_iff 2); lia).
  lia.
Qed.

Lemma fexp_spec e : fexp e = Z.max (e - 53) (-1074).
Proof. reflexivity. Qed.

Lemma Zdigits2_bounds m :
  0 < m -> 2 ^ (Zdigits2 m - 1) <= m < 2 ^ Zdigits2 m.
Proof. destruct m as [|p|p]; try lia. intros _. apply digits2_pos_bounds. Qed.

Lemma Zdigits2_pos m : 0 < m -> 0 < Zdigits2 m.
Proof. destruct m; cbn; lia. Qed.

Lemma Zdigits2_unique m d :
  2 ^ (d - 1) <= m < 2 ^ d -> 0 < m -> Zdigits2 m = d.
Proof.
  destruct m as [|p|p]; try lia. intros H _. apply digits2_pos_unique, H.
Qed.

Lemma Zdigits2_mono a b : 0 < a <= b -> Zdigits2 a <= Zdigits2 b.
Proof.
  intros H. pose proof (Zdigits2_bounds a ltac:(lia)) as [Ha _].
  pose proof (Zdigits2_bounds b ltac:(lia)) as [_ Hb].
  assert (Zdigits2 a - 1 < Zdigits2 b); [|lia].
  destruct (Z.ltb_spec (Zdigits2 a - 1) 0); [destruct b; cbn; lia|].
  apply (Z.pow_lt_mono_r_iff 2); try lia. destruct b; cbn; lia.
Qed.

(** What [shr_fexp] returns for a mantissa that has at least the digits
    of the format: the exponent of the format, and the mantissa shifted
    to it, which is 0 only at the smallest exponent and otherwise has
    the digits that exponent asks for. *)
Lemma shr_fexp_canonical m e l :
  0 <= m -> e <= fexp (Zdigits2 m + e) ->
  let r := shr_fexp Number.prec Number.emax m e l in
  r.2 = fexp (Zdigits2 m + e)
  /\ 0 <= shr_m r.1
  /\ (shr_m r.1 = 0 -> r.2 = emin)
  /\ (0 < shr_m r.1 -> fexp (Zdigits2 (shr_m r.1) + r.2) = r.2).
Proof.
  intros Hm He. unfold shr_fexp, shr.
  set (d := Zdigits2 m) in *.
  assert (Hd0 : m = 0 -> d = 0) by (intros ->; reflexivity).
  destruct (fexp (d + e) - e) as [|p|p] eqn:Hk; try lia; cbn [fst snd].
  - rewrite shr_m_of_loc. repeat split; try lia.
    + intros ->. rewrite (Hd0 eq_refl) in *.
      rewrite fexp_spec in *. unfold emin, Number.prec, Number.emax. lia.
    + intros _. fold d. lia.
  - rewrite shr_m_iter, shr_m_of_loc by (rewrite shr_m_of_loc; lia).
    assert (Hp2 : 0 < 2 ^ Z.pos p) by (apply Z.pow_pos_nonneg; lia).
    repeat split; try lia.
    + apply Z.div_pos; lia.
    + intros H0. apply Z.div_small_iff in H0; [|lia].
      destruct H0 as [H0 | H0]; [|lia].
      assert (d <= Z.pos p).
      { destruct (Z.eq_dec m 0) as [Hm0 | Hm0]; [rewrite Hd0 by assumption; lia|].
        pose proof (Zdigits2_bounds m ltac:(lia)) as [Hlo _]. fold d in Hlo.
        assert (d - 1 < Z.pos p); [|lia].
        destruct (Z.ltb_spec (d - 1) 0); [lia|].
        apply (Z.pow_lt_mono_r_iff 2); lia. }
      rewrite fexp_spec in *. unfold emin, Number.prec, Number.emax. lia.
    + intros Hpos.
      assert (Hm0 : 0 < m).
      { destruct (Z.eq_dec m 0) as [-> | ]; [|lia].
        rewrite Z.div_0_l in Hpos by lia. lia. }
      pose proof (Zdigits2_bounds m Hm0) as [Hlo Hhi]. fold d in Hlo, Hhi.
      pose proof (Zdigits2_pos m Hm0) as Hdpos. fold d in Hdpos.
      assert (Hge : 2 ^ Z.pos p <= m).
      { destruct (Z.ltb_spec m (2 ^ Z.pos p)); [|assumption].
        rewrite Z.div_small in Hpos by lia. lia. }
      assert (Hpd : Z.pos p < d) by (apply (Z.pow_lt_mono_r_iff 2); lia).
      rewrite (Zdigits2_unique (m / 2 ^ Z.pos p) (d - Z.pos p)).
      * replace (d - Z.pos p + (e + Z.pos p)) with (d + e) by lia. lia.
      * split.
        -- apply Z.div_le_lower_bound; [lia|].
           rewrite <- Z.pow_add_r by lia.
           replace (Z.pos p + (d - Z.pos p - 1)) with (d - 1) by lia. exact Hlo.
        -- apply Z.div_lt_upper_bound; [lia|].
           rewrite <- Z.pow_add_r by lia.
           replace (Z.pos p + (d - Z.pos p)) with d by lia. exact Hhi.
      * exact Hpos.
Qed.

Lemma round_nearest_even_cases m l :
  round_nearest_even m l = m \/ round_nearest_even m l = m + 1.
Proof. destruct l as [|[]]; cbn; try destruct (Z.even m); auto. Qed.

Lemma fexp_mono a b : a <= b -> fexp a <= fexp b.
Proof. rewrite !fexp_spec. lia. Qed.

(** Rounding a mantissa that has at least the digits of the format
    gives a valid Number. *)
Lemma binary_round_aux_valid s m e l :
  0 <= m -> e <= fexp (Zdigits2 m + e) ->
  valid_binary Number.prec Number.emax
    (binary_round_aux Number.prec Number.emax s m e l) = true.
Proof.
  intros Hm He. unfold binary_round_aux.
  destruct (shr_fexp_canonical m e l Hm He) as (_ & H1 & H1z & H1p).
  destruct (shr_fexp Number.prec Number.emax m e l) as [mrs1 e1].
  cbn [fst snd] in *.
  set (m2 := round_nearest_even (shr_m mrs1) (loc_of_shr_record mrs1)).
  assert (Hm2 : 0 <= m2 /\ e1 <= fexp (Zdigits2 m2 + e1)).
  { subst m2.
    destruct (round_nearest_even_cases (shr_m mrs1) (loc_of_shr_record mrs1))
      as [-> | ->].
    - split; [lia|].
      destruct (Z.eq_dec (shr_m mrs1) 0) as [E | E].
      + rewrite E, H1z by assumption. apply Z.leb_le. reflexivity.
      + rewrite H1p by lia. lia.
    - split; [lia|].
      destruct (Z.eq_dec (shr_m mrs1) 0) as [E | E].
      + rewrite E, H1z by assumption. apply Z.leb_le. reflexivity.
      + rewrite <- (H1p ltac:(lia)) at 1.
        apply fexp_mono. pose proof (Zdigits2_mono (shr_m mrs1) (shr_m mrs1 + 1)).
        lia. }
  destruct Hm2 as [Hm2 He2].
  destruct (shr_fexp_canonical m2 e1 loc_Exact Hm2 He2) as (_ & H3 & _ & H3p).
  destruct (shr_fexp Number.prec Number.emax m2 e1 loc_Exact) as [mrs3 e3].
  cbn [fst snd] in *.
  destruct (shr_m mrs3) as [|m3|m3] eqn:E3; try reflexivity.
  destruct (Z.leb_spec e3 (Number.emax - Number.prec)) as [Hle | Hgt];
    [|reflexivity].
  cbn [valid_binary]. unfold bounded, canonical_mantissa.
  specialize (H3p ltac:(lia)). cbn [Zdigits2] in H3p.
  rewrite H3p, Z.eqb_refl. cbn. apply Z.leb_le. exact Hle.
Qed.

Lemma binary_round_valid s m e :
  valid_binary Number.prec Number.emax
    (binary_round Number.prec Number.emax s m e) = true.
Proof.
  unfold binary_round, shl_align.
  destruct (fexp (Z.pos (digits2_pos m) + e) - e) as [|p|p] eqn:Hk.
  - apply binary_round_aux_valid; [lia|]. cbn [Zdigits2]. lia.
  - apply binary_round_aux_valid; [lia|]. cbn [Zdigits2]. lia.
  - apply binary_round_aux_valid; [lia|]. cbn [Zdigits2].
    rewrite digits2_pos_iter_xO.
    replace (Z.pos (digits2_pos m) + Z.pos p
             + fexp (Z.pos (digits2_pos m) + e))
      with (Z.pos (digits2_pos m) + e) by lia.
    lia.
Qed.

Lemma of_Z_valid z : valid_binary Number.prec Number.emax (Number.of_Z z) = true.
Proof.
  unfold Number.of_Z, binary_normalize.
  destruct z; [reflexivity | apply binary_round_valid ..].
Qed.

(** The quotient [SFdiv_core_binary] returns has at least the digits of
    the format. *)
Lemma SFdiv_core_enough m1 e1 m2 e2 :
  0 < m1 -> 0 < m2 ->
  let r := SFdiv_core_binary Number.prec Number.emax m1 e1 m2 e2 in
  0 <= r.1.1 /\ r.1.2 <= fexp (Zdigits2 r.1.1 + r.1.2).
Proof.
  intros H1 H2. unfold SFdiv_core_binary.
  set (d1 := Zdigits2 m1). set (d2 := Zdigits2 m2).
  set (X := d1 + e1 - (d2 + e2)).
  set (e' := Z.min (fexp X) (e1 - e2)).
  set (sh := e1 - e2 - e').
  assert (Hsh : 0 <= sh) by (subst sh e'; lia).
  set (m' := match sh with
             | 0 => m1
             | Z.pos _ => Z.shiftl m1 sh
             | Z.neg _ => 0
             end).
  assert (Hm' : m' = m1 * 2 ^ sh).
  { subst m'. destruct sh as [|p|p] eqn:E; try lia.
    rewrite Z.shiftl_mul_pow2 by lia. reflexivity. }
  destruct (Z.div_eucl m' m2) as [q r] eqn:Hqr. cbn [fst snd].
  assert (Hq : q = m' / m2) by (unfold Z.div; rewrite Hqr; reflexivity).
  pose proof (Zdigits2_bounds m1 H1) as [Hlo1 _]. fold d1 in Hlo1.
  pose proof (Zdigits2_bounds m2 H2) as [_ Hhi2]. fold d2 in Hhi2.
  pose proof (Zdigits2_pos m1 H1) as Hd1. fold d1 in Hd1.
  pose proof (Zdigits2_pos m2 H2) as Hd2. fold d2 in Hd2.
  assert (Hpow : 0 < 2 ^ sh) by (apply Z.pow_pos_nonneg; lia).
  assert (Hq0 : 0 <= q) by (rewrite Hq; apply Z.div_pos; nia).
  split; [exact Hq0|].
  assert (Hm'lo : 2 ^ (d1 - 1 + sh) <= m').
  { rewrite Hm', Z.pow_add_r by lia. nia. }
  destruct (Z.eq_dec q 0) as [-> | Hqn].
  - (* the quotient is 0: the exponent is the smallest one *)
    cbn [Zdigits2]. rewrite Z.add_0_l.
    assert (Hlt : m' < m2).
    { symmetry in Hq. apply Z.div_small_iff in Hq; lia. }
    assert (d1 - 1 + sh < d2) by (apply (Z.pow_lt_mono_r_iff 2); lia).
    assert (X <= e') by (subst X sh; lia).
    rewrite !fexp_spec. subst e'. rewrite fexp_spec in *. lia.
  - assert (Hdq : d1 + sh - d2 <= Zdigits2 q).
    { pose proof (Zdigits2_pos q ltac:(lia)).
      destruct (Z.ltb_spec (d1 - 1 + sh - d2) 0) as [Hneg | Hnn]; [lia|].
      assert (2 ^ (d1 - 1 + sh - d2) <= q).
      { rewrite Hq. apply Z.div_le_lower_bound; [lia|].
        apply Z.le_trans with (2 ^ d2 * 2 ^ (d1 - 1 + sh - d2)).
        - apply Z.mul_le_mono_nonneg_r; [apply Z.pow_nonneg; lia | lia].
        - rewrite <- Z.pow_add_r by lia.
          replace (d2 + (d1 - 1 + sh - d2)) with (d1 - 1 + sh) by lia.
          exact Hm'lo. }
      pose proof (Zdigits2_bounds q ltac:(lia)) as [_ Hqhi].
      assert (d1 - 1 + sh - d2 < Zdigits2 q)
        by (apply (Z.pow_lt_mono_r_iff 2); lia).
      lia. }
    apply Z.le_trans with (fexp X); [subst e'; lia|].
    apply fexp_mono. subst X sh. lia.
Qed.

Lemma of_decimal_valid neg m e10 :
  valid_binary Number.prec Number.emax (Number.of_decimal neg m e10) = true.
Proof.
  unfold Number.of_decimal. destruct m as [|p|p]; try reflexivity.
  destruct (Z.leb_spec 0 e10); [apply binary_round_valid|].
  assert (H10 : 0 < 10 ^ (- e10)) by (apply Z.pow_pos_nonneg; lia).
  pose proof (SFdiv_core_enough (Z.pos p) 0 (10 ^ (- e10)) 0 ltac:(lia) H10)
    as [Hq He].
  destruct (SFdiv_core_binary Number.prec Number.emax (Z.pos p) 0
              (10 ^ (- e10)) 0) as [[q e] l].
  cbn [fst snd] in *. apply binary_round_aux_valid; assumption.
Qed.

(** [parseFloat] returns a valid Number. *)
Lemma parseFloat_valid s :
  valid_binary Number.prec Number.emax (parseFloat s) = true.
Proof.
  unfold parseFloat.
  destruct (Parse.scan_literal (Parse.skip_whitespace s)) as [[[neg l] r]|];
    [|reflexivity].
  destruct l; [reflexivity | apply of_decimal_valid].
Qed.

(** What validity says of a finite Number. *)
Lemma valid_finite s m e :
  valid_binary Number.prec Number.emax (S754_finite s m e) = true ->
  Z.pos m < 2 ^ 53 /\ -1074 <= e <= 971
  /\ (-1074 < e -> 2 ^ 52 <= Z.pos m).
Proof.
  cbn [valid_binary]. unfold bounded, canonical_mantissa.
  intros H. apply andb_prop in H as [Hc He].
  apply Z.eqb_eq in Hc. apply Z.leb_le in He.
  rewrite fexp_spec in Hc. unfold Number.emax, Number.prec in He.
  pose proof (digits2_pos_bounds m) as [Hlo Hhi].
  set (d := Z.pos (digits2_pos m)) in *.
  assert (d <= 53) by lia.
  repeat split; try lia.
  - apply Z.lt_le_trans with (2 ^ d); [exact Hhi|].
    apply Z.pow_le_mono_r; lia.
  - intros Hn. assert (d = 53) as E by lia. rewrite E in Hlo. exact Hlo.
Qed.

(** A mantissa that already has the exponent of the format is
    returned as it is. *)
Lemma binary_round_aux_exact s m e :
  fexp (Z.pos (digits2_pos m) + e) = e -> e <= 971 ->
  binary_round_aux Number.prec Number.emax s (Z.pos m) e loc_Exact
  = S754_finite s m e.
Proof.
  intros Hf He. unfold binary_round_aux, shr_fexp. cbn [Zdigits2].
  rewrite Hf, Z.sub_diag. cbn [shr shr_record_of_loc shr_m loc_of_shr_record
                               round_nearest_even Zdigits2].
  rewrite Hf, Z.sub_diag. cbn [shr shr_record_of_loc shr_m].
  replace (e <=? Number.emax - Number.prec) with true; [reflexivity|].
  symmetry. apply Z.leb_le. unfold Number.emax, Number.prec. lia.
Qed.

(** A mantissa of at most 53 digits is not rounded: it is shifted to
    the exponent of the format. *)
Lemma binary_round_exact s m e :
  let f := fexp (Z.pos (digits2_pos m) + e) in
  Z.pos (digits2_pos m) <= 53 -> -1074 <= e -> f <= 971 ->
  exists m',
    binary_round Number.prec Number.emax s m e = S754_finite s m' f
    /\ Z.pos m' = Z.pos m * 2 ^ (e - f).
Proof.
  intros f Hd He Hf. subst f. unfold binary_round, shl_align.
  assert (Hle : fexp (Z.pos (digits2_pos m) + e) <= e)
    by (rewrite fexp_spec; lia).
  destruct (fexp (Z.pos (digits2_pos m) + e) - e) as [|p|p] eqn:Hk; try lia.
  - assert (E : fexp (Z.pos (digits2_pos m) + e) = e) by lia.
    exists m. rewrite E, Z.sub_diag. split; [|cbn; lia].
    apply binary_round_aux_exact; lia.
  - exists (Pos.iter xO m p). split.
    + apply binary_round_aux_exact; [|lia].
      rewrite digits2_pos_iter_xO. f_equal. lia.
    + rewrite iter_xO_pow. do 2 f_equal. lia.
Qed.

End Validity.

(** ** The products of the random values *)

Section RandomFacts.

Local Abbreviation fexp := (SpecFloat.fexp Number.prec Number.emax).

Lemma shr_r_shr_1 mrs : 0 <= shr_m mrs -> shr_r (shr_1 mrs) = Z.odd (shr_m mrs).
Proof.
  destruct mrs as [m r s]. cbn [shr_m]. intros Hm.
  destruct m as [|[p|p|]|p]; cbn [shr_1 shr_r]; try lia; reflexivity.
Qed.

(** The round bit after a shift by [n] digits is the last digit
    shifted out. *)
Lemma shr_r_iter n mrs :
  0 <= shr_m mrs ->
  shr_r (SpecFloat.iter_pos shr_1 n mrs)
  = Z.odd (shr_m mrs / 2 ^ (Z.pos n - 1)).
Proof.
  revert mrs. induction n as [n IH | n IH |]; intros mrs Hm;
    cbn [SpecFloat.iter_pos].
  - assert (H1 : 0 <= shr_m (shr_1 mrs)).
    { rewrite shr_m_shr_1 by assumption. apply Z.div_pos; lia. }
    assert (H2 : 0 <= shr_m (SpecFloat.iter_pos shr_1 n (shr_1 mrs))).
    { rewrite shr_m_iter by assumption. apply Z.div_pos; lia. }
    rewrite IH, shr_m_iter, shr_m_shr_1 by assumption.
    rewrite !Z.div_div by lia. do 2 f_equal.
    change 2 with (2 ^ 1) at 1. rewrite <- !Z.pow_add_r by lia.
    f_equal. lia.
  - assert (H2 : 0 <= shr_m (SpecFloat.iter_pos shr_1 n mrs)).
    { rewrite shr_m_iter by assumption. apply Z.div_pos; lia. }
    rewrite IH, shr_m_iter by assumption.
    rewrite !Z.div_div by lia. do 2 f_equal.
    rewrite <- !Z.pow_add_r by lia. f_equal. lia.
  - rewrite shr_r_shr_1 by assumption.
    change (2 ^ (1 - 1)) with 1. rewrite Z.div_1_r. reflexivity.
Qed.

Lemma round_nearest_even_le mrs :
  round_nearest_even (shr_m mrs) (loc_of_shr_record mrs)
  <= shr_m mrs + (if shr_r mrs then 1 else 0).
Proof.
  destruct mrs as [m [] []]; cbn; try destruct (Z.even m); lia.
Qed.

(** Shifting a mantissa to the exponent of the format never increases
    the value. *)
Lemma shr_fexp_le m e :
  0 <= m ->
  let r := shr_fexp Number.prec Number.emax m e loc_Exact in
  0 <= shr_m r.1 /\ e <= r.2 /\ shr_m r.1 * 2 ^ (r.2 - e) <= m.
Proof.
  intros Hm. unfold shr_fexp, shr.
  destruct (fexp (Zdigits2 m + e) - e) as [|p|p]; cbn [fst snd shr_m shr_record_of_loc].
  - rewrite Z.sub_diag. lia.
  - rewrite shr_m_iter by exact Hm. cbn [shr_m].
    assert (0 < 2 ^ Z.pos p) by (apply Z.pow_pos_nonneg; lia).
    replace (e + Z.pos p - e) with (Z.pos p) by lia.
    split; [apply Z.div_pos; lia|]. split; [lia|].
    rewrite Z.mul_comm. apply Z.mul_div_le. lia.
  - rewrite Z.sub_diag. lia.
Qed.

(** The result of rounding a mantissa that is shifted by [p] digits: a
    mantissa [m2] at an exponent [e2], of a value that is at most the
    shifted mantissa, plus one when the last digit shifted out is 1. *)
Lemma binary_round_aux_upper s M E p :
  fexp (Z.pos (digits2_pos M) + E) - E = Z.pos p ->
  exists m2 e2,
    binary_round_aux Number.prec Number.emax s (Z.pos M) E loc_Exact
    = match m2 with
      | 0 => S754_zero s
      | Z.pos m =>
          if e2 <=? Number.emax - Number.prec then S754_finite s m e2
          else S754_infinity s
      | Z.neg _ => S754_nan
      end
    /\ 0 <= m2 /\ E + Z.pos p <= e2
    /\ m2 * 2 ^ (e2 - (E + Z.pos p))
       <= Z.pos M / 2 ^ Z.pos p
          + (if Z.odd (Z.pos M / 2 ^ (Z.pos p - 1)) then 1 else 0).
Proof.
  intros Hp. unfold binary_round_aux.
  unfold shr_fexp at 1. cbn [Zdigits2]. rewrite Hp. cbn [shr].
  set (mrs1 := SpecFloat.iter_pos shr_1 p (shr_record_of_loc (Z.pos M) loc_Exact)).
  assert (Hm1 : shr_m mrs1 = Z.pos M / 2 ^ Z.pos p).
  { unfold mrs1. rewrite shr_m_iter by (cbn; lia). reflexivity. }
  assert (Hr1 : shr_r mrs1 = Z.odd (Z.pos M / 2 ^ (Z.pos p - 1))).
  { unfold mrs1. rewrite shr_r_iter by (cbn; lia). reflexivity. }
  pose proof (round_nearest_even_le mrs1) as Hle.
  pose proof (round_nearest_even_ge (shr_m mrs1) (loc_of_shr_record mrs1))
    as Hge.
  set (m1 := round_nearest_even (shr_m mrs1) (loc_of_shr_record mrs1)) in *.
  rewrite Hm1, Hr1 in Hle. rewrite Hm1 in Hge.
  assert (0 <= Z.pos M / 2 ^ Z.pos p) by (apply Z.div_pos; lia).
  destruct (shr_fexp_le m1 (E + Z.pos p) ltac:(lia)) as (H0 & He & Hv).
  destruct (shr_fexp Number.prec Number.emax m1 (E + Z.pos p) loc_Exact)
    as [mrs2 e2]. cbn [fst snd] in *.
  exists (shr_m mrs2), e2. repeat split; try lia.
Qed.

(** [Math.floor] of a rounded product, from a bound on the shifted
    mantissa. *)
Lemma Math_floor_round_upper M E p n :
  fexp (Z.pos (digits2_pos M) + E) - E = Z.pos p ->
  E + Z.pos p <= 0 ->
  0 < n <= 9 ->
  Z.pos M / 2 ^ Z.pos p
  + (if Z.odd (Z.pos M / 2 ^ (Z.pos p - 1)) then 1 else 0)
  < n * 2 ^ (- (E + Z.pos p)) ->
  let x := binary_round_aux Number.prec Number.emax false (Z.pos M) E
             loc_Exact in
  Number.is_finite x = true /\ 0 <= Math_floor x < n.
Proof.
  intros Hp Hg Hn HQ x. subst x.
  destruct (binary_round_aux_upper false M E p Hp)
    as (m2 & e2 & -> & Hm2 & He2 & Hv).
  set (g := E + Z.pos p) in *.
  set (Q := Z.pos M / 2 ^ Z.pos p
            + (if Z.odd (Z.pos M / 2 ^ (Z.pos p - 1)) then 1 else 0)) in *.
  assert (Hpg : 0 < 2 ^ (- g)) by (apply Z.pow_pos_nonneg; lia).
  destruct m2 as [|m|m]; [cbn; lia| |lia].
  unfold Number.emax, Number.prec.
  destruct (Z.leb_spec e2 (1024 - 53)) as [Hle | Hgt].
  - split; [reflexivity|]. cbn [Math_floor cond_Zopp].
    destruct (Z.leb_spec 0 e2) as [H0 | H0].
    + assert (Hpe : 0 < 2 ^ e2) by (apply Z.pow_pos_nonneg; lia).
      replace (e2 - g) with (e2 + - g) in Hv by lia.
      rewrite Z.pow_add_r in Hv by lia.
      split; [lia|].
      apply (Z.mul_lt_mono_pos_r (2 ^ (- g))); [exact Hpg|]. lia.
    + assert (Hpe : 0 < 2 ^ (- e2)) by (apply Z.pow_pos_nonneg; lia).
      assert (Hpd : 0 < 2 ^ (e2 - g)) by (apply Z.pow_pos_nonneg; lia).
      replace (- g) with (- e2 + (e2 - g)) in HQ by lia.
      rewrite Z.pow_add_r in HQ by lia.
      split; [apply Z.div_pos; lia|].
      apply Z.div_lt_upper_bound; [exact Hpe|].
      apply (Z.mul_lt_mono_pos_r (2 ^ (e2 - g))); [exact Hpd|]. lia.
  - exfalso.
    assert (H1 : 2 ^ 972 * 2 ^ (- g) <= 2 ^ (e2 - g)).
    { rewrite <- Z.pow_add_r by lia. apply Z.pow_le_mono_r; lia. }
    assert (H2 : 2 ^ (e2 - g) <= Z.pos m * 2 ^ (e2 - g)).
    { assert (0 < 2 ^ (e2 - g)) by (apply Z.pow_pos_nonneg; lia). nia. }
    assert (H3 : n * 2 ^ (- g) <= 9 * 2 ^ (- g)) by nia.
    assert (H4 : 9 * 2 ^ (- g) < 2 ^ 972 * 2 ^ (- g)).
    { apply Z.mul_lt_mono_pos_r; [exact Hpg|]. reflexivity. }
    lia.
Qed.

(** The values [Math.random()] can return: zero, or a positive Number
    below one, of an exponent of at most -53. *)
Lemma unit_interval_inv x :
  unit_interval x = true ->
  x = S754_zero false
  \/ exists m e, x = S754_finite false m e
       /\ Z.pos m < 2 ^ 53 /\ -1074 <= e <= -53
       /\ (-1074 < e -> 2 ^ 52 <= Z.pos m).
Proof.
  unfold unit_interval. intros H. apply andb_prop in H as [Hv Hl].
  destruct x as [[]| | |[] m e]; try discriminate; [left; reflexivity|].
  right. exists m, e. split; [reflexivity|].
  destruct (valid_finite _ _ _ Hv) as (Hm & He & Hn).
  change (Number.of_Z 1) with (S754_finite false 4503599627370496 (-52))
    in Hl.
  unfold Number.ltb, SFltb in Hl. cbn [SFcompare] in Hl.
  destruct (Z.compare_spec e (-52)) as [-> | Hlt | Hgt]; try discriminate.
  - destruct (Pos.compare_cont Eq m 4503599627370496) eqn:Hc;
      try (exfalso; clear - Hl; discriminate Hl).
    rewrite Pos.compare_cont_spec in Hc.
    destruct (m ?= 4503599627370496)%positive eqn:Hc';
      try (exfalso; clear - Hc; discriminate Hc).
    apply Pos.compare_lt_iff, Pos2Z.pos_lt_pos in Hc'.
    assert (2 ^ 52 <= Z.pos m) by (apply Hn; lia). lia.
  - repeat split; try lia.
Qed.

Lemma pow2_lt_inv a b : 0 <= b -> 2 ^ a < 2 ^ b -> a < b.
Proof.
  intros Hb H. destruct (Z.ltb_spec a b) as [|Hge]; [assumption|].
  exfalso. assert (2 ^ b <= 2 ^ a) by (apply Z.pow_le_mono_r; lia). lia.
Qed.

(** [Math.random() * 9] is finite and its floor is one of 0, ..., 8, for
    every Number [Math.random()] can return: the product is rounded to
    the nearest Number, and the largest one, of the Number just below
    one, still is below nine. *)
Lemma random_times_nine (r : Random01) :
  let x := Number.mul r (Number.of_Z 9) in
  Number.is_finite x = true /\ 0 <= Math_floor x < 9.
Proof.
  destruct r as [x Hx]. cbn [random_value].
  destruct (unit_interval_inv x Hx)
    as [-> | (m & e & -> & Hm & He & Hn)].
  { split; [reflexivity|].
    replace (Math_floor _) with 0 by (vm_compute; reflexivity). lia. }
  destruct (Pos.eq_dec m 9007199254740991%positive) as [-> | Hne].
  { destruct (Z.eq_dec e (-53)) as [-> | He'].
    - split; [vm_compute; reflexivity|].
      replace (Math_floor _) with 8 by (vm_compute; reflexivity). lia.
    - assert (Hn' := Hn). clear Hx Hn.
      change (Number.of_Z 9) with (S754_finite false 5066549580791808 (-49)).
      unfold Number.mul. cbn [SFmul xorb].
      set (M := (9007199254740991 * 5066549580791808)%positive).
      assert (HM : Z.pos M = 9007199254740991 * 5066549580791808)
        by reflexivity.
      assert (Hd : Z.pos (digits2_pos M) = 106) by reflexivity.
      assert (Hk : exists p, fexp (106 + (e + -49)) - (e + -49) = Z.pos p
                 /\ 1 <= Z.pos p).
      { rewrite fexp_spec.
        destruct (Z.max (106 + (e + -49) - 53) (-1074) - (e + -49))
          as [|p|p] eqn:Hp; try lia. exists p. split; [reflexivity|lia]. }
      destruct Hk as (p & Hp & Hp1).
      apply (Math_floor_round_upper M (e + -49) p 9).
      + rewrite Hd. exact Hp.
      + rewrite fexp_spec in Hp. lia.
      + lia.
      + rewrite fexp_spec in Hp.
        set (g := e + -49 + Z.pos p) in *.
        set (t := 2 ^ (- 1 - g)).
        assert (Ht : 0 < t) by (apply Z.pow_pos_nonneg; lia).
        replace (- g) with (Z.succ (- 1 - g)) by lia.
        rewrite Z.pow_succ_r by lia. fold t.
        assert (HP : 0 < 2 ^ Z.pos p) by (apply Z.pow_pos_nonneg; lia).
        assert (H1 : 2 ^ 102 <= t * 2 ^ Z.pos p).
        { unfold t. rewrite <- Z.pow_add_r by lia.
          apply Z.pow_le_mono_r; lia. }
        assert (H2 : Z.pos M / 2 ^ Z.pos p * 2 ^ Z.pos p <= Z.pos M).
        { rewrite Z.mul_comm. apply Z.mul_div_le. exact HP. }
        assert (H3 : Z.pos M / 2 ^ Z.pos p < 9 * t).
        { apply (Z.mul_lt_mono_pos_r (2 ^ Z.pos p)); [exact HP|].
          rewrite HM in *. lia. }
        destruct (Z.odd _); lia. }
  assert (Hm' : Z.pos m <= 2 ^ 53 - 2).
  { assert (Z.pos m <> 9007199254740991) by congruence. lia. }
  clear Hx Hne.
  change (Number.of_Z 9) with (S754_finite false 5066549580791808 (-49)).
  unfold Number.mul. cbn [SFmul xorb].
  remember (m * 5066549580791808)%positive as M eqn:HMp.
  assert (HM : Z.pos M = Z.pos m * 5066549580791808)
    by (subst M; reflexivity).
  clear HMp. pose proof (digits2_pos_bounds M) as [Hlo Hhi].
  remember (Z.pos (digits2_pos M)) as d eqn:Hdd.
  assert (Hd1 : -1074 < e -> 105 <= d).
  { intros H. specialize (Hn H).
    assert (104 < d); [|lia]. apply pow2_lt_inv; lia. }
  assert (Hd2 : d <= 106).
  { assert (d - 1 < 106); [|lia]. apply pow2_lt_inv; lia. }
  destruct (Z.eq_dec e (-53)) as [-> | He'].
  - assert (Hd : d = 105 \/ d = 106) by lia.
    destruct Hd as [Hd | Hd].
    + apply (Math_floor_round_upper M (-53 + -49) 52 9).
      * rewrite <- Hdd, Hd. reflexivity.
      * lia.
      * lia.
      * rewrite Hd in Hhi.
        assert (Z.pos M / 2 ^ 52 < 2 ^ 53).
        { apply Z.div_lt_upper_bound; lia. }
        change (2 ^ (- (-53 + -49 + 52))) with (2 ^ 50).
        destruct (Z.odd _); lia.
    + apply (Math_floor_round_upper M (-53 + -49) 53 9).
      * rewrite <- Hdd, Hd. reflexivity.
      * lia.
      * lia.
      * assert (Z.pos M / 2 ^ 53 < 9 * 2 ^ 49 - 1).
        { apply Z.div_lt_upper_bound; lia. }
        change (2 ^ (- (-53 + -49 + 53))) with (2 ^ 49).
        destruct (Z.odd _); lia.
  - assert (Hk : exists p, fexp (d + (e + -49)) - (e + -49) = Z.pos p
               /\ 1 <= Z.pos p).
    { rewrite fexp_spec.
      destruct (Z.max (d + (e + -49) - 53) (-1074) - (e + -49))
        as [|p|p] eqn:Hp; try lia. exists p. split; [reflexivity|lia]. }
    destruct Hk as (p & Hp & Hp1).
    apply (Math_floor_round_upper M (e + -49) p 9).
    + rewrite <- Hdd. exact Hp.
    + rewrite fexp_spec in Hp. lia.
    + lia.
    + rewrite fexp_spec in Hp.
      set (g := e + -49 + Z.pos p) in *.
      set (t := 2 ^ (- 1 - g)).
      assert (Ht : 0 < t) by (apply Z.pow_pos_nonneg; lia).
      replace (- g) with (Z.succ (- 1 - g)) by lia.
      rewrite Z.pow_succ_r by lia. fold t.
      assert (HP : 0 < 2 ^ Z.pos p) by (apply Z.pow_pos_nonneg; lia).
      assert (H1 : 2 ^ 102 <= t * 2 ^ Z.pos p).
      { unfold t. rewrite <- Z.pow_add_r by lia.
        apply Z.pow_le_mono_r; lia. }
      assert (H2 : Z.pos M / 2 ^ Z.pos p * 2 ^ Z.pos p <= Z.pos M).
      { rewrite Z.mul_comm. apply Z.mul_div_le. exact HP. }
      assert (H3 : Z.pos M / 2 ^ Z.pos p < 9 * t).
      { apply (Z.mul_lt_mono_pos_r (2 ^ Z.pos p)); [exact HP|]. lia. }
      destruct (Z.odd _); lia.
Qed.

(** [Math.random() * 4] is exact, four being a power of two, or is
    rounded at the smallest exponent; its floor is one of 0, ..., 3. *)
Lemma random_times_four (r : Random01) :
  let x := Number.mul r (Number.of_Z 4) in
  Number.is_finite x = true /\ 0 <= Math_floor x < 4.
Proof.
  destruct r as [x Hx]. cbn [random_value].
  destruct (unit_interval_inv x Hx)
    as [-> | (m & e & -> & Hm & He & Hn)].
  { split; [reflexivity|].
    replace (Math_floor _) with 0 by (vm_compute; reflexivity). lia. }
  clear Hx.
  change (Number.of_Z 4) with (S754_finite false 4503599627370496 (-50)).
  unfold Number.mul. cbn [SFmul xorb].
  remember (m * 4503599627370496)%positive as M eqn:HMp.
  assert (HM : Z.pos M = Z.pos m * 2 ^ 52) by (subst M; reflexivity).
  clear HMp. pose proof (digits2_pos_bounds M) as [Hlo Hhi].
  remember (Z.pos (digits2_pos M)) as d eqn:Hdd.
  assert (Hd1 : -1074 < e -> 105 <= d).
  { intros H. specialize (Hn H).
    assert (104 < d); [|lia]. apply pow2_lt_inv; lia. }
  assert (Hd2 : d <= 105).
  { assert (d - 1 < 105); [|lia]. apply pow2_lt_inv; lia. }
  assert (Hk : exists p, fexp (d + (e + -50)) - (e + -50) = Z.pos p
             /\ 1 <= Z.pos p <= 52).
  { rewrite fexp_spec.
    destruct (Z.max (d + (e + -50) - 53) (-1074) - (e + -50))
      as [|p|p] eqn:Hp; try lia. exists p. split; [reflexivity|lia]. }
  destruct Hk as (p & Hp & Hp1).
  assert (HP : 0 < 2 ^ Z.pos p) by (apply Z.pow_pos_nonneg; lia).
  assert (Hq : Z.pos M / 2 ^ Z.pos p = Z.pos m * 2 ^ (52 - Z.pos p)).
  { rewrite HM. replace 52 with (52 - Z.pos p + Z.pos p) at 1 by lia.
    rewrite Z.pow_add_r, Z.mul_assoc by lia. apply Z.div_mul. lia. }
  assert (Hu : Z.odd (Z.pos M / 2 ^ (Z.pos p - 1)) = false).
  { rewrite HM. replace 52 with (Z.succ (52 - Z.pos p) + (Z.pos p - 1)) at 1
      by lia.
    rewrite Z.pow_add_r, Z.mul_assoc by lia.
    rewrite Z.div_mul by (apply Z.pow_nonzero; lia).
    rewrite Z.pow_succ_r by lia.
    rewrite Z.mul_assoc, (Z.mul_comm (Z.pos m) 2), <- Z.mul_assoc.
    rewrite Z.odd_mul. reflexivity. }
  apply (Math_floor_round_upper M (e + -50) p 4).
  - rewrite <- Hdd. exact Hp.
  - rewrite fexp_spec in Hp. lia.
  - lia.
  - rewrite Hu, Hq, Z.add_0_r. rewrite fexp_spec in Hp.
    assert (H1 : 2 ^ 53 * 2 ^ (52 - Z.pos p)
                 <= 4 * 2 ^ (- (e + -50 + Z.pos p))).
    { change 4 with (2 ^ 2). rewrite <- !Z.pow_add_r by lia.
      apply Z.pow_le_mono_r; lia. }
    assert (H2 : 0 < 2 ^ (52 - Z.pos p)) by (apply Z.pow_pos_nonneg; lia).
    assert (H3 : Z.pos m * 2 ^ (52 - Z.pos p)
                 < 2 ^ 53 * 2 ^ (52 - Z.pos p)).
    { apply Z.mul_lt_mono_pos_r; assumption. }
    lia.
Qed.

(** Hence both products the generator floors are finite, and the
    integers it draws are in range. *)
Lemma random_operand_range (r : Random01) :
  1 <= Math_floor (Number.mul r (Number.of_Z 9)) + 1 <= 9.
Proof. pose proof (random_times_nine r) as [_ H]. lia. Qed.

Lemma random_index_range (r : Random01) :
  0 <= Math_floor (Number.mul r
         (Number.of_Z (Z.of_nat (length operations)))) < 4.
Proof. exact (proj2 (random_times_four r)). Qed.

(** The product is the rounded one: 0.8888888888888888 times 9 is 8 as
    a Number, although the exact product is below 8, and the operand
    drawn is 9. *)
Lemma random_product_rounded :
  let r := S754_finite false 8006399337547548 (-53) in
  unit_interval r = true
  /\ Number.mul r (Number.of_Z 9) = Number.of_Z 8
  /\ Math_floor (Number.mul r (Number.of_Z 9)) + 1 = 9
  /\ 8006399337547548 * 9 < 8 * 2 ^ 53.
Proof. vm_compute. repeat split. Qed.

End RandomFacts.

(** ** The problem generator *)

Section Generator.

Import MathProblem ProblemGenerator.

Lemma sample_range random i :
  exists a b op, sample random i = (a, b, Some op)
                 /\ 1 <= a <= 9 /\ 1 <= b <= 9.
Proof.
  unfold sample.
  pose proof (random_operand_range (random i)) as Ha.
  pose proof (random_operand_range (random (i + 1)%nat)) as Hb.
  pose proof (proj2 (random_times_four (random (i + 2)%nat))) as Hc.
  set (k := Math_floor (Number.mul (random (i + 2)%nat) (Number.of_Z 4)))
    in *.
  assert (Hk : k = 0 \/ k = 1 \/ k = 2 \/ k = 3) by lia.
  destruct Hk as [-> | [-> | [-> | ->]]];
    eexists _, _, _; (split; [reflexivity | lia]).
Qed.

Lemma generate_loop_step fuel random drawn :
  generate_loop (S fuel) random drawn =
    match sample random drawn with
    | (a, b, Some op) =>
        if rejected a b op
        then generate_loop fuel random (drawn + 3)
        else Some (Normal (build a b op, (drawn + 3)%nat))
    | (_, _, None) => Some (Throw TypeError)
    end.
Proof.
  unfold sample, rejected, build; simpl.
  change (Z.of_nat (length operations)) with 4.
  destruct (array_get operations _) as [op|]; [|reflexivity].
  destruct (bool_decide (op = DIVISION) && _); [reflexivity|].
  destruct (bool_decide (op = SUBTRACTION) && _); reflexivity.
Qed.

(** What a returned problem looks like. *)
Lemma generate_inv fuel random drawn p drawn' :
  generate fuel random drawn = Some (Normal (p, drawn')) ->
  exists a b op,
    p = build a b op /\ rejected a b op = false
    /\ 1 <= a <= 9 /\ 1 <= b <= 9.
Proof.
  unfold generate. revert drawn.
  induction fuel as [|fuel IH]; intros drawn H; [discriminate|].
  rewrite generate_loop_step in H.
  destruct (sample_range random drawn) as (a & b & op & Hs & Ha & Hb).
  rewrite Hs in H.
  destruct (rejected a b op) eqn:Hr.
  - eapply IH, H.
  - injection H as <- <-. eauto 10.
Qed.

(** The generator never throws: the sampled index is always in range. *)
Lemma generate_no_throw fuel random drawn e :
  generate fuel random drawn <> Some (Throw e).
Proof.
  unfold generate. revert drawn.
  induction fuel as [|fuel IH]; intros drawn H; [discriminate|].
  rewrite generate_loop_step in H.
  destruct (sample_range random drawn) as (a & b & op & Hs & _).
  rewrite Hs in H.
  destruct (rejected a b op); [eapply IH, H | discriminate].
Qed.

Lemma rejected_false a b op :
  1 <= b ->
  rejected a b op = false <-> (op <> DIVISION \/ (b | a)).
Proof.
  intros Hb. unfold rejected.
  rewrite <- (Z.rem_divide a b) by lia.
  destruct op; cbn; try (split; [left; discriminate | reflexivity]).
  replace (b =? 0) with false by lia. cbn.
  destruct (Z.eqb_spec (Z.rem a b) 0) as [Hr | Hr]; cbn.
  - split; auto.
  - split; [discriminate | intros [H | H]; congruence].
Qed.

(** C2: every problem the generator returns has both operands in 1..9;
    if its operation is Division, operand2 is not 0 and
    [operand1 % operand2] is 0; if it is Subtraction,
    operand1 >= operand2. *)
Theorem generate_constraints fuel random drawn p drawn' :
  generate fuel random drawn = Some (Normal (p, drawn')) ->
  1 <= operand1 p <= 9 /\ 1 <= operand2 p <= 9
  /\ (operation p = DIVISION ->
      operand2 p <> 0 /\ Z.rem (operand1 p) (operand2 p) = 0)
  /\ (operation p = SUBTRACTION -> operand1 p >= operand2 p).
Proof.
  intros H.
  apply generate_inv in H as (a & b & op & -> & Hr & Ha & Hb).
  assert (Hdiv : op = DIVISION -> Z.rem a b = 0).
  { intros ->. unfold rejected in Hr.
    rewrite bool_decide_eq_true_2 in Hr by reflexivity.
    replace (b =? 0) with false in Hr by lia. cbn in Hr.
    apply negb_false_iff, Z.eqb_eq in Hr. exact Hr. }
  unfold build.
  destruct (bool_decide_reflect (op = SUBTRACTION)) as [-> | Hsub];
    [destruct (Z.ltb_spec a b)|]; cbn;
    repeat split; try lia; try discriminate; try congruence.
  all: auto.
Qed.

(** C9: when the random source yields, at some attempt [k], a sample
    that satisfies the constraints, the loop breaks after at most [k+1]
    attempts: from some number of attempts [n+1 <= k+1] on, every
    amount of fuel returns the same problem, with [3(n+1)] values
    drawn. *)
Theorem generate_terminates random drawn k :
  satisfies_constraints random (drawn + 3 * k) ->
  exists n p,
    (n <= k)%nat /\
    forall fuel, (n < fuel)%nat ->
      generate fuel random drawn
      = Some (Normal (p, (drawn + 3 * S n)%nat)).
Proof.
  unfold generate, satisfies_constraints. revert drawn.
  induction k as [|k IH]; intros drawn Hk.
  - destruct (sample_range random drawn) as (a & b & op & Hs & Ha & Hb).
    replace (drawn + 3 * 0)%nat with drawn in Hk by lia.
    rewrite Hs in Hk. destruct Hk as (o & [= <-] & Ho).
    apply rejected_false in Ho; [|lia].
    exists O, (build a b op). split; [lia|].
    intros [|fuel] Hf; [lia|].
    rewrite generate_loop_step, Hs, Ho. do 3 (try f_equal); try lia.
  - destruct (sample_range random drawn) as (a & b & op & Hs & Ha & Hb).
    destruct (rejected a b op) eqn:Hr.
    + destruct (IH (drawn + 3)%nat) as (n & p & Hn & Hgen).
      { replace (drawn + 3 + 3 * k)%nat with (drawn + 3 * S k)%nat by lia.
        exact Hk. }
      exists (S n), p. split; [lia|].
      intros [|fuel] Hf; [lia|].
      rewrite generate_loop_step, Hs, Hr, Hgen by lia.
      do 3 (try f_equal); try lia.
    + exists O, (build a b op). split; [lia|].
      intros [|fuel] Hf; [lia|].
      rewrite generate_loop_step, Hs, Hr. do 3 (try f_equal); try lia.
Qed.

(** Without such a sample the loop never ends: the retries have no
    upper bound. *)
Lemma generate_diverges random drawn :
  (forall k, ~ satisfies_constraints random (drawn + 3 * k)) ->
  forall fuel, generate fuel random drawn = None.
Proof.
  unfold generate, satisfies_constraints. intros Hnever fuel. revert drawn Hnever.
  induction fuel as [|fuel IH]; intros drawn Hnever; [reflexivity|].
  rewrite generate_loop_step.
  destruct (sample_range random drawn) as (a & b & op & Hs & Ha & Hb).
  rewrite Hs. destruct (rejected a b op) eqn:Hr.
  - apply IH. intros k.
    replace (drawn + 3 + 3 * k)%nat with (drawn + 3 * S k)%nat by lia.
    apply Hnever.
  - exfalso. apply (Hnever O).
    replace (drawn + 3 * 0)%nat with drawn by lia. rewrite Hs.
    exists op. split; [reflexivity|]. apply rejected_false; [lia | exact Hr].
Qed.

Lemma all_samples_round_trip :
  forallb (fun '(a, b, op) =>
             rejected a b op || round_trip (build a b op)) all_samples
  = true.
Proof. vm_compute. reflexivity. Qed.

Lemma elem_of_all_samples a b op :
  1 <= a <= 9 -> 1 <= b <= 9 -> (a, b, op) ∈ all_samples.
Proof.
  intros Ha Hb. unfold all_samples.
  apply list_elem_of_bind. exists a. split; [|apply elem_of_seqZ; lia].
  apply list_elem_of_bind. exists b. split; [|apply elem_of_seqZ; lia].
  apply list_elem_of_bind. exists op. split; [apply list_elem_of_singleton; reflexivity|].
  destruct op; unfold operations; repeat constructor.
Qed.

(** C8: for every problem the generator returns, the answer printed as
    a decimal string is accepted by [isCorrect]. *)
Theorem generate_round_trip fuel random drawn p drawn' :
  generate fuel random drawn = Some (Normal (p, drawn')) ->
  isCorrect p (Print.Number_toString (answer p)) = true.
Proof.
  intros H.
  apply generate_inv in H as (a & b & op & -> & Hr & Ha & Hb).
  pose proof all_samples_round_trip as Hall.
  rewrite forallb_forall in Hall.
  specialize (Hall (a, b, op)). cbn beta iota in Hall.
  rewrite Hr in Hall. apply Hall.
  apply list_elem_of_In, elem_of_all_samples; assumption.
Qed.

Lemma generate_constraints_witness :
  let p := MathProblem.new 9 1 SUBTRACTION in
  generate 2 (source_of [8; 4; 12; 15; 0; 4]) 0 = Some (Normal (p, 6%nat))
  /\ 1 <= operand1 p <= 9 /\ 1 <= operand2 p <= 9
  /\ (operation p = DIVISION ->
      operand2 p <> 0 /\ Z.rem (operand1 p) (operand2 p) = 0)
  /\ (operation p = SUBTRACTION -> operand1 p >= operand2 p).
Proof.
  split; [vm_compute; reflexivity|].
  apply (generate_constraints 2 (source_of [8; 4; 12; 15; 0; 4]) 0 _ 6%nat).
  vm_compute. reflexivity.
Defined.

Lemma generate_terminates_witness :
  exists n p,
    (n <= 1)%nat /\
    forall fuel, (n < fuel)%nat ->
      generate fuel (source_of [8; 4; 12; 15; 0; 4]) 0
      = Some (Normal (p, (0 + 3 * S n)%nat)).
Proof.
  apply (generate_terminates (source_of [8; 4; 12; 15; 0; 4]) 0 1).
  exists SUBTRACTION. split; [vm_compute; reflexivity|].
  left. discriminate.
Defined.

Lemma generate_round_trip_witness :
  isCorrect (MathProblem.new 9 1 SUBTRACTION) (js "8") = true.
Proof.
  apply (generate_round_trip 2 (source_of [8; 4; 12; 15; 0; 4]) 0
           (MathProblem.new 9 1 SUBTRACTION) 6%nat).
  vm_compute. reflexivity.
Defined.

End Generator.

(** ** parseFloat and the correctness check *)

Section ParseFacts.

Import Parse.

Local Abbreviation no_digit := (Forall (fun c => is_digit c = false)).

Lemma scan_digits_no_digit s : no_digit s -> scan_digits s = ([], s).
Proof. intros [|c s' Hc _]; [reflexivity|]. cbn. rewrite Hc. reflexivity. Qed.

Lemma scan_sign_no_digit s : no_digit s -> no_digit (snd (scan_sign s)).
Proof.
  intros [|c s' Hc Hs]; [constructor|]. cbn.
  repeat case_bool_decide; cbn; auto.
Qed.

Lemma scan_exponent_no_digit s : no_digit s -> fst (scan_exponent s) = 0.
Proof.
  intros [|c s' Hc Hs]; [reflexivity|]. cbn.
  destruct (_ || _); [|reflexivity].
  pose proof (scan_sign_no_digit s' Hs) as Hsign.
  destruct (scan_sign s') as [neg s1]. cbn in Hsign.
  rewrite (scan_digits_no_digit _ Hsign). reflexivity.
Qed.

Lemma inert_no_digit s : no_digit s -> inert s.
Proof.
  intros Hs. split.
  - apply scan_digits_no_digit, Hs.
  - apply scan_exponent_no_digit, Hs.
  - destruct Hs as [|c s' Hc Hs]; [discriminate|]. cbn.
    case_bool_decide; [|discriminate].
    rewrite (scan_digits_no_digit _ Hs). intros fd r [= <- <-].
    split; [reflexivity | apply scan_exponent_no_digit, Hs].
  - rewrite scan_digits_no_digit by apply scan_sign_no_digit, Hs.
    reflexivity.
Qed.

Lemma inert_stop c s : continues_number c = false -> inert (c :: s).
Proof.
  unfold continues_number. intros Hc.
  apply orb_false_elim in Hc as [Hd Hc].
  apply bool_decide_eq_false in Hc.
  rewrite !not_elem_of_cons in Hc.
  destruct Hc as (H46 & H101 & H69 & H43 & H45 & _).
  split; cbn.
  - rewrite Hd. reflexivity.
  - rewrite !bool_decide_eq_false_2 by assumption. reflexivity.
  - rewrite !bool_decide_eq_false_2 by assumption. discriminate.
  - rewrite !bool_decide_eq_false_2 by assumption. cbn.
    rewrite Hd. reflexivity.
Qed.

Lemma inert_non_numeric s : non_numeric s -> inert s.
Proof.
  intros [H | (c & rest & -> & H)];
    [apply inert_no_digit | apply inert_stop]; assumption.
Qed.

Lemma scan_digits_app x s ds r :
  scan_digits x = (ds, r) -> inert s ->
  scan_digits (x ++ s) = (ds, r ++ s).
Proof.
  intros Hx Hs. revert ds r Hx.
  induction x as [|c x IH]; intros ds r Hx; cbn in *.
  - injection Hx as <- <-. apply Hs.
  - destruct (is_digit c).
    + destruct (scan_digits x) as [ds' r'].
      injection Hx as <- <-. rewrite (IH ds' r' eq_refl). reflexivity.
    + injection Hx as <- <-. reflexivity.
Qed.

Lemma scan_sign_app c x s :
  scan_sign ((c :: x) ++ s)
  = (fst (scan_sign (c :: x)), snd (scan_sign (c :: x)) ++ s).
Proof. cbn. repeat case_bool_decide; reflexivity. Qed.

Lemma scan_exponent_app x s :
  inert s -> fst (scan_exponent (x ++ s)) = fst (scan_exponent x).
Proof.
  intros Hs. destruct x as [|c x]; [apply Hs|]. cbn.
  destruct (_ || _); [|reflexivity].
  destruct x as [|c' x].
  - cbn. pose proof (inert_sign _ Hs) as Hsign.
    destruct (scan_sign s) as [neg s1]. cbn in Hsign.
    destruct (scan_digits s1) as [ds r]. cbn in Hsign. subst ds.
    reflexivity.
  - change (c' :: x ++ s) with ((c' :: x) ++ s).
    rewrite scan_sign_app.
    destruct (scan_sign (c' :: x)) as [neg x1]. cbn [fst snd].
    destruct (scan_digits x1) as [ds r] eqn:Hx1.
    rewrite (scan_digits_app _ _ _ _ Hx1 Hs).
    destruct ds; reflexivity.
Qed.

Lemma strip_prefix_app p x s r :
  strip_prefix p x = Some r -> strip_prefix p (x ++ s) = Some (r ++ s).
Proof.
  revert x. induction p as [|a p IH]; intros x H; cbn in *.
  - injection H as <-. reflexivity.
  - destruct x as [|b x]; [discriminate|]. cbn.
    destruct (bool_decide (a = b)); [apply IH, H | discriminate].
Qed.

Lemma strip_prefix_app_None p x s :
  strip_prefix p x = None ->
  strip_prefix p (x ++ s) = None
  \/ x = [] \/ exists c x' p', x = c :: x' /\ p = c :: p'.
Proof.
  destruct p as [|a p]; [discriminate|].
  destruct x as [|b x]; [auto|]. cbn.
  case_bool_decide as Hab; [subst b; eauto 10|auto].
Qed.

(** A suffix that is [inert] does not change the literal scanned at
    the head of a string. *)
Lemma scan_unsigned_app x s l r :
  scan_unsigned x = Some (l, r) -> inert s ->
  exists r', scan_unsigned (x ++ s) = Some (l, r').
Proof.
  intros H Hs. unfold scan_unsigned in *.
  destruct (strip_prefix (js "Infinity") x) as [r0|] eqn:HI.
  { injection H as <- <-. rewrite (strip_prefix_app _ _ s _ HI). eauto. }
  destruct (strip_prefix_app_None _ _ s HI)
    as [-> | [-> | (c & x' & p' & -> & [= <- _])]];
    [| discriminate | discriminate].
  destruct (scan_digits x) as [int_digits s1] eqn:Hd.
  rewrite (scan_digits_app _ _ _ _ Hd Hs).
  destruct s1 as [|c s1].
  - cbn [scan_fraction app] in *.
    destruct int_digits as [|d ds]; [discriminate|].
    cbn in H. injection H as <- <-.
    destruct (scan_fraction s) as [[fd r2]|] eqn:Hf.
    + destruct (inert_fraction _ Hs _ _ Hf) as [-> He].
      destruct (scan_exponent r2) as [e r']. cbn in He. subst e. eauto.
    + pose proof (inert_exponent _ Hs) as He.
      destruct (scan_exponent s) as [e r']. cbn in He. subst e. eauto.
  - cbn [scan_fraction app] in *.
    destruct (bool_decide (c = 46%N)).
    + destruct (scan_digits s1) as [fd s2] eqn:Hfd.
      rewrite (scan_digits_app _ _ _ _ Hfd Hs).
      pose proof (scan_exponent_app s2 s Hs) as He.
      destruct (scan_exponent s2) as [e r2].
      destruct (scan_exponent (s2 ++ s)) as [e' r2']. cbn in He. subst e'.
      destruct int_digits, fd; try discriminate;
        injection H as <- <-; eauto.
    + change (c :: s1 ++ s) with ((c :: s1) ++ s).
      pose proof (scan_exponent_app (c :: s1) s Hs) as He.
      destruct (scan_exponent (c :: s1)) as [e r2].
      destruct (scan_exponent ((c :: s1) ++ s)) as [e' r2'].
      cbn in He. subst e'.
      destruct int_digits; try discriminate; injection H as <- <-; eauto.
Qed.

Lemma scan_literal_app x s neg l r :
  scan_literal x = Some (neg, l, r) -> inert s ->
  exists r', scan_literal (x ++ s) = Some (neg, l, r').
Proof.
  intros H Hs. unfold scan_literal in *.
  destruct x as [|c x]; [discriminate|].
  rewrite scan_sign_app.
  destruct (scan_sign (c :: x)) as [neg' x1]. cbn [fst snd].
  destruct (scan_unsigned x1) as [[l' r1]|] eqn:Hu; [|discriminate].
  injection H as <- <- <-.
  destruct (scan_unsigned_app _ _ _ _ Hu Hs) as [r' ->]. eauto.
Qed.

Lemma skip_whitespace_app x s :
  skip_whitespace x <> [] ->
  skip_whitespace (x ++ s) = skip_whitespace x ++ s.
Proof.
  induction x as [|c x IH]; cbn; [congruence|].
  destruct (is_whitespace c); [exact IH | reflexivity].
Qed.

(** [parseFloat] reads the longest numeric prefix: what follows a
    prefix that parses, and cannot continue its literal, is ignored. *)
Lemma parseFloat_app x s :
  inert s -> parseFloat (x ++ s) = parseFloat x \/ parseFloat x = Number.NaN.
Proof.
  intros Hs. unfold parseFloat.
  destruct (scan_literal (skip_whitespace x)) as [[[neg l] r]|] eqn:Hx;
    [left | right; reflexivity].
  rewrite skip_whitespace_app by (intros E; rewrite E in Hx; discriminate).
  destruct (scan_literal_app _ _ _ _ _ Hx Hs) as [r' ->]. reflexivity.
Qed.

End ParseFacts.

Section Correctness.

Import MathProblem.

Lemma isCorrect_NaN p rawInput :
  parseFloat rawInput = Number.NaN -> isCorrect p rawInput = false.
Proof. unfold isCorrect. intros ->. destruct (answer p); reflexivity. Qed.

(** C6: [isCorrect] is a total function to [bool], so it never
    throws. It returns false when [rawInput] does not parse (the parsed
    value is NaN). It returns true exactly when the absolute difference
    between the parsed value and the answer, computed on Numbers as the
    source does, is less than 0.01; the parsed value is then a finite
    Number. [isCorrect(problem, "not a number")] is false. *)
Theorem isCorrect_spec p rawInput :
  (Number.is_nan (parseFloat rawInput) = true ->
   isCorrect p rawInput = false)
  /\ (isCorrect p rawInput = true <->
      Number.is_finite (parseFloat rawInput) = true
      /\ Number.ltb
           (Number.abs (Number.sub (parseFloat rawInput) (answer p)))
           (Number.of_decimal false 1 (-2)) = true)
  /\ isCorrect p (js "not a number") = false.
Proof.
  split; [|split].
  - destruct (parseFloat rawInput) eqn:E; try discriminate.
    intros _. apply isCorrect_NaN, E.
  - unfold isCorrect. split; [|intros [_ H]; exact H].
    intros H. split; [|exact H].
    change (Number.of_decimal false 1 (-2))
      with (S754_finite false 5764607523034235 (-59)) in H.
    destruct (parseFloat rawInput) as [sz | si | | sf m e];
      try reflexivity; exfalso.
    + destruct (answer p) as [? | [] | | ? ? ?]; destruct si;
        discriminate H.
    + destruct (answer p); discriminate H.
  - apply isCorrect_NaN. vm_compute. reflexivity.
Qed.

Lemma isCorrect_spec_witness :
  isCorrect (MathProblem.new 3 4 ADDITION) (js "seven") = false.
Proof.
  apply (proj1 (isCorrect_spec (MathProblem.new 3 4 ADDITION) (js "seven"))).
  vm_compute. reflexivity.
Defined.

(** C10: [isCorrect] does not need the whole input to be numeric: when
    a prefix is accepted, so is the prefix followed by non-numeric
    characters (none of them a digit, or the first of them not one of
    the characters of a decimal literal); so ["7abc"] is accepted when
    the answer is 7. *)
Theorem isCorrect_numeric_prefix p prefix suffix :
  non_numeric suffix ->
  isCorrect p prefix = true ->
  isCorrect p (prefix ++ suffix) = true.
Proof.
  intros Hs Hp.
  destruct (parseFloat_app prefix suffix (inert_non_numeric _ Hs))
    as [E | E].
  - unfold isCorrect in *. rewrite E. exact Hp.
  - rewrite (isCorrect_NaN _ _ E) in Hp. discriminate.
Qed.

Lemma isCorrect_numeric_prefix_witness :
  isCorrect (MathProblem.new 3 4 ADDITION) (js "7" ++ js "abc") = true.
Proof.
  apply isCorrect_numeric_prefix.
  - right. exists 97%N, (js "bc"). split; reflexivity.
  - vm_compute. reflexivity.
Defined.

End Correctness.


(** ** Sorting *)

Section SortFacts.
Context {A : Type} (key : A -> Z).

Local Abbreviation descending := (fun a b : A => key b <= key a).

Lemma insert_by_key_perm x s : insert_by_key key x s ≡ₚ x :: s.
Proof.
  induction s as [|y s IH]; cbn; [reflexivity|].
  destruct (key y <? key x); [reflexivity|].
  rewrite IH. apply Permutation_swap.
Qed.

Lemma insert_by_key_sorted x s :
  StronglySorted descending s ->
  StronglySorted descending (insert_by_key key x s).
Proof.
  induction 1 as [|y s Hs IH Hy]; cbn.
  - repeat constructor.
  - destruct (Z.ltb_spec (key y) (key x)) as [Hlt | Hge].
    + constructor; [constructor; assumption|].
      constructor; [lia|].
      eapply Forall_impl; [exact Hy|]. cbn. intros z Hz. lia.
    + constructor; [exact IH|].
      rewrite insert_by_key_perm. constructor; assumption.
Qed.

Lemma filter_key_none k l :
  Forall (fun a => key a <> k) l -> filter (fun a => key a = k) l = [].
Proof.
  induction 1 as [|x l Hx _ IH]; [reflexivity|].
  rewrite filter_cons_False by exact Hx. exact IH.
Qed.

(** Among the elements of one key, the new element comes last. *)
Lemma insert_by_key_filter k x s :
  StronglySorted descending s ->
  filter (fun a => key a = k) (insert_by_key key x s)
  = filter (fun a => key a = k) s ++ filter (fun a => key a = k) [x].
Proof.
  induction 1 as [|y s Hs IH Hy]; cbn [insert_by_key]; [reflexivity|].
  destruct (Z.ltb_spec (key y) (key x)) as [Hlt | Hge].
  - rewrite (filter_cons _ x), (filter_cons _ x []), filter_nil.
    case_decide as Hk; [|rewrite app_nil_r; reflexivity].
    rewrite (filter_key_none k (y :: s)); [reflexivity|].
    constructor; [lia|].
    eapply Forall_impl; [exact Hy|]. cbn. intros z Hz. lia.
  - rewrite !(filter_cons _ y), IH.
    case_decide; reflexivity.
Qed.

Lemma foldl_insert_perm acc l :
  foldl (fun s x => insert_by_key key x s) acc l ≡ₚ acc ++ l.
Proof.
  revert acc. induction l as [|x l IH]; intros acc; cbn.
  - rewrite app_nil_r. reflexivity.
  - rewrite IH, insert_by_key_perm.
    rewrite (Permutation_middle acc l x). reflexivity.
Qed.

Lemma foldl_insert_sorted acc l :
  StronglySorted descending acc ->
  StronglySorted descending
    (foldl (fun s x => insert_by_key key x s) acc l).
Proof.
  revert acc. induction l as [|x l IH]; intros acc Hacc; cbn;
    [exact Hacc|].
  apply IH, insert_by_key_sorted, Hacc.
Qed.

Lemma foldl_insert_filter k acc l :
  StronglySorted descending acc ->
  filter (fun a => key a = k)
    (foldl (fun s x => insert_by_key key x s) acc l)
  = filter (fun a => key a = k) acc ++ filter (fun a => key a = k) l.
Proof.
  revert acc. induction l as [|x l IH]; intros acc Hacc; cbn [foldl].
  - rewrite filter_nil, app_nil_r. reflexivity.
  - rewrite IH by (apply insert_by_key_sorted, Hacc).
    rewrite insert_by_key_filter by exact Hacc.
    rewrite <- app_assoc. f_equal.
    change (x :: l) with ([x] ++ l). rewrite filter_app. reflexivity.
Qed.

(** The sort returns a permutation of its input, in descending order
    of the key, with the elements of equal key in their input order. *)
Lemma sort_by_key_spec l :
  sort_by_key key l ≡ₚ l
  /\ StronglySorted descending (sort_by_key key l)
  /\ forall k,
      filter (fun a => key a = k) (sort_by_key key l)
      = filter (fun a => key a = k) l.
Proof.
  unfold sort_by_key. split; [|split].
  - apply (foldl_insert_perm [] l).
  - apply foldl_insert_sorted. constructor.
  - intros k. apply (foldl_insert_filter k [] l). constructor.
Qed.

End SortFacts.

(** ** JSON.parse never runs out of fuel *)

Section ParseFuel.

Import JSON.

Lemma skip_whitespace_length s :
  (length (skip_whitespace s) <= length s)%nat.
Proof.
  induction s as [|c s IH]; cbn; [lia|].
  destruct (is_whitespace c); cbn; lia.
Qed.

Lemma scan_digits_length s :
  length s = (length (Parse.scan_digits s).1 + length (Parse.scan_digits s).2)%nat.
Proof.
  induction s as [|c s IH]; cbn; [reflexivity|].
  destruct (Parse.is_digit c); [|reflexivity].
  destruct (Parse.scan_digits s) as [ds r]. cbn in *. lia.
Qed.

Lemma scan_sign_length s :
  (length (Parse.scan_sign s).2 <= length s)%nat.
Proof.
  destruct s as [|c s]; cbn; [lia|].
  repeat case_bool_decide; cbn; lia.
Qed.

Lemma strip_prefix_length p s r :
  Parse.strip_prefix p s = Some r -> length s = (length p + length r)%nat.
Proof.
  revert s. induction p as [|a p IH]; intros s H; cbn in *.
  - injection H as <-. reflexivity.
  - destruct s as [|b s]; [discriminate|].
    destruct (bool_decide (a = b)); [|discriminate].
    cbn. rewrite (IH s H). reflexivity.
Qed.

Lemma parse_string_length s cs r :
  parse_string s = Some (cs, r) -> (length r < length s)%nat.
Proof.
  remember (length s) as n eqn:Hn.
  assert (Hle : (length s <= n)%nat) by lia. clear Hn.
  revert s cs r Hle.
  induction n as [|n IH]; intros s cs r Hle H.
  - destruct s; [discriminate | cbn in Hle; lia].
  - destruct s as [|c s]; [discriminate|]. cbn in Hle. cbn [parse_string] in H.
    destruct (bool_decide (c = 34%N)).
    { injection H as <- <-. cbn. lia. }
    destruct (bool_decide (c = 92%N)).
    + destruct s as [|e s1]; [discriminate|].
      destruct (bool_decide (e = 117%N)).
      * destruct s1 as [|h1 [|h2 [|h3 [|h4 s2]]]]; try discriminate.
        destruct (hex_value h1), (hex_value h2), (hex_value h3),
          (hex_value h4); try discriminate.
        destruct (parse_string s2) as [[cs' r']|] eqn:Hs2; [|discriminate].
        injection H as <- <-.
        apply IH in Hs2; cbn in *; lia.
      * destruct (escape e); [|discriminate].
        destruct (parse_string s1) as [[cs' r']|] eqn:Hs1; [|discriminate].
        injection H as <- <-.
        apply IH in Hs1; cbn in *; lia.
    + destruct (c <? 32)%N; [discriminate|].
      destruct (parse_string s) as [[cs' r']|] eqn:Hs; [|discriminate].
      injection H as <- <-.
      apply IH in Hs; cbn in *; lia.
Qed.

Lemma parse_number_length s x r :
  parse_number s = Some (x, r) -> (length r < length s)%nat.
Proof.
  unfold parse_number. intros H.
  set (signed := match s with
                 | [] => (false, [])
                 | c :: s' =>
                     if bool_decide (c = 45%N) then (true, s') else (false, s)
                 end) in H.
  assert (Hs1 : (length signed.2 <= length s)%nat).
  { subst signed. destruct s as [|c s']; cbn; [lia|].
    destruct (bool_decide (c = 45%N)); cbn; lia. }
  destruct signed as [neg s1]. cbn [snd] in Hs1.
  pose proof (scan_digits_length s1) as Hd.
  destruct (Parse.scan_digits s1) as [int_digits s2]. cbn [fst snd] in Hd.
  destruct int_digits as [|d ds]; [discriminate|].
  destruct (bool_decide (d = 0%N) && negb (bool_decide (ds = [])));
    [discriminate|].
  cbn [length] in Hd.
  assert (Hfrac : forall fd s3,
    match Parse.scan_fraction s2 with
    | Some ([], _) => None
    | Some (frac_digits, s3) => Some (frac_digits, s3)
    | None => Some ([], s2)
    end = Some (fd, s3) -> (length s3 <= length s2)%nat).
  { intros fd s3. unfold Parse.scan_fraction.
    destruct s2 as [|c s2']; [intros [= <- <-]; lia|].
    destruct (bool_decide (c = 46%N)); [|intros [= <- <-]; lia].
    pose proof (scan_digits_length s2') as Hd'.
    destruct (Parse.scan_digits s2') as [[|f fs] r']; [discriminate|].
    intros [= <- <-]. cbn in *. lia. }
  destruct (match Parse.scan_fraction s2 with
            | Some ([], _) => None
            | Some (frac_digits, s3) => Some (frac_digits, s3)
            | None => Some ([], s2)
            end) as [[fd s3]|] eqn:Hf; [|discriminate].
  specialize (Hfrac fd s3 eq_refl). cbn [mbind option_bind] in H.
  assert (Hexp : forall e r',
    match s3 with
    | [] => Some (0, [])
    | c :: s4 =>
        if bool_decide (c = 101%N) || bool_decide (c = 69%N)
        then
          let '(eneg, s5) := Parse.scan_sign s4 in
          match Parse.scan_digits s5 with
          | ([], _) => None
          | (eds, s6) =>
              let e := Parse.digits_value eds in
              Some (if eneg then - e else e, s6)
          end
        else Some (0, s3)
    end = Some (e, r') -> (length r' <= length s3)%nat).
  { intros e r'. destruct s3 as [|c s4]; [intros [= <- <-]; lia|].
    destruct (_ || _); [|intros [= <- <-]; lia].
    pose proof (scan_sign_length s4) as Hsg.
    destruct (Parse.scan_sign s4) as [eneg s5]. cbn [snd] in Hsg.
    pose proof (scan_digits_length s5) as Hd5.
    destruct (Parse.scan_digits s5) as [[|ed eds] s6]; [discriminate|].
    intros [= <- <-]. cbn in *. lia. }
  destruct (match s3 with
            | [] => Some (0, [])
            | c :: s4 => _
            end) as [[e r']|] eqn:He; [|discriminate].
  specialize (Hexp e r' eq_refl). cbn [mbind option_bind] in H.
  injection H as <- <-. lia.
Qed.

Lemma parse_value_step fuel s :
  parse_value (S fuel) s =
    match skip_whitespace s with
    | [] => None
    | c :: r =>
        if bool_decide (c = 91%N) then
          match skip_whitespace r with
          | c' :: r' =>
              if bool_decide (c' = 93%N) then Some (JArr [], r')
              else parse_elements fuel r []
          | [] => None
          end
        else if bool_decide (c = 123%N) then
          match skip_whitespace r with
          | c' :: r' =>
              if bool_decide (c' = 125%N) then Some (JObj [], r')
              else parse_members fuel r []
          | [] => None
          end
        else if bool_decide (c = 34%N) then
          '(cs, r') ← parse_string r; Some (JStr cs, r')
        else
          match Parse.strip_prefix (js "true") (c :: r),
                Parse.strip_prefix (js "false") (c :: r),
                Parse.strip_prefix (js "null") (c :: r) with
          | Some r', _, _ => Some (JBool true, r')
          | _, Some r', _ => Some (JBool false, r')
          | _, _, Some r' => Some (JNull, r')
          | None, None, None =>
              '(x, r') ← parse_number (c :: r); Some (JNum x, r')
          end
    end.
Proof. reflexivity. Qed.

Lemma parse_elements_step fuel s acc :
  parse_elements (S fuel) s acc =
    '(v, r) ← parse_value fuel s;
    match skip_whitespace r with
    | c :: r' =>
        if bool_decide (c = 44%N) then parse_elements fuel r' (acc ++ [v])
        else if bool_decide (c = 93%N) then Some (JArr (acc ++ [v]), r')
        else None
    | [] => None
    end.
Proof. reflexivity. Qed.

Lemma parse_members_step fuel s acc :
  parse_members (S fuel) s acc =
    match skip_whitespace s with
    | c :: r =>
        if bool_decide (c = 34%N) then
          '(key, r1) ← parse_string r;
          match skip_whitespace r1 with
          | c1 :: r2 =>
              if bool_decide (c1 = 58%N) then
                '(v, r3) ← parse_value fuel r2;
                match skip_whitespace r3 with
                | c3 :: r4 =>
                    if bool_decide (c3 = 44%N)
                    then parse_members fuel r4 (set key v acc)
                    else if bool_decide (c3 = 125%N)
                    then Some (JObj (set key v acc), r4)
                    else None
                | [] => None
                end
              else None
          | [] => None
          end
        else None
    | [] => None
    end.
Proof. reflexivity. Qed.

(** Every parser consumes at least one character. *)
Lemma parse_lengths fuel :
  (forall s v r, parse_value fuel s = Some (v, r) ->
                 (length r < length s)%nat)
  /\ (forall s acc v r, parse_elements fuel s acc = Some (v, r) ->
                        (length r < length s)%nat)
  /\ (forall s acc v r, parse_members fuel s acc = Some (v, r) ->
                        (length r < length s)%nat).
Proof.
  induction fuel as [|fuel (IHv & IHe & IHm)];
    [repeat split; intros; discriminate|].
  split; [|split].
  - intros s v r. rewrite parse_value_step.
    pose proof (skip_whitespace_length s) as Hs.
    destruct (skip_whitespace s) as [|c s1]; [discriminate|]. cbn in Hs.
    pose proof (skip_whitespace_length s1) as Hs1.
    destruct (bool_decide (c = 91%N)).
    { destruct (skip_whitespace s1) as [|c' s2]; [discriminate|]. cbn in Hs1.
      destruct (bool_decide (c' = 93%N)).
      - intros [= <- <-]. lia.
      - intros H. apply IHe in H. lia. }
    destruct (bool_decide (c = 123%N)).
    { destruct (skip_whitespace s1) as [|c' s2]; [discriminate|]. cbn in Hs1.
      destruct (bool_decide (c' = 125%N)).
      - intros [= <- <-]. lia.
      - intros H. apply IHm in H. lia. }
    destruct (bool_decide (c = 34%N)).
    { destruct (parse_string s1) as [[cs r']|] eqn:Hp; [|discriminate].
      apply parse_string_length in Hp. intros [= <- <-]. lia. }
    destruct (Parse.strip_prefix (js "true") (c :: s1)) as [r1|] eqn:H1.
    { apply strip_prefix_length in H1. cbn in H1. intros [= <- <-]. lia. }
    destruct (Parse.strip_prefix (js "false") (c :: s1)) as [r2|] eqn:H2.
    { apply strip_prefix_length in H2. cbn in H2. intros [= <- <-]. lia. }
    destruct (Parse.strip_prefix (js "null") (c :: s1)) as [r3|] eqn:H3.
    { apply strip_prefix_length in H3. cbn in H3. intros [= <- <-]. lia. }
    destruct (parse_number (c :: s1)) as [[x r']|] eqn:Hn; [|discriminate].
    apply parse_number_length in Hn. cbn in Hn. intros [= <- <-]. lia.
  - intros s acc v r. rewrite parse_elements_step.
    destruct (parse_value fuel s) as [[v1 r1]|] eqn:Hv; [|discriminate].
    apply IHv in Hv. cbn [mbind option_bind].
    pose proof (skip_whitespace_length r1) as Hr1.
    destruct (skip_whitespace r1) as [|c r2]; [discriminate|]. cbn in Hr1.
    destruct (bool_decide (c = 44%N)).
    { intros H. apply IHe in H. lia. }
    destruct (bool_decide (c = 93%N)); [|discriminate].
    intros [= <- <-]. lia.
  - intros s acc v r. rewrite parse_members_step.
    pose proof (skip_whitespace_length s) as Hs.
    destruct (skip_whitespace s) as [|c s1]; [discriminate|]. cbn in Hs.
    destruct (bool_decide (c = 34%N)); [|discriminate].
    destruct (parse_string s1) as [[key r1]|] eqn:Hk; [|discriminate].
    apply parse_string_length in Hk. cbn [mbind option_bind].
    pose proof (skip_whitespace_length r1) as Hr1.
    destruct (skip_whitespace r1) as [|c1 r2]; [discriminate|]. cbn in Hr1.
    destruct (bool_decide (c1 = 58%N)); [|discriminate].
    destruct (parse_value fuel r2) as [[v3 r3]|] eqn:Hv; [|discriminate].
    apply IHv in Hv. cbn [mbind option_bind].
    pose proof (skip_whitespace_length r3) as Hr3.
    destruct (skip_whitespace r3) as [|c3 r4]; [discriminate|]. cbn in Hr3.
    destruct (bool_decide (c3 = 44%N)).
    { intros H. apply IHm in H. lia. }
    destruct (bool_decide (c3 = 125%N)); [|discriminate].
    intros [= <- <-]. lia.
Qed.

(** With fuel above twice the length of the text, the result does not
    depend on the fuel. *)
Lemma parse_fuel f1 :
  forall f2,
    (forall s, (2 * length s + 1 <= f1)%nat -> (2 * length s + 1 <= f2)%nat ->
               parse_value f1 s = parse_value f2 s)
    /\ (forall s acc,
          (2 * length s + 2 <= f1)%nat -> (2 * length s + 2 <= f2)%nat ->
          parse_elements f1 s acc = parse_elements f2 s acc)
    /\ (forall s acc,
          (2 * length s + 2 <= f1)%nat -> (2 * length s + 2 <= f2)%nat ->
          parse_members f1 s acc = parse_members f2 s acc).
Proof.
  induction f1 as [|f1 IH]; intros f2.
  { repeat split; intros; lia. }
  destruct f2 as [|f2]; [repeat split; intros; lia|].
  destruct (IH f2) as (IHv & IHe & IHm).
  destruct (parse_lengths f1) as (Lv & _ & _).
  split; [|split].
  - intros s H1 H2. rewrite !parse_value_step.
    pose proof (skip_whitespace_length s) as Hs.
    destruct (skip_whitespace s) as [|c s1]; [reflexivity|]. cbn in Hs.
    pose proof (skip_whitespace_length s1) as Hs1.
    destruct (bool_decide (c = 91%N)).
    { destruct (skip_whitespace s1) as [|c' s2]; [reflexivity|].
      destruct (bool_decide (c' = 93%N)); [reflexivity|].
      apply IHe; lia. }
    destruct (bool_decide (c = 123%N)); [|reflexivity].
    destruct (skip_whitespace s1) as [|c' s2]; [reflexivity|].
    destruct (bool_decide (c' = 125%N)); [reflexivity|].
    apply IHm; lia.
  - intros s acc H1 H2. rewrite !parse_elements_step.
    rewrite <- (IHv s) by lia.
    destruct (parse_value f1 s) as [[v1 r1]|] eqn:Hv; [|reflexivity].
    apply Lv in Hv. cbn [mbind option_bind].
    pose proof (skip_whitespace_length r1) as Hr1.
    destruct (skip_whitespace r1) as [|c r2]; [reflexivity|]. cbn in Hr1.
    destruct (bool_decide (c = 44%N)); [|reflexivity].
    apply IHe; lia.
  - intros s acc H1 H2. rewrite !parse_members_step.
    pose proof (skip_whitespace_length s) as Hs.
    destruct (skip_whitespace s) as [|c s1]; [reflexivity|]. cbn in Hs.
    destruct (bool_decide (c = 34%N)); [|reflexivity].
    destruct (parse_string s1) as [[key r1]|] eqn:Hk; [|reflexivity].
    apply parse_string_length in Hk. cbn [mbind option_bind].
    pose proof (skip_whitespace_length r1) as Hr1.
    destruct (skip_whitespace r1) as [|c1 r2]; [reflexivity|]. cbn in Hr1.
    destruct (bool_decide (c1 = 58%N)); [|reflexivity].
    rewrite <- (IHv r2) by lia.
    destruct (parse_value f1 r2) as [[v3 r3]|] eqn:Hv; [|reflexivity].
    apply Lv in Hv. cbn [mbind option_bind].
    pose proof (skip_whitespace_length r3) as Hr3.
    destruct (skip_whitespace r3) as [|c3 r4]; [reflexivity|]. cbn in Hr3.
    destruct (bool_decide (c3 = 44%N)); [|reflexivity].
    apply IHm; lia.
Qed.

(** The fuel [JSON.parse] gives the parser is enough: more fuel gives
    the same result, so a [SyntaxError] is never for lack of fuel. *)
Lemma parse_fuel_enough text fuel :
  (2 * length text + 2 <= fuel)%nat ->
  parse_value fuel text = parse_value (2 * length text + 2) text.
Proof.
  intros H. apply (parse_fuel fuel (2 * length text + 2)); lia.
Qed.

End ParseFuel.

(** ** The score store *)

Section ScoreStore.

Import ScoreManager.

Local Abbreviation well_formed := (fun v : json => is_Some (score_of v)).

Lemma by_score_spec a b ka kb :
  score_of a = Some ka -> score_of b = Some kb ->
  exists v, by_score a b = Normal v
            /\ Number.ltb (Number.of_Z 0) v = (ka <? kb).
Proof.
  unfold score_of, by_score. intros Ha Hb.
  destruct a as [| | | | |ma]; try discriminate.
  destruct b as [| | | | |mb]; try discriminate.
  cbn [Runtime.get_property].
  destruct (JSON.get (js "score") ma) as [[| |x| | |]|];
    try discriminate.
  destruct (JSON.get (js "score") mb) as [[| |y| | |]|];
    try discriminate.
  eexists. split; [reflexivity|]. apply sub_sign; assumption.
Qed.

Lemma insert_by_score x s :
  well_formed x -> Forall well_formed s ->
  Runtime.insert by_score x s = Normal (insert_by_key score_key x s).
Proof.
  intros [kx Hx] Hs. induction Hs as [|y s [ky Hy] Hs IH]; [reflexivity|].
  cbn [Runtime.insert insert_by_key].
  destruct (by_score_spec y x ky kx Hy Hx) as (v & -> & Hv).
  assert (Ekx : score_key x = kx) by (unfold score_key; rewrite Hx; reflexivity).
  assert (Eky : score_key y = ky) by (unfold score_key; rewrite Hy; reflexivity).
  rewrite Ekx, Eky. cbn [mbind completion_bind].
  rewrite Hv. destruct (ky <? kx); [reflexivity|].
  rewrite IH. reflexivity.
Qed.

Lemma insert_by_key_well_formed x s :
  well_formed x -> Forall well_formed s ->
  Forall well_formed (insert_by_key score_key x s).
Proof.
  intros Hx Hs. rewrite insert_by_key_perm. constructor; assumption.
Qed.

(** On records with integer scores the sort of [getTopScores] is the
    stable sort by descending score, and does not throw. *)
Lemma sort_by_score l :
  Forall well_formed l ->
  Runtime.sort by_score l = Normal (sort_by_key score_key l).
Proof.
  unfold Runtime.sort, sort_by_key.
  assert (H : forall acc, Forall well_formed acc -> Forall well_formed l ->
    foldl (fun sorted x => s ← sorted; Runtime.insert by_score x s)
      (Normal acc) l
    = Normal (foldl (fun sorted x => insert_by_key score_key x sorted)
                acc l)).
  { induction l as [|x l IH]; intros acc Hacc Hl; [reflexivity|].
    inversion_clear Hl as [|? ? Hx Hl']. cbn [foldl].
    cbn [mbind completion_bind].
    rewrite insert_by_score by assumption.
    apply IH; [apply insert_by_key_well_formed|]; assumption. }
  intros Hl. apply H; [constructor | exact Hl].
Qed.

Lemma slice0_take {B} (a : list B) (limit : Z) :
  0 <= limit -> Runtime.slice0 a limit = take (Z.to_nat limit) a.
Proof.
  intros Hl. unfold Runtime.slice0.
  replace (limit <? 0) with false by lia.
  destruct (Z.min_spec limit (Z.of_nat (length a))) as [[? ->] | [? ->]];
    [reflexivity|].
  rewrite Nat2Z.id, firstn_all. symmetry. apply take_ge. lia.
Qed.

Lemma read_scores_inaccessible ls :
  accessible ls = false -> read_scores ls = Throw SecurityError.
Proof. unfold read_scores, getItem. intros ->. reflexivity. Qed.

Lemma read_scores_absent ls :
  accessible ls = true ->
  or_else (items ls !! STORAGE_KEY) (js "[]") = js "[]" ->
  read_scores ls = Normal (JArr []).
Proof.
  unfold read_scores, getItem. intros -> E.
  cbn [mbind completion_bind]. rewrite E. reflexivity.
Qed.

Lemma read_scores_stored ls raw :
  accessible ls = true -> items ls !! STORAGE_KEY = Some raw ->
  raw <> [] -> read_scores ls = JSON.parse raw.
Proof.
  unfold read_scores, getItem. intros -> -> Hraw.
  cbn [mbind completion_bind]. destruct raw; [congruence | reflexivity].
Qed.

Lemma parse_empty_text : JSON.parse [] = Throw SyntaxError.
Proof. reflexivity. Qed.

Lemma getTopScores_no_scores limit ls :
  read_scores ls = Normal (JArr []) -> getTopScores limit ls = [].
Proof.
  unfold getTopScores. intros ->.
  cbn [mbind completion_bind call_sort Runtime.sort foldl try_catch].
  unfold Runtime.slice0. apply take_nil.
Qed.

Lemma by_score_no_score a b :
  has_no_score a -> has_no_score b -> by_score a b = Normal Number.NaN.
Proof.
  unfold has_no_score, by_score. intros -> ->. reflexivity.
Qed.

Lemma insert_no_score x s :
  has_no_score x -> Forall has_no_score s ->
  Runtime.insert by_score x s = Normal (s ++ [x]).
Proof.
  intros Hx Hs. induction Hs as [|y s Hy Hs IH]; [reflexivity|].
  cbn [Runtime.insert]. rewrite (by_score_no_score y x Hy Hx).
  cbn [mbind completion_bind].
  change (Number.ltb (Number.of_Z 0) Number.NaN) with false.
  cbn iota. rewrite IH. reflexivity.
Qed.

(** On elements without a score every comparison is NaN, which counts
    as 0, and the sort returns the array as it is. *)
Lemma sort_no_score l :
  Forall has_no_score l -> Runtime.sort by_score l = Normal l.
Proof.
  unfold Runtime.sort.
  assert (H : forall acc, Forall has_no_score acc -> Forall has_no_score l ->
    foldl (fun sorted x => s ← sorted; Runtime.insert by_score x s)
      (Normal acc) l
    = Normal (acc ++ l)).
  { induction l as [|x l IH]; intros acc Hacc Hl.
    - rewrite app_nil_r. reflexivity.
    - inversion_clear Hl as [|? ? Hx Hl']. cbn [foldl].
      cbn [mbind completion_bind].
      rewrite insert_no_score by assumption.
      rewrite IH; [| apply Forall_app; split; [assumption|];
                     constructor; [assumption | constructor] | assumption].
      rewrite <- app_assoc. reflexivity. }
  intros Hl. apply (H [] ltac:(constructor) Hl).
Qed.

Lemma slice0_negative {B} (a : list B) (limit : Z) :
  limit < 0 ->
  Runtime.slice0 a limit = take (length a - Z.to_nat (- limit)) a.
Proof.
  intros Hl. unfold Runtime.slice0.
  replace (limit <? 0) with true by lia. f_equal. lia.
Qed.

(** C4 as stated fails. A stored value that can be read and parses,
    to an array that holds no score records, is returned as it is:
    not the empty sequence, and in no descending order. And a negative
    limit does not truncate to the limit: it drops that many records
    from the end of the sorted collection. *)
Lemma getTopScores_counterexample :
  accessible numbers_storage = true
  /\ items numbers_storage !! STORAGE_KEY = Some (js "[1,2,3]")
  /\ JSON.parse (js "[1,2,3]")
     = Normal (JArr [JNum (Number.of_Z 1); JNum (Number.of_Z 2);
                     JNum (Number.of_Z 3)])
  /\ getTopScores 3 numbers_storage
     = [JNum (Number.of_Z 1); JNum (Number.of_Z 2); JNum (Number.of_Z 3)]
  /\ getTopScores (-1) example_storage
     = [record (js "b") 9 example_date;
        record (js "d") 9 example_date;
        record (js "a") 5 example_date;
        record (js "c") 2 example_date].
Proof. repeat split; vm_compute; reflexivity. Qed.

(** C4, as the code has it: [getTopScores(limit)] is a total function
    (it never throws). It returns the empty sequence when the storage
    cannot be read, when nothing is stored, when the stored text does
    not parse, and when it parses to a value that is not an array.
    When the stored text parses to an array of elements without a
    score, it returns that array as it is, cut by the limit. When it
    parses to an array of records with integer scores, it returns the
    records sorted by descending score, records of equal score in
    their stored order: the first [limit] of them for a limit that is
    not negative, and all but the last [-limit] for a negative one.
    After the scores 5, 9, 2, 9, 1 are saved in that order,
    [getTopScores(3)] returns the records with scores 9, 9, 5, the 9
    saved first before the 9 saved later. *)
Theorem getTopScores_spec limit ls :
  (accessible ls = false -> getTopScores limit ls = [])
  /\ (accessible ls = true -> items ls !! STORAGE_KEY = None ->
      getTopScores limit ls = [])
  /\ (forall raw e,
        accessible ls = true -> items ls !! STORAGE_KEY = Some raw ->
        JSON.parse raw = Throw e -> getTopScores limit ls = [])
  /\ (forall raw v,
        accessible ls = true -> items ls !! STORAGE_KEY = Some raw ->
        JSON.parse raw = Normal v -> (forall stored, v <> JArr stored) ->
        getTopScores limit ls = [])
  /\ (forall raw stored,
        accessible ls = true -> items ls !! STORAGE_KEY = Some raw ->
        JSON.parse raw = Normal (JArr stored) ->
        Forall has_no_score stored ->
        getTopScores limit ls = Runtime.slice0 stored limit)
  /\ (forall raw stored,
        accessible ls = true -> items ls !! STORAGE_KEY = Some raw ->
        JSON.parse raw = Normal (JArr stored) ->
        Forall (fun v => is_Some (score_of v)) stored ->
        exists sorted,
          sorted ≡ₚ stored
          /\ StronglySorted (fun a b => score_key b <= score_key a) sorted
          /\ (forall k,
                filter (fun v => score_key v = k) sorted
                = filter (fun v => score_key v = k) stored)
          /\ (0 <= limit ->
              getTopScores limit ls = take (Z.to_nat limit) sorted)
          /\ (limit < 0 ->
              getTopScores limit ls
              = take (length sorted - Z.to_nat (- limit)) sorted))
  /\ getTopScores 3 example_storage
     = [record (js "b") 9 example_date;
        record (js "d") 9 example_date;
        record (js "a") 5 example_date].
Proof.
  split; [|split; [|split; [|split; [|split; [|split]]]]].
  - intros H. unfold getTopScores.
    rewrite read_scores_inaccessible by exact H. reflexivity.
  - intros Ha Hi. apply getTopScores_no_scores, read_scores_absent;
      [exact Ha | rewrite Hi; reflexivity].
  - intros raw e Ha Hi Hp. destruct raw as [|c raw].
    + apply getTopScores_no_scores, read_scores_absent;
        [exact Ha | rewrite Hi; reflexivity].
    + unfold getTopScores.
      rewrite (read_scores_stored ls (c :: raw)), Hp by (done || congruence).
      reflexivity.
  - intros raw v Ha Hi Hp Hv. unfold getTopScores.
    rewrite (read_scores_stored ls raw), Hp; [| exact Ha | exact Hi |].
    + destruct v; try reflexivity. exfalso. eapply Hv. reflexivity.
    + intros ->. rewrite parse_empty_text in Hp. discriminate.
  - intros raw stored Ha Hi Hp Hno. unfold getTopScores.
    rewrite (read_scores_stored ls raw), Hp; [| exact Ha | exact Hi |].
    + cbn [mbind completion_bind call_sort].
      rewrite sort_no_score by exact Hno. reflexivity.
    + intros ->. rewrite parse_empty_text in Hp. discriminate.
  - intros raw stored Ha Hi Hp Hwf.
    exists (sort_by_key score_key stored).
    destruct (sort_by_key_spec score_key stored) as (Hperm & Hsorted & Hst).
    split; [exact Hperm|]. split; [exact Hsorted|]. split; [exact Hst|].
    assert (Hget : getTopScores limit ls
                   = Runtime.slice0 (sort_by_key score_key stored) limit).
    { unfold getTopScores.
      rewrite (read_scores_stored ls raw), Hp; [| exact Ha | exact Hi |].
      - cbn [mbind completion_bind call_sort].
        rewrite sort_by_score by exact Hwf. reflexivity.
      - intros ->. rewrite parse_empty_text in Hp. discriminate. }
    rewrite Hget. split; intros Hl.
    + apply slice0_take, Hl.
    + apply slice0_negative, Hl.
  - vm_compute. reflexivity.
Qed.

Lemma getTopScores_spec_witness :
  let stored :=
    [record (js "a") 5 example_date; record (js "b") 9 example_date;
     record (js "c") 2 example_date; record (js "d") 9 example_date;
     record (js "e") 1 example_date] in
  exists sorted,
    sorted ≡ₚ stored
    /\ StronglySorted (fun a b => score_key b <= score_key a) sorted
    /\ (forall k,
          filter (fun v => score_key v = k) sorted
          = filter (fun v => score_key v = k) stored)
    /\ (0 <= 3 ->
        getTopScores 3 example_storage = take (Z.to_nat 3) sorted)
    /\ (3 < 0 ->
        getTopScores 3 example_storage
        = take (length sorted - Z.to_nat (- 3)) sorted).
Proof.
  intros stored.
  apply (proj1 (proj2 (proj2 (proj2 (proj2 (proj2
           (getTopScores_spec 3 example_storage))))))
           (JSON.stringify (JArr stored)) stored).
  - reflexivity.
  - vm_compute. reflexivity.
  - vm_compute. reflexivity.
  - repeat constructor; eexists; vm_compute; reflexivity.
Defined.

Lemma saveScore_read_failure playerName score now ls e :
  read_scores ls = Throw e ->
  saveScore playerName score now ls = (ls, Some e).
Proof. unfold saveScore. intros ->. reflexivity. Qed.

(** C5, as the code has it: [saveScore] is a total function (it never
    throws). It reads the stored collection, an absent or empty stored
    value standing for the empty collection, appends the new record
    and writes the whole collection back. Any failure is caught and
    logged, and then nothing is written: when the storage cannot be
    read, when the stored text does not parse or is not an array, and
    when the write fails, the storage is left as it was. *)
Theorem saveScore_spec playerName score now ls :
  let new := record playerName score now in
  let written stored :=
    <[STORAGE_KEY := JSON.stringify (JArr (stored ++ [new]))]> (items ls) in
  (accessible ls = true ->
   or_else (items ls !! STORAGE_KEY) (js "[]") = js "[]" ->
   read_scores ls = Normal (JArr []))
  /\ (forall stored,
        read_scores ls = Normal (JArr stored) ->
        (used (written stored) <= quota ls)%nat ->
        saveScore playerName score now ls
        = ({| items := written stored;
              accessible := accessible ls;
              quota := quota ls |}, None))
  /\ (forall stored,
        read_scores ls = Normal (JArr stored) ->
        (quota ls < used (written stored))%nat ->
        saveScore playerName score now ls = (ls, Some QuotaExceededError))
  /\ (accessible ls = false ->
      saveScore playerName score now ls = (ls, Some SecurityError))
  /\ (forall raw e,
        accessible ls = true -> items ls !! STORAGE_KEY = Some raw ->
        JSON.parse raw = Throw e -> raw <> [] ->
        saveScore playerName score now ls = (ls, Some e))
  /\ (forall v,
        read_scores ls = Normal v -> (forall stored, v <> JArr stored) ->
        saveScore playerName score now ls = (ls, Some TypeError)).
Proof.
  intros new written. split; [|split; [|split; [|split; [|split]]]].
  - apply read_scores_absent.
  - intros stored Hr Hq. unfold saveScore. rewrite Hr.
    assert (Ha : accessible ls = true).
    { unfold read_scores, getItem in Hr.
      destruct (accessible ls); [reflexivity | discriminate]. }
    cbn [mbind completion_bind call_push]. unfold setItem. rewrite Ha.
    fold new. fold (written stored).
    apply Nat.leb_le in Hq. rewrite Hq. reflexivity.
  - intros stored Hr Hq. unfold saveScore. rewrite Hr.
    assert (Ha : accessible ls = true).
    { unfold read_scores, getItem in Hr.
      destruct (accessible ls); [reflexivity | discriminate]. }
    cbn [mbind completion_bind call_push]. unfold setItem. rewrite Ha.
    fold new. fold (written stored).
    apply Nat.leb_gt in Hq. rewrite Hq. reflexivity.
  - intros Ha. apply saveScore_read_failure, read_scores_inaccessible, Ha.
  - intros raw e Ha Hi Hp Hraw. apply saveScore_read_failure.
    rewrite (read_scores_stored ls raw) by assumption. exact Hp.
  - intros v Hr Hv. unfold saveScore. rewrite Hr.
    destruct v; try reflexivity. exfalso. eapply Hv. reflexivity.
Qed.

Lemma saveScore_spec_witness :
  saveScore (js "ana") 7 example_date corrupted_storage
  = (corrupted_storage, Some SyntaxError).
Proof.
  apply (proj1 (proj2 (proj2 (proj2 (proj2
           (saveScore_spec (js "ana") 7 example_date corrupted_storage)))))
           (js "{oops") SyntaxError).
  - reflexivity.
  - vm_compute. reflexivity.
  - vm_compute. reflexivity.
  - discriminate.
Defined.

(** C5 as stated fails on a corrupted store: the stored text does not
    parse, [saveScore] logs the [SyntaxError] and writes nothing, so
    the new record is not stored. *)
Lemma saveScore_corrupted_counterexample :
  items corrupted_storage !! STORAGE_KEY = Some (js "{oops")
  /\ JSON.parse (js "{oops") = Throw SyntaxError
  /\ saveScore (js "ana") 7 example_date corrupted_storage
     = (corrupted_storage, Some SyntaxError)
  /\ items (saveScore (js "ana") 7 example_date corrupted_storage).1
       !! STORAGE_KEY
     <> Some (JSON.stringify (JArr [record (js "ana") 7 example_date])).
Proof.
  split; [vm_compute; reflexivity|].
  split; [vm_compute; reflexivity|].
  split; [vm_compute; reflexivity|].
  vm_compute. discriminate.
Qed.

End ScoreStore.

(** ** The reducer *)

Section Reducer.

(** C1 as stated fails: [UPDATE_INPUT] is not listed as valid in the
    phase [MENU], and the reducer still stores its text. *)
Lemma reducer_out_of_phase_counterexample :
  valid_in (UPDATE_INPUT (js "7")) (gameState INITIAL_STATE) = false
  /\ gameReducer 0 example_env INITIAL_STATE (UPDATE_INPUT (js "7"))
     <> Some (Normal (INITIAL_STATE, example_env)).
Proof.
  split; [reflexivity|]. intros H.
  apply (f_equal (fun r => match r with
                           | Some (Normal (s, _)) => userInput s
                           | _ => []
                           end)) in H.
  discriminate H.
Qed.

Lemma generate_in_no_throw fuel env e :
  generate_in fuel env <> Some (Throw e).
Proof.
  unfold generate_in.
  destruct (ProblemGenerator.generate fuel (random env) (drawn env))
    as [[[q n]|e']|] eqn:Hg; try discriminate.
  exfalso. eapply generate_no_throw, Hg.
Qed.

(** C1, as the code has it: the reducer does not look at the phase.
    An action of a type it does not handle leaves the state unchanged
    in every phase; [UPDATE_INPUT], [HIDE_SUCCESS], [TICK] and
    [SAVE_SCORE] take effect in every phase, and never fail; and so do
    [START_GAME] and [CORRECT_ANSWER], whenever the generator returns a
    problem: [START_GAME] starts a new game in every phase, also in
    [PLAYING], and [CORRECT_ANSWER] adds one to the score and replaces
    the problem in every phase, also in [MENU] and [GAME_OVER]. Neither
    throws, and neither returns when the generator does not. *)
Theorem reducer_ignores_phase fuel env state :
  (forall type,
      gameReducer fuel env state (OTHER type) = Some (Normal (state, env)))
  /\ (forall text, exists state',
        gameReducer fuel env state (UPDATE_INPUT text)
        = Some (Normal (state', env))
        /\ userInput state' = text
        /\ gameState state' = gameState state)
  /\ (exists state',
        gameReducer fuel env state HIDE_SUCCESS
        = Some (Normal (state', env))
        /\ showSuccess state' = false
        /\ gameState state' = gameState state)
  /\ (exists state',
        gameReducer fuel env state TICK = Some (Normal (state', env))
        /\ timeRemaining state' = Z.max 0 (timeRemaining state - 1))
  /\ (forall name, exists state',
        gameReducer fuel env state (SAVE_SCORE name)
        = Some (Normal (state', env))
        /\ playerNameToSave state' = Some name
        /\ gameState state' = gameState state)
  /\ (forall problem env',
        generate_in fuel env = Some (Normal (problem, env')) ->
        exists state',
          gameReducer fuel env state START_GAME
          = Some (Normal (state', env'))
          /\ gameState state' = PLAYING
          /\ currentProblem state' = Some problem
          /\ userInput state' = []
          /\ score state' = 0
          /\ timeRemaining state' = 30
          /\ showSuccess state' = false
          /\ topScores state' = topScores state
          /\ playerNameToSave state' = playerNameToSave state)
  /\ (forall problem env',
        generate_in fuel env = Some (Normal (problem, env')) ->
        exists state',
          gameReducer fuel env state CORRECT_ANSWER
          = Some (Normal (state', env'))
          /\ gameState state' = gameState state
          /\ currentProblem state' = Some problem
          /\ userInput state' = []
          /\ score state' = score state + 1
          /\ timeRemaining state' = timeRemaining state
          /\ showSuccess state' = true
          /\ topScores state' = topScores state
          /\ playerNameToSave state' = playerNameToSave state)
  /\ (forall e,
        gameReducer fuel env state START_GAME <> Some (Throw e)
        /\ gameReducer fuel env state CORRECT_ANSWER <> Some (Throw e))
  /\ (generate_in fuel env = None ->
      gameReducer fuel env state START_GAME = None
      /\ gameReducer fuel env state CORRECT_ANSWER = None).
Proof.
  do 5 (split; [intros; try eexists; repeat split|]).
  split; [intros problem env' Hg; cbn [gameReducer]; rewrite Hg;
          eexists; repeat split|].
  split; [intros problem env' Hg; cbn [gameReducer]; rewrite Hg;
          eexists; repeat split|].
  split.
  - intros e. cbn [gameReducer].
    pose proof (generate_in_no_throw fuel env) as Hn.
    destruct (generate_in fuel env) as [[[q e1]|e']|]; split;
      try discriminate; intros [= ->]; apply (Hn e); reflexivity.
  - intros Hg. cbn [gameReducer]. rewrite Hg. split; reflexivity.
Qed.

Lemma reducer_ignores_phase_witness :
  let playing :=
    {| gameState := PLAYING; currentProblem := None; userInput := js "4";
       score := 3; timeRemaining := 12; showSuccess := false;
       topScores := []; playerNameToSave := None |} in
  let over :=
    {| gameState := GAME_OVER; currentProblem := None; userInput := [];
       score := 3; timeRemaining := 0; showSuccess := false;
       topScores := []; playerNameToSave := None |} in
  let problem := MathProblem.new 9 1 SUBTRACTION in
  valid_in START_GAME (gameState playing) = false
  /\ valid_in CORRECT_ANSWER (gameState over) = false
  /\ generate_in 2 example_env
     = Some (Normal (problem, with_drawn example_env 6))
  /\ (exists state',
        gameReducer 2 example_env playing START_GAME
        = Some (Normal (state', with_drawn example_env 6))
        /\ gameState state' = PLAYING
        /\ currentProblem state' = Some problem
        /\ userInput state' = []
        /\ score state' = 0
        /\ timeRemaining state' = 30
        /\ showSuccess state' = false
        /\ topScores state' = topScores playing
        /\ playerNameToSave state' = playerNameToSave playing)
  /\ (exists state',
        gameReducer 2 example_env over CORRECT_ANSWER
        = Some (Normal (state', with_drawn example_env 6))
        /\ gameState state' = gameState over
        /\ currentProblem state' = Some problem
        /\ userInput state' = []
        /\ score state' = score over + 1
        /\ timeRemaining state' = timeRemaining over
        /\ showSuccess state' = true
        /\ topScores state' = topScores over
        /\ playerNameToSave state' = playerNameToSave over).
Proof.
  intros playing over problem.
  assert (Hg : generate_in 2 example_env
               = Some (Normal (problem, with_drawn example_env 6)))
    by (vm_compute; reflexivity).
  split; [reflexivity|]. split; [reflexivity|]. split; [exact Hg|].
  split.
  - destruct (reducer_ignores_phase 2 example_env playing)
      as (_ & _ & _ & _ & _ & Hstart & _).
    exact (Hstart problem (with_drawn example_env 6) Hg).
  - destruct (reducer_ignores_phase 2 example_env over)
      as (_ & _ & _ & _ & _ & _ & Hcorrect & _).
    exact (Hcorrect problem (with_drawn example_env 6) Hg).
Defined.

Lemma tick_once fuel env state :
  exists state',
    gameReducer fuel env state TICK = Some (Normal (state', env))
    /\ timeRemaining state' = Z.max 0 (timeRemaining state - 1)
    /\ gameState state'
       = if timeRemaining state' =? 0 then GAME_OVER else gameState state.
Proof. eexists. repeat split. Qed.

(** From a clock at 1 or below, any positive number of ticks ends in
    [GAME_OVER] with the clock at 0. *)
Lemma ticks_game_over fuel env n state :
  timeRemaining state <= 1 ->
  exists state',
    dispatch_all fuel env state (replicate (S n) TICK)
    = Some (Normal (state', env))
    /\ gameState state' = GAME_OVER /\ timeRemaining state' = 0.
Proof.
  revert state. induction n as [|n IH]; intros state Ht.
  - destruct (tick_once fuel env state) as (s1 & Hs1 & Ht1 & Hg1).
    exists s1. cbn [replicate dispatch_all]. rewrite Hs1.
    assert (timeRemaining s1 = 0) as E by lia.
    rewrite E in Hg1. auto.
  - destruct (tick_once fuel env state) as (s1 & Hs1 & Ht1 & Hg1).
    destruct (IH s1 ltac:(lia)) as (s2 & Hs2 & Hg2 & Ht2).
    exists s2. change (replicate (S (S n)) TICK)
      with (TICK :: replicate (S n) TICK).
    cbn [dispatch_all]. rewrite Hs1. auto.
Qed.

(** C3: in every state, [TICK] sets [timeRemaining] to
    [max(0, timeRemaining - 1)], which is never negative, and the
    phase becomes [GAME_OVER] when the new value is 0. From
    [timeRemaining = 1] in [PLAYING], repeated ticks enter [GAME_OVER]
    exactly once, at the first tick: the phase is [PLAYING] before it
    and [GAME_OVER] after every later tick, with the clock at 0. *)
Theorem tick_spec fuel env state :
  (exists state',
      gameReducer fuel env state TICK = Some (Normal (state', env))
      /\ timeRemaining state' = Z.max 0 (timeRemaining state - 1)
      /\ 0 <= timeRemaining state'
      /\ (timeRemaining state' = 0 -> gameState state' = GAME_OVER))
  /\ (gameState state = PLAYING -> timeRemaining state = 1 ->
      forall n, exists before after,
        dispatch_all fuel env state (replicate n TICK)
        = Some (Normal (before, env))
        /\ dispatch_all fuel env state (replicate (S n) TICK)
           = Some (Normal (after, env))
        /\ 0 <= timeRemaining before
        /\ gameState after = GAME_OVER /\ timeRemaining after = 0
        /\ (gameState before <> GAME_OVER <-> n = O)).
Proof.
  split.
  - destruct (tick_once fuel env state) as (s1 & Hs1 & Ht1 & Hg1).
    exists s1. repeat split; try assumption; [lia|].
    intros E. rewrite E in Hg1. exact Hg1.
  - intros Hg Ht n.
    destruct (ticks_game_over fuel env n state ltac:(lia))
      as (after & Ha & Hga & Hta).
    destruct n as [|n].
    + exists state, after. repeat split; try assumption; try lia.
      congruence.
    + destruct (ticks_game_over fuel env n state ltac:(lia))
        as (before & Hb & Hgb & Htb).
      exists before, after. repeat split; try assumption; try lia.
      congruence.
Qed.

Lemma tick_spec_witness :
  exists before after,
    dispatch_all 0 example_env
      {| gameState := PLAYING; currentProblem := None; userInput := [];
         score := 3; timeRemaining := 1; showSuccess := false;
         topScores := []; playerNameToSave := None |}
      (replicate 4 TICK)
    = Some (Normal (before, example_env))
    /\ dispatch_all 0 example_env
         {| gameState := PLAYING; currentProblem := None; userInput := [];
            score := 3; timeRemaining := 1; showSuccess := false;
            topScores := []; playerNameToSave := None |}
         (replicate 5 TICK)
       = Some (Normal (after, example_env))
    /\ 0 <= timeRemaining before
    /\ gameState after = GAME_OVER /\ timeRemaining after = 0
    /\ (gameState before <> GAME_OVER <-> 4%nat = O).
Proof.
  apply (proj2 (tick_spec 0 example_env
    {| gameState := PLAYING; currentProblem := None; userInput := [];
       score := 3; timeRemaining := 1; showSuccess := false;
       topScores := []; playerNameToSave := None |}));
    reflexivity.
Defined.

(** C7: in every state, whatever its phase, [RETURN_TO_MENU] gives the
    state whose phase is [MENU] and whose fields have their initial
    values, except [topScores], which holds what [getTopScores()]
    reads from the store at that moment. *)
Theorem return_to_menu_spec fuel env state :
  exists state',
    gameReducer fuel env state RETURN_TO_MENU = Some (Normal (state', env))
    /\ gameState state' = MENU
    /\ currentProblem state' = currentProblem INITIAL_STATE
    /\ userInput state' = userInput INITIAL_STATE
    /\ score state' = score INITIAL_STATE
    /\ timeRemaining state' = timeRemaining INITIAL_STATE
    /\ showSuccess state' = showSuccess INITIAL_STATE
    /\ playerNameToSave state' = playerNameToSave INITIAL_STATE
    /\ topScores state'
       = ScoreManager.getTopScores 5 (localStorage env).
Proof. eexists. repeat split. Qed.

End Reducer.

(** * Further properties *)

(** ** The problems of the generator *)

Section GeneratedProblems.

Import MathProblem ProblemGenerator.

Lemma generate_generated fuel random drawn p drawn' :
  generate fuel random drawn = Some (Normal (p, drawn')) -> generated p.
Proof. apply generate_inv. Qed.

Lemma all_samples_answer :
  forallb (fun '(a, b, op) =>
             rejected a b op
             || let p := build a b op in
                let n := integer_result (operation p) (operand1 p)
                           (operand2 p) in
                bool_decide (answer p = Number.of_Z n)
                && (0 <=? n) && (n <=? 81)
                && implb (bool_decide (operation p = DIVISION))
                         (n * operand2 p =? operand1 p))
    all_samples
  = true.
Proof. vm_compute. reflexivity. Qed.

Lemma generated_answer p :
  generated p ->
  let n := integer_result (operation p) (operand1 p) (operand2 p) in
  answer p = Number.of_Z n /\ 0 <= n <= 81
  /\ (operation p = DIVISION -> n * operand2 p = operand1 p).
Proof.
  intros (a & b & op & -> & Hr & Ha & Hb).
  pose proof all_samples_answer as Hall.
  rewrite forallb_forall in Hall.
  specialize (Hall (a, b, op)). cbn beta iota in Hall.
  rewrite Hr in Hall. cbn [orb] in Hall.
  specialize (Hall ltac:(apply list_elem_of_In, elem_of_all_samples; assumption)).
  cbn zeta in *.
  repeat (apply andb_prop in Hall as [Hall ?]).
  apply bool_decide_eq_true_1 in Hall.
  repeat split; try lia; try assumption.
  intros Hd. rewrite bool_decide_eq_true_2 in H by exact Hd.
  cbn in H. lia.
Qed.

(** X1: the answer of every problem the generator returns is the exact
    integer result of the operation on the operands, a whole number
    between 0 and 81; for a division it is the quotient, and the
    quotient times operand2 is operand1. *)
Theorem generate_answer fuel random drawn p drawn' :
  generate fuel random drawn = Some (Normal (p, drawn')) ->
  let n := integer_result (operation p) (operand1 p) (operand2 p) in
  answer p = Number.of_Z n /\ 0 <= n <= 81
  /\ (operation p = DIVISION -> n * operand2 p = operand1 p).
Proof. intros H. apply generated_answer. eapply generate_generated, H. Qed.

Lemma generate_answer_witness :
  let p := MathProblem.new 9 1 SUBTRACTION in
  answer p = Number.of_Z 8 /\ 0 <= 8 <= 81
  /\ (operation p = DIVISION -> 8 * operand2 p = operand1 p).
Proof.
  refine (generate_answer 2 (source_of [8; 4; 12; 15; 0; 4]) 0
            (MathProblem.new 9 1 SUBTRACTION) 6 _).
  vm_compute. reflexivity.
Defined.

Lemma draw_for_operand_floor a :
  1 <= a <= 9 ->
  Math_floor (Number.mul (random_of (draw_for_operand a)) (Number.of_Z 9))
  + 1 = a.
Proof.
  intros Ha.
  assert (a = 1 \/ a = 2 \/ a = 3 \/ a = 4 \/ a = 5 \/ a = 6 \/ a = 7
          \/ a = 8 \/ a = 9) as H by lia.
  repeat (destruct H as [-> | H]; [vm_compute; reflexivity|]).
  subst a. vm_compute. reflexivity.
Qed.

Lemma draw_for_operation_get op :
  array_get operations
    (Math_floor (Number.mul (random_of (draw_for_operation op))
                   (Number.of_Z 4)))
  = Some op.
Proof. destruct op; vm_compute; reflexivity. Qed.

(** X2: the generator can return every problem that satisfies its
    constraints: for operands in 1..9 and an operation, with operand2
    dividing operand1 for a division and operand1 >= operand2 for a
    subtraction, there are random values for which the first pass of the
    loop returns exactly that problem, after three draws. *)
Theorem generate_complete a b op :
  1 <= a <= 9 -> 1 <= b <= 9 ->
  (op = DIVISION -> (b | a)) ->
  (op = SUBTRACTION -> b <= a) ->
  exists random : RandomSource,
    forall fuel,
      generate (S fuel) random 0
      = Some (Normal (MathProblem.new a b op, 3%nat)).
Proof.
  intros Ha Hb Hdiv Hsub.
  exists (source_of [draw_for_operand a; draw_for_operand b;
                     draw_for_operation op]).
  intros fuel. unfold generate. rewrite generate_loop_step.
  unfold sample, source_of. cbn [nth Nat.add List.map].
  rewrite !draw_for_operand_floor, draw_for_operation_get by assumption.
  assert (Hr : rejected a b op = false).
  { apply rejected_false; [lia|].
    destruct (decide (op = DIVISION)); [right; auto | left; assumption]. }
  rewrite Hr. unfold build.
  destruct (bool_decide_reflect (op = SUBTRACTION)) as [E | E]; cbn [andb];
    [|reflexivity].
  specialize (Hsub E). replace (a <? b) with false by lia. reflexivity.
Qed.

Lemma generate_complete_witness :
  exists random : RandomSource,
    forall fuel,
      generate (S fuel) random 0
      = Some (Normal (MathProblem.new 8 2 DIVISION, 3%nat)).
Proof.
  apply (generate_complete 8 2 DIVISION); try lia; try discriminate.
  intros _. exists 4. reflexivity.
Defined.

End GeneratedProblems.

(** ** The stored scores *)

Section TopScores.

Import ScoreManager.

Lemma insert_Permutation {A} (f : A -> A -> completion Number.t) x s r :
  Runtime.insert f x s = Normal r -> r ≡ₚ x :: s.
Proof.
  revert r. induction s as [|y s IH]; intros r; cbn [Runtime.insert].
  - intros [= <-]. reflexivity.
  - destruct (f y x) as [v|e]; cbn [mbind completion_bind]; [|discriminate].
    destruct (Number.ltb _ v); [intros [= <-]; reflexivity|].
    destruct (Runtime.insert f x s) as [r'|e]; cbn; [|discriminate].
    intros [= <-]. rewrite (IH r' eq_refl). apply Permutation_swap.
Qed.

Lemma sort_Permutation {A} (f : A -> A -> completion Number.t) l r :
  Runtime.sort f l = Normal r -> r ≡ₚ l.
Proof.
  unfold Runtime.sort.
  assert (H : forall acc c r,
    foldl (fun sorted x => s ← sorted; Runtime.insert f x s) c l = Normal r ->
    c = Normal acc -> r ≡ₚ acc ++ l).
  { induction l as [|x l IH]; intros acc c r0; cbn [foldl].
    - intros -> [= ->]. rewrite app_nil_r. reflexivity.
    - intros H ->. cbn [mbind completion_bind] in H.
      destruct (Runtime.insert f x acc) as [acc'|e] eqn:Hi.
      + rewrite (IH acc' _ r0 H eq_refl).
        rewrite (insert_Permutation f x acc acc' Hi).
        rewrite <- Permutation_middle. reflexivity.
      + exfalso. clear -H. induction l as [|y l IHl]; [discriminate|].
        apply IHl, H. }
  intros Hs. apply (H [] _ r Hs eq_refl).
Qed.

Lemma slice0_length {A} (a : list A) limit :
  0 <= limit -> (length (Runtime.slice0 a limit) <= Z.to_nat limit)%nat.
Proof.
  intros Hl. rewrite slice0_take by assumption.
  rewrite length_take. lia.
Qed.

Lemma getTopScores_length limit ls :
  0 <= limit -> (length (getTopScores limit ls) <= Z.to_nat limit)%nat.
Proof.
  intros Hl. unfold getTopScores.
  destruct (read_scores ls) as [scores|e];
    cbn [mbind completion_bind try_catch]; [|cbn; lia].
  destruct (call_sort scores) as [sorted|e];
    cbn [mbind completion_bind try_catch]; [|cbn; lia].
  apply slice0_length, Hl.
Qed.

Lemma getTopScores_elements limit ls :
  0 <= limit ->
  getTopScores limit ls = []
  \/ exists elements,
       read_scores ls = Normal (JArr elements)
       /\ getTopScores limit ls ⊆+ elements.
Proof.
  intros Hl. unfold getTopScores.
  destruct (read_scores ls) as [scores|e];
    cbn [mbind completion_bind try_catch]; [|left; reflexivity].
  destruct scores as [| | | |elements|];
    cbn [call_sort mbind completion_bind try_catch];
    try (left; reflexivity).
  destruct (Runtime.sort by_score elements) as [sorted|e] eqn:Hs;
    cbn [mbind completion_bind try_catch]; [|left; reflexivity].
  right. exists elements. split; [reflexivity|].
  rewrite slice0_take by assumption.
  rewrite <- (sort_Permutation _ _ _ Hs).
  apply sublist_submseteq, sublist_take.
Qed.

(** X3: whatever the storage holds, [getTopScores(limit)], for a limit
    that is not negative, returns at most [limit] entries and invents
    none: the result is empty, or the stored text parses to an array
    and every returned entry is an element of that array, returned no
    more often than it occurs there. *)
Theorem getTopScores_bounded limit ls :
  0 <= limit ->
  (length (getTopScores limit ls) <= Z.to_nat limit)%nat
  /\ (getTopScores limit ls = []
      \/ exists elements,
           read_scores ls = Normal (JArr elements)
           /\ getTopScores limit ls ⊆+ elements).
Proof.
  intros Hl. split;
    [apply getTopScores_length | apply getTopScores_elements]; exact Hl.
Qed.

Lemma getTopScores_bounded_witness :
  (length (getTopScores 3 example_storage) <= Z.to_nat 3)%nat
  /\ (getTopScores 3 example_storage = []
      \/ exists elements,
           read_scores example_storage = Normal (JArr elements)
           /\ getTopScores 3 example_storage ⊆+ elements).
Proof. apply (getTopScores_bounded 3 example_storage). lia. Defined.

End TopScores.

(** ** The states of the game *)

Section GameInvariants.

Import MathProblem.

Lemma generated_well_formed p : generated p -> well_formed_problem p.
Proof.
  intros Hg. pose proof (generated_answer p Hg) as (Hans & _ & _).
  destruct Hg as (a & b & op & -> & Hr & Ha & Hb).
  assert (Hdiv : op = DIVISION -> Z.rem a b = 0).
  { intros ->. unfold rejected in Hr.
    rewrite bool_decide_eq_true_2 in Hr by reflexivity.
    replace (b =? 0) with false in Hr by lia. cbn in Hr.
    apply negb_false_iff, Z.eqb_eq in Hr. exact Hr. }
  unfold well_formed_problem. rewrite Hans. clear Hans.
  unfold build.
  destruct (bool_decide_reflect (op = SUBTRACTION)) as [-> | Hsub];
    [destruct (Z.ltb_spec a b)|]; cbn;
    repeat split; try lia; try discriminate; try congruence.
  all: auto.
Qed.

Lemma generate_in_inv fuel env p env' :
  generate_in fuel env = Some (Normal (p, env')) ->
  generated p /\ localStorage env' = localStorage env.
Proof.
  unfold generate_in.
  destruct (ProblemGenerator.generate fuel (random env) (drawn env))
    as [[[q n]|e]|] eqn:Hg; try discriminate.
  intros [= <- <-]. split; [|reflexivity].
  eapply generate_generated, Hg.
Qed.

Lemma gameReducer_invariant fuel env state action state' env' :
  game_invariant state ->
  gameReducer fuel env state action = Some (Normal (state', env')) ->
  game_invariant state'.
Proof.
  intros (Ht & Hs & Hover & Hplay & Hp & Htop) H.
  destruct action; cbn [gameReducer] in H;
    try (destruct (generate_in fuel env) as [[[q e1]|e]|] eqn:Hg;
         try discriminate; apply generate_in_inv in Hg as [Hg _]);
    injection H as <- <-; unfold game_invariant; cbn;
    refine (conj _ (conj _ (conj _ (conj _ (conj _ _))))).
  (* START_GAME *)
  - lia.
  - lia.
  - split; [discriminate | lia].
  - eauto.
  - intros p0 [= <-]. apply generated_well_formed, Hg.
  - exact Htop.
  (* UPDATE_INPUT *)
  - exact Ht.
  - exact Hs.
  - exact Hover.
  - exact Hplay.
  - exact Hp.
  - exact Htop.
  (* CORRECT_ANSWER *)
  - exact Ht.
  - lia.
  - exact Hover.
  - eauto.
  - intros p0 [= <-]. apply generated_well_formed, Hg.
  - exact Htop.
  (* HIDE_SUCCESS *)
  - exact Ht.
  - exact Hs.
  - exact Hover.
  - exact Hplay.
  - exact Hp.
  - exact Htop.
  (* TICK *)
  - lia.
  - exact Hs.
  - destruct (Z.eqb_spec (Z.max 0 (timeRemaining state - 1)) 0) as [E | E];
      [tauto|].
    split; [intros G; apply Hover in G; lia | intros G; contradiction].
  - destruct (Z.max 0 (timeRemaining state - 1) =? 0);
      [discriminate | exact Hplay].
  - exact Hp.
  - exact Htop.
  (* SAVE_SCORE *)
  - exact Ht.
  - exact Hs.
  - exact Hover.
  - exact Hplay.
  - exact Hp.
  - exact Htop.
  (* RETURN_TO_MENU *)
  - lia.
  - lia.
  - split; [discriminate | lia].
  - discriminate.
  - discriminate.
  - apply (getTopScores_length 5). lia.
  (* LOAD_SCORES *)
  - exact Ht.
  - exact Hs.
  - exact Hover.
  - exact Hplay.
  - exact Hp.
  - apply (getTopScores_length 5). lia.
  (* any other type *)
  - exact Ht.
  - exact Hs.
  - exact Hover.
  - exact Hplay.
  - exact Hp.
  - exact Htop.
Qed.

Lemma reachable_game_invariant state :
  reachable state -> game_invariant state.
Proof.
  induction 1 as [|fuel env state action state' env' _ IH H].
  - unfold game_invariant; cbn.
    repeat split; try lia; try discriminate.
  - eapply gameReducer_invariant; eassumption.
Qed.

(** X4: every state the reducer reaches from [INITIAL_STATE], with any
    sequence of actions, any random values and any storage, keeps
    timeRemaining between 0 and 30 and the score at 0 or more; its phase
    is GAME_OVER exactly when timeRemaining is 0; in the phase PLAYING
    there is a current problem; a current problem satisfies the
    constraints of the generator and has the exact integer answer; and
    topScores holds at most five entries. *)
Theorem reachable_invariant state : reachable state -> game_invariant state.
Proof. apply reachable_game_invariant. Qed.

Lemma reachable_invariant_witness : game_invariant example_state.
Proof.
  apply (reachable_invariant example_state).
  apply (reachable_step 2 example_env INITIAL_STATE START_GAME
           example_state (with_drawn example_env 6)); [constructor|].
  reflexivity.
Defined.

Lemma count_cons f a actions :
  count f (a :: actions) = (if f a then 1 else 0) + count f actions.
Proof. unfold count. cbn [List.filter]. destruct (f a); cbn [length]; lia. Qed.

Lemma count_nonneg f actions : 0 <= count f actions.
Proof. unfold count. lia. Qed.

Lemma dispatch_in_game fuel actions :
  forall env s s' env',
    forallb in_game actions = true ->
    0 <= timeRemaining s ->
    dispatch_all fuel env s actions = Some (Normal (s', env')) ->
    let ticks := count is_tick actions in
    timeRemaining s' = Z.max 0 (timeRemaining s - ticks)
    /\ score s' = score s + count is_correct_answer actions
    /\ gameState s'
       = (if (0 <? ticks) && (timeRemaining s <=? ticks) then GAME_OVER
          else gameState s)
    /\ localStorage env' = localStorage env.
Proof.
  induction actions as [|a actions IH]; intros env s s' env' Hin Ht H;
    cbn [dispatch_all] in H.
  - injection H as <- <-. cbn zeta.
    change (count is_tick []) with 0.
    change (count is_correct_answer []) with 0.
    change (0 <? 0) with false. cbn [andb].
    repeat split; lia.
  - cbn [forallb] in Hin. apply andb_prop in Hin as [Ha Hin].
    destruct (gameReducer fuel env s a) as [[[s1 env1]|e]|] eqn:Hstep;
      try discriminate.
    cbn zeta. rewrite !count_cons.
    pose proof (count_nonneg is_tick actions) as Hn.
    assert (Ht1 : 0 <= timeRemaining s1).
    { destruct a; cbn [gameReducer] in Hstep;
        try (destruct (generate_in fuel env) as [[[q e1]|e]|];
             try discriminate);
        injection Hstep as <- <-; cbn; lia. }
    specialize (IH env1 s1 s' env' Hin Ht1 H). cbn zeta in IH.
    destruct IH as (IHt & IHs & IHg & IHl).
    rewrite IHt, IHs, IHg, IHl. clear IHt IHs IHg IHl H.
    destruct a; try discriminate Ha; cbn [gameReducer] in Hstep;
      try (destruct (generate_in fuel env) as [[[q e1]|e]|] eqn:Hg;
           try discriminate; apply generate_in_inv in Hg as [_ Hg]);
      injection Hstep as <- <-; cbn [is_tick is_correct_answer timeRemaining
        score gameState localStorage];
      try (repeat split; try lia; try assumption;
           replace (0 + count is_tick actions) with (count is_tick actions)
             by lia; reflexivity).
    repeat split; try lia.
    destruct (Z.eqb_spec (Z.max 0 (timeRemaining s - 1)) 0) as [E | E].
    + replace ((0 <? 1 + count is_tick actions)
               && (timeRemaining s <=? 1 + count is_tick actions))
        with true by lia.
      destruct (_ && _); reflexivity.
    + replace (Z.max 0 (timeRemaining s - 1) <=? count is_tick actions)
        with (timeRemaining s <=? 1 + count is_tick actions) by lia.
      replace (0 <? 1 + count is_tick actions) with true by lia.
      destruct (Z.ltb_spec 0 (count is_tick actions)) as [G | G];
        [reflexivity|].
      replace (timeRemaining s <=? 1 + count is_tick actions) with false
        by lia.
      reflexivity.
Qed.

(** X5: a game that [START_GAME] starts, followed by any actions other
    than [START_GAME] and [RETURN_TO_MENU], has timeRemaining equal to 30
    less the number of [TICK] actions (and 0 after 30 of them), a score
    equal to the number of [CORRECT_ANSWER] actions, and the phase
    PLAYING until the thirtieth [TICK] and GAME_OVER from then on; the
    storage is not modified. *)
Theorem game_play fuel env state s0 env0 actions s' env' :
  gameReducer fuel env state START_GAME = Some (Normal (s0, env0)) ->
  forallb in_game actions = true ->
  dispatch_all fuel env0 s0 actions = Some (Normal (s', env')) ->
  let ticks := count is_tick actions in
  timeRemaining s' = Z.max 0 (30 - ticks)
  /\ score s' = count is_correct_answer actions
  /\ gameState s' = (if 30 <=? ticks then GAME_OVER else PLAYING)
  /\ localStorage env' = localStorage env.
Proof.
  intros Hstart Hin H. cbn [gameReducer] in Hstart.
  destruct (generate_in fuel env) as [[[q e1]|e]|] eqn:Hg; try discriminate.
  apply generate_in_inv in Hg as [_ Hg]. injection Hstart as <- <-.
  apply dispatch_in_game in H; [|exact Hin | cbn; lia].
  cbn [timeRemaining score gameState] in H. cbn zeta in *.
  destruct H as (Ht & Hs & Hgs & Hl).
  pose proof (count_nonneg is_tick actions) as Hn.
  repeat split; try assumption; try congruence.
  rewrite Hgs.
  destruct (Z.leb_spec 30 (count is_tick actions)) as [G | G].
  - replace (0 <? count is_tick actions) with true by lia. reflexivity.
  - rewrite andb_false_r. reflexivity.
Qed.

Lemma game_play_witness :
  exists s0 env0 s' env',
    gameReducer 2 example_env INITIAL_STATE START_GAME
    = Some (Normal (s0, env0))
    /\ dispatch_all 2 env0 s0 [TICK; CORRECT_ANSWER; TICK]
       = Some (Normal (s', env'))
    /\ timeRemaining s' = 28 /\ score s' = 1 /\ gameState s' = PLAYING.
Proof.
  pose (r := gameReducer 2 example_env INITIAL_STATE START_GAME).
  destruct r as [[[s0 env0]|e]|] eqn:Hr0; [| |].
  all: cycle 1.
  - exfalso. subst r. vm_compute in Hr0. discriminate.
  - exfalso. subst r. vm_compute in Hr0. discriminate.
  - subst r.
    destruct (dispatch_all 2 env0 s0 [TICK; CORRECT_ANSWER; TICK])
      as [[[s' env']|e]|] eqn:Hr1.
    + exists s0, env0, s', env'.
      destruct (game_play 2 example_env INITIAL_STATE s0 env0
                  [TICK; CORRECT_ANSWER; TICK] s' env' Hr0 eq_refl Hr1)
        as (Ht & Hs & Hg & _).
      repeat split; assumption.
    + exfalso. vm_compute in Hr0. injection Hr0 as <- <-.
      vm_compute in Hr1. discriminate.
    + exfalso. vm_compute in Hr0. injection Hr0 as <- <-.
      vm_compute in Hr1. discriminate.
Defined.

End GameInvariants.

(** ** The validation of the input *)

Section Validation.

Import MathProblem.

Lemma useAutoValidation_isCorrect userInput p :
  useAutoValidation userInput (Some p) = isCorrect p userInput.
Proof.
  unfold useAutoValidation.
  destruct userInput as [|c u]; cbn [truthy negb].
  - symmetry. apply isCorrect_NaN. reflexivity.
  - unfold isNaN.
    destruct (parseFloat (c :: u)) eqn:E; cbn [Number.is_nan]; try reflexivity.
    symmetry. apply isCorrect_NaN, E.
Qed.

(** X6: the effect of [useAutoValidation] calls [onCorrect] exactly when
    there is a current problem and [isCorrect] accepts the input: its
    early returns for an empty input and for an input that parses to NaN
    never suppress an answer [isCorrect] would accept. *)
Theorem useAutoValidation_spec userInput currentProblem :
  useAutoValidation userInput currentProblem = true
  <-> exists p, currentProblem = Some p /\ isCorrect p userInput = true.
Proof.
  destruct currentProblem as [p|].
  - rewrite useAutoValidation_isCorrect. split.
    + intros H. exists p. split; [reflexivity | exact H].
    + intros (q & [= <-] & H). exact H.
  - split; [discriminate | intros (q & [=] & _)].
Qed.

Lemma well_formed_generated p : well_formed_problem p -> generated p.
Proof.
  intros (Ha & Hb & Hdiv & Hsub & Hans).
  exists (operand1 p), (operand2 p), (operation p).
  assert (Hr : rejected (operand1 p) (operand2 p) (operation p) = false).
  { apply rejected_false; [lia|].
    destruct (decide (operation p = DIVISION)) as [E | E];
      [right | left; exact E].
    apply Z.rem_divide; [lia | auto]. }
  repeat split; try lia; try assumption.
  assert (Hb0 : build (operand1 p) (operand2 p) (operation p)
                = MathProblem.new (operand1 p) (operand2 p) (operation p)).
  { unfold build.
    destruct (bool_decide_reflect (operation p = SUBTRACTION)) as [E | E];
      cbn [andb]; [|reflexivity].
    specialize (Hsub E).
    replace (operand1 p <? operand2 p) with false by lia. reflexivity. }
  assert (Hg : generated (MathProblem.new (operand1 p) (operand2 p)
                            (operation p))).
  { exists (operand1 p), (operand2 p), (operation p).
    repeat split; try lia; auto. }
  apply generated_answer in Hg as (Hg & _). cbn in Hg.
  rewrite Hb0. destruct p as [a b op ans]; cbn in *.
  unfold MathProblem.new. f_equal. congruence.
Qed.

Lemma generated_round_trip p :
  generated p -> isCorrect p (Print.Number_toString (answer p)) = true.
Proof.
  intros (a & b & op & -> & Hr & Ha & Hb).
  pose proof all_samples_round_trip as Hall.
  rewrite forallb_forall in Hall.
  specialize (Hall (a, b, op)). cbn beta iota in Hall.
  rewrite Hr in Hall. apply Hall.
  apply list_elem_of_In, elem_of_all_samples; assumption.
Qed.

(** X7: in every state the reducer can reach that has a current problem,
    entering the answer as [Number::toString] prints it makes the effect
    of [useAutoValidation] call [onCorrect]; the [CORRECT_ANSWER] it
    dispatches adds exactly one to the score and leaves a state in which
    the effect does not call [onCorrect] again, the input being empty. *)
Theorem answer_scores_once fuel env state p :
  reachable state -> currentProblem state = Some p ->
  exists s1,
    gameReducer fuel env state
      (UPDATE_INPUT (Print.Number_toString (answer p)))
    = Some (Normal (s1, env))
    /\ useAutoValidation (userInput s1) (currentProblem s1) = true
    /\ forall s2 env2,
         gameReducer fuel env s1 CORRECT_ANSWER = Some (Normal (s2, env2)) ->
         score s2 = score state + 1
         /\ userInput s2 = []
         /\ useAutoValidation (userInput s2) (currentProblem s2) = false.
Proof.
  intros Hreach Hp.
  apply reachable_game_invariant in Hreach as (_ & _ & _ & _ & Hwf & _).
  specialize (Hwf p Hp).
  eexists. split; [reflexivity|]. cbn [userInput currentProblem].
  split.
  - rewrite Hp, useAutoValidation_isCorrect.
    apply generated_round_trip, well_formed_generated, Hwf.
  - intros s2 env2 H. cbn [gameReducer] in H.
    destruct (generate_in fuel env) as [[[q e1]|e]|]; try discriminate.
    injection H as <- <-. cbn. repeat split.
Qed.

Lemma example_state_reachable : reachable example_state.
Proof.
  apply (reachable_step 2 example_env INITIAL_STATE START_GAME
           example_state (with_drawn example_env 6)); [constructor|].
  reflexivity.
Defined.

Lemma answer_scores_once_witness :
  exists s1,
    gameReducer 2 example_env example_state
      (UPDATE_INPUT
         (Print.Number_toString (answer (MathProblem.new 9 1 SUBTRACTION))))
    = Some (Normal (s1, example_env))
    /\ useAutoValidation (userInput s1) (currentProblem s1) = true
    /\ forall s2 env2,
         gameReducer 2 example_env s1 CORRECT_ANSWER
         = Some (Normal (s2, env2)) ->
         score s2 = score example_state + 1
         /\ userInput s2 = []
         /\ useAutoValidation (userInput s2) (currentProblem s2) = false.
Proof.
  apply (answer_scores_once 2 example_env example_state
           (MathProblem.new 9 1 SUBTRACTION)).
  - exact example_state_reachable.
  - reflexivity.
Defined.

End Validation.

(** ** The name of the player *)

Section PlayerName.

Import GameOverScreen.

Local Abbreviation blank := (Forall (fun c => Parse.is_whitespace c = true)).

(** What [skip_whitespace] removes is white space, and what it leaves
    does not start with white space. *)
Lemma skip_whitespace_split s :
  exists l,
    s = l ++ Parse.skip_whitespace s /\ blank l
    /\ match Parse.skip_whitespace s with
       | c :: _ => Parse.is_whitespace c = false
       | [] => True
       end.
Proof.
  induction s as [|c s (l & Hl & Hb & Hh)]; cbn [Parse.skip_whitespace].
  - exists []. repeat split. constructor.
  - destruct (Parse.is_whitespace c) eqn:Hc.
    + exists (c :: l). cbn. rewrite <- Hl. repeat split; [|exact Hh].
      constructor; assumption.
    + exists []. repeat split; [constructor | exact Hc].
Qed.

Lemma skip_whitespace_blank s : blank s -> Parse.skip_whitespace s = [].
Proof.
  induction 1 as [|c s Hc _ IH]; [reflexivity|].
  cbn [Parse.skip_whitespace]. rewrite Hc. exact IH.
Qed.

(** [trim] removes white space at both ends and leaves a string that
    neither starts nor ends with white space. *)
Lemma trim_split s :
  exists l r,
    s = l ++ Runtime.trim s ++ r /\ blank l /\ blank r
    /\ (Runtime.trim s = []
        \/ exists c d middle rest,
             Runtime.trim s = c :: rest
             /\ Runtime.trim s = middle ++ [d]
             /\ Parse.is_whitespace c = false
             /\ Parse.is_whitespace d = false).
Proof.
  unfold Runtime.trim.
  destruct (skip_whitespace_split s) as (l & Hl & Hbl & Hh).
  set (m := Parse.skip_whitespace s) in *.
  destruct (skip_whitespace_split (rev m)) as (l2 & Hl2 & Hbl2 & Hh2).
  set (t := Parse.skip_whitespace (rev m)) in *.
  assert (Hm : m = rev t ++ rev l2).
  { rewrite <- (rev_involutive m), Hl2, rev_app_distr. reflexivity. }
  exists l, (rev l2). split; [rewrite <- Hm; exact Hl|].
  split; [exact Hbl|].
  split.
  { apply Forall_forall. intros x Hx. apply list_elem_of_In in Hx.
    apply in_rev in Hx. apply list_elem_of_In in Hx.
    rewrite Forall_forall in Hbl2. apply Hbl2, Hx. }
  destruct t as [|d t']; [left; reflexivity | right].
  cbn [rev] in *.
  destruct (rev t' ++ [d]) as [|c rest] eqn:Ht.
  { destruct (rev t'); discriminate Ht. }
  exists c, d, (rev t'), rest. repeat split.
  - symmetry. exact Ht.
  - rewrite Hm in Hh. cbn in Hh. exact Hh.
  - exact Hh2.
Qed.

Lemma trim_blank s : blank s -> Runtime.trim s = [].
Proof.
  intros H. unfold Runtime.trim. rewrite (skip_whitespace_blank s H).
  reflexivity.
Qed.

Lemma trim_nil_blank s : Runtime.trim s = [] -> blank s.
Proof.
  intros H. destruct (trim_split s) as (l & r & Hs & Hl & Hr & _).
  rewrite H in Hs. rewrite Hs. cbn. apply Forall_app. split; assumption.
Qed.

(** X8: [handleSave] of the game-over screen calls [onSaveScore] only
    when the score has not been saved yet and the name is not blank; the
    name it passes is the typed name without the white space at its two
    ends, so it is not empty and neither starts nor ends with white
    space; it then marks the score as saved, and a second [handleSave]
    passes nothing. When the score has been saved or the name is blank,
    it calls nothing and changes nothing. *)
Theorem handleSave_spec st :
  match handleSave st with
  | (Some name, st') =>
      saved st = false /\ saved st' = true
      /\ playerName st' = playerName st
      /\ (exists l r, playerName st = l ++ name ++ r /\ blank l /\ blank r)
      /\ (exists c d middle rest,
            name = c :: rest /\ name = middle ++ [d]
            /\ Parse.is_whitespace c = false
            /\ Parse.is_whitespace d = false)
      /\ handleSave st' = (None, st')
  | (None, st') => st' = st /\ (saved st = true \/ blank (playerName st))
  end.
Proof.
  unfold handleSave.
  destruct (trim_split (playerName st)) as (l & r & Hs & Hl & Hr & Ht).
  destruct (Runtime.trim (playerName st)) as [|c name] eqn:E;
    cbn [truthy andb].
  - split; [reflexivity|]. right. apply trim_nil_blank, E.
  - destruct (saved st) eqn:Hsaved; cbn [negb].
    + split; [reflexivity | left; reflexivity].
    + cbn [saved playerName]. rewrite E. cbn [truthy negb andb].
      repeat split.
      * exists l, r. repeat split; assumption.
      * destruct Ht as [Ht | Ht]; [discriminate Ht | exact Ht].
Qed.

End PlayerName.

(** ** What the game screen shows *)

Section Display.

Import MathProblem.

Lemma progressPercentage_all :
  forallb (fun t =>
             let p := GameScreen.progressPercentage t in
             Number.is_finite p
             && negb (Number.ltb p (Number.of_Z 0))
             && negb (Number.ltb (Number.of_Z 100) p)
             && ((t =? 30)
                 || Number.ltb p (GameScreen.progressPercentage (t + 1))))
    (seqZ 0 31)
  = true.
Proof. vm_compute. reflexivity. Qed.

(** X9: in every state the reducer can reach, the width of the progress
    bar, [(timeRemaining / 30) * 100] on Numbers, is a finite Number that
    is neither below 0 nor above 100; it is exactly 100 at the 30 seconds
    of a new game and 0 when the time is up, and for less than 30
    seconds it is smaller than the width for one second more. *)
Theorem progressPercentage_range state :
  reachable state ->
  let t := timeRemaining state in
  let p := GameScreen.progressPercentage t in
  Number.is_finite p = true
  /\ Number.ltb p (Number.of_Z 0) = false
  /\ Number.ltb (Number.of_Z 100) p = false
  /\ (t = 30 -> p = Number.of_Z 100)
  /\ (t = 0 -> p = Number.of_Z 0)
  /\ (t < 30 ->
      Number.ltb p (GameScreen.progressPercentage (t + 1)) = true).
Proof.
  intros Hreach.
  apply reachable_game_invariant in Hreach as (Ht & _).
  cbn zeta. set (t := timeRemaining state) in *.
  pose proof progressPercentage_all as Hall.
  rewrite forallb_forall in Hall.
  specialize (Hall t ltac:(apply list_elem_of_In, elem_of_seqZ; lia)).
  cbn zeta in Hall.
  apply andb_prop in Hall as [Hall Hnext].
  apply andb_prop in Hall as [Hall Hhi].
  apply andb_prop in Hall as [Hfin Hlo].
  apply negb_true_iff in Hlo, Hhi.
  repeat split; try assumption.
  - intros ->. vm_compute. reflexivity.
  - intros ->. vm_compute. reflexivity.
  - intros Hlt. replace (t =? 30) with false in Hnext by lia.
    exact Hnext.
Qed.

Lemma progressPercentage_range_witness :
  let p := GameScreen.progressPercentage 30 in
  Number.is_finite p = true
  /\ Number.ltb p (Number.of_Z 0) = false
  /\ Number.ltb (Number.of_Z 100) p = false
  /\ (30 = 30 -> p = Number.of_Z 100)
  /\ (30 = 0 -> p = Number.of_Z 0)
  /\ (30 < 30 ->
      Number.ltb p (GameScreen.progressPercentage (30 + 1)) = true).
Proof.
  apply (progressPercentage_range example_state).
  apply (reachable_step 2 example_env INITIAL_STATE START_GAME
           example_state (with_drawn example_env 6)); [constructor|].
  reflexivity.
Defined.

Lemma toString_all :
  forallb (fun '(a, b, op) =>
             rejected a b op
             || let p := build a b op in
                bool_decide
                  (toString p
                   = [(48 + Z.to_N (operand1 p))%N; 32%N]
                     ++ symbol (operation p)
                     ++ [32%N; (48 + Z.to_N (operand2 p))%N]))
    all_samples
  = true.
Proof. vm_compute. reflexivity. Qed.

(** X10: the text [toString] gives for a problem the generator returned
    is five characters long: the digit of operand1, a space, the symbol
    of the operation, a space and the digit of operand2. *)
Theorem generate_toString fuel random drawn p drawn' :
  ProblemGenerator.generate fuel random drawn = Some (Normal (p, drawn')) ->
  toString p
  = [(48 + Z.to_N (operand1 p))%N; 32%N]
    ++ symbol (operation p)
    ++ [32%N; (48 + Z.to_N (operand2 p))%N]
  /\ length (toString p) = 5%nat.
Proof.
  intros H. apply generate_generated in H.
  destruct H as (a & b & op & -> & Hr & Ha & Hb).
  pose proof toString_all as Hall.
  rewrite forallb_forall in Hall.
  specialize (Hall (a, b, op)
                ltac:(apply list_elem_of_In, elem_of_all_samples; assumption)).
  cbn beta iota zeta in Hall. rewrite Hr in Hall. cbn [orb] in Hall.
  apply bool_decide_eq_true_1 in Hall. split; [exact Hall|].
  rewrite Hall. destruct (operation (build a b op)); reflexivity.
Qed.

Lemma generate_toString_witness :
  toString (MathProblem.new 9 1 SUBTRACTION) = js "9 - 1"
  /\ length (toString (MathProblem.new 9 1 SUBTRACTION)) = 5%nat.
Proof.
  refine (generate_toString 2 (source_of [8; 4; 12; 15; 0; 4]) 0
            (MathProblem.new 9 1 SUBTRACTION) 6 _).
  vm_compute. reflexivity.
Defined.

End Display.

(** ** The stored text read back *)

Section JsonRoundTrip.

Import JSON.

Lemma hex_value_digit n : (n < 16)%N -> hex_value (hex_digit n) = Some n.
Proof.
  intros H.
  destruct n as [|p]; [reflexivity|].
  do 4 (destruct p as [p|p|]; try reflexivity); exfalso; lia.
Qed.

Lemma parse_string_unicode h1 h2 h3 h4 r :
  parse_string (92 :: 117 :: h1 :: h2 :: h3 :: h4 :: r)%N
  = match hex_value h1, hex_value h2, hex_value h3, hex_value h4,
          parse_string r with
    | Some a, Some b, Some c, Some d, Some (cs, r3) =>
        Some ((((a * 16 + b) * 16 + c) * 16 + d)%N :: cs, r3)
    | _, _, _, _, _ => None
    end.
Proof. reflexivity. Qed.

Lemma parse_unicode_escape c r cs r' :
  (c < 65536)%N -> parse_string r = Some (cs, r') ->
  parse_string (unicode_escape c ++ r) = Some (c :: cs, r').
Proof.
  intros Hc Hr. unfold unicode_escape. cbn [app].
  rewrite parse_string_unicode, !hex_value_digit, Hr
    by (apply N.mod_lt; discriminate).
  do 3 f_equal. clear Hr.
  zify. Z.to_euclidean_division_equations. lia.
Qed.

Lemma parse_string_verbatim c r cs r' :
  c <> 34%N -> c <> 92%N -> (32 <= c)%N ->
  parse_string r = Some (cs, r') ->
  parse_string (c :: r) = Some (c :: cs, r').
Proof.
  intros H1 H2 H3 Hr. cbn [parse_string].
  rewrite !bool_decide_eq_false_2 by assumption.
  rewrite (proj2 (N.ltb_ge c 32) H3).
  rewrite Hr. reflexivity.
Qed.

Lemma parse_string_quote_char c r cs r' :
  is_high_surrogate c = false -> is_low_surrogate c = false ->
  parse_string r = Some (cs, r') ->
  parse_string (quote_char c ++ r) = Some (c :: cs, r').
Proof.
  intros _ _ Hr. unfold quote_char.
  repeat (case_bool_decide;
          [subst c;
           match goal with
           | |- parse_string (_ ++ r) = Some (?c :: cs, r') =>
               transitivity
                 (match parse_string r with
                  | Some (cs0, r2) => Some (c :: cs0, r2)
                  | None => None
                  end); [reflexivity | rewrite Hr; reflexivity]
           end|]).
  destruct (N.ltb_spec c 32) as [Hlt | Hge].
  - apply parse_unicode_escape; [lia | exact Hr].
  - apply parse_string_verbatim; assumption.
Qed.

Lemma parse_string_quote_chars_length n :
  forall s rest, (length s <= n)%nat ->
    parse_string (quote_chars s ++ 34%N :: rest) = Some (s, rest).
Proof.
  induction n as [|n IH]; intros s rest Hn.
  - destruct s; [reflexivity | cbn in Hn; lia].
  - destruct s as [|c r]; [reflexivity|]. cbn [length] in Hn.
    cbn [quote_chars].
    destruct (is_high_surrogate c) eqn:Hhi.
    + unfold is_high_surrogate in Hhi.
      apply andb_prop in Hhi as [Hlo Hup].
      apply N.leb_le in Hlo, Hup.
      destruct r as [|c' r'].
      * apply parse_unicode_escape; [lia | reflexivity].
      * destruct (is_low_surrogate c') eqn:Hlow.
        -- unfold is_low_surrogate in Hlow.
           apply andb_prop in Hlow as [Hlo' Hup'].
           apply N.leb_le in Hlo', Hup'.
           cbn [app].
           apply parse_string_verbatim; [lia | lia | lia |].
           apply parse_string_verbatim; [lia | lia | lia |].
           apply IH. cbn [length] in Hn. lia.
        -- rewrite <- app_assoc.
           apply parse_unicode_escape; [lia|].
           apply IH. lia.
    + destruct (is_low_surrogate c) eqn:Hlow.
      * rewrite <- app_assoc.
        unfold is_low_surrogate in Hlow.
        apply andb_prop in Hlow as [Hlo' Hup'].
        apply N.leb_le in Hlo', Hup'.
        apply parse_unicode_escape; [lia|].
        apply IH. lia.
      * rewrite <- app_assoc.
        apply parse_string_quote_char; [assumption | assumption|].
        apply IH. lia.
Qed.

(** A quoted string is read back as it was, whatever follows it. *)
Lemma parse_string_quote s rest :
  parse_string (quote_chars s ++ 34%N :: rest) = Some (s, rest).
Proof. apply (parse_string_quote_chars_length (length s)). lia. Qed.

(** *** Integers printed and read back *)

Local Abbreviation digit_values := (List.map (fun c : N => (c - 48)%N)).

Lemma uint_codes_digits u : Forall (fun c => Parse.is_digit c = true)
                              (Print.uint_codes u).
Proof. induction u; cbn; constructor; auto. Qed.

Lemma scan_digits_all cs rest :
  Forall (fun c => Parse.is_digit c = true) cs ->
  match rest with c :: _ => Parse.is_digit c = false | [] => True end ->
  Parse.scan_digits (cs ++ rest) = (digit_values cs, rest).
Proof.
  intros Hcs Hrest. induction Hcs as [|c cs Hc _ IH]; cbn [app List.map].
  - destruct rest as [|c r]; [reflexivity|]. cbn. rewrite Hrest. reflexivity.
  - cbn [Parse.scan_digits]. rewrite Hc, IH. reflexivity.
Qed.

Lemma fold_digits_acc u acc :
  fold_left (fun a d => 10 * a + Z.of_N d)
    (digit_values (Print.uint_codes u)) (Z.pos acc)
  = Z.pos (Pos.of_uint_acc u acc).
Proof.
  revert acc. induction u; intros acc; cbn [Print.uint_codes List.map fold_left
    Pos.of_uint_acc]; [reflexivity|..];
    match goal with
    | |- fold_left _ _ ?a = _ =>
        match goal with
        | |- _ = Z.pos (Pos.of_uint_acc _ ?p) =>
            replace a with (Z.pos p) by (cbn; lia)
        end
    end; apply IHu.
Qed.

Lemma digits_value_uint u :
  Parse.digits_value (digit_values (Print.uint_codes u))
  = Z.of_N (Pos.of_uint u).
Proof.
  unfold Parse.digits_value.
  induction u; cbn [Print.uint_codes List.map fold_left Pos.of_uint];
    [reflexivity| exact IHu |..];
    match goal with
    | |- fold_left _ _ ?a = Z.of_N (N.pos (Pos.of_uint_acc _ ?p)) =>
        change a with (Z.pos p)
    end; apply fold_digits_acc.
Qed.

Lemma digits_value_decimal s :
  0 <= s ->
  Parse.digits_value (digit_values (Print.decimal_digits s)) = s.
Proof.
  intros Hs. unfold Print.decimal_digits.
  rewrite digits_value_uint.
  change (Pos.of_uint (N.to_uint (Z.to_N s)))
    with (N.of_uint (N.to_uint (Z.to_N s))).
  rewrite DecimalN.Unsigned.of_to. lia.
Qed.

(** The digits of a positive integer do not start with a zero. *)
Lemma decimal_digits_head s :
  0 < s ->
  exists c cs, Print.decimal_digits s = c :: cs /\ c <> 48%N.
Proof.
  intros Hs. unfold Print.decimal_digits.
  pose proof (DecimalN.Unsigned.to_of (N.to_uint (Z.to_N s))) as Hn.
  rewrite DecimalN.Unsigned.of_to in Hn.
  destruct (N.to_uint (Z.to_N s)) as [|u|u|u|u|u|u|u|u|u|u] eqn:E;
    cbn [Print.uint_codes];
    try (eexists _, _; split; [reflexivity | discriminate]).
  - exfalso. destruct (Z.to_N s) as [|p] eqn:Ez; [discriminate E|].
    cbn in E. apply (DecimalPos.Unsigned.to_uint_nonnil p E).
  - exfalso. unfold Decimal.unorm in Hn.
    rewrite DecimalFacts.nzhead_D0 in Hn.
    destruct (Decimal.nzhead u) eqn:Hu;
      try (symmetry in Hn; eapply DecimalFacts.nzhead_nonzero;
           rewrite Hu; exact Hn).
    injection Hn as ->.
    destruct (Z.to_N s) as [|p] eqn:Ez; [lia|].
    cbn in E. apply (DecimalPos.Unsigned.to_uint_nonzero p E).
Qed.

Lemma zeros_digits j :
  Forall (fun c => Parse.is_digit c = true) (Print.zeros j).
Proof. apply Forall_replicate. reflexivity. Qed.

Lemma fold_digits_zeros n acc :
  fold_left (fun a d => 10 * a + Z.of_N d) (replicate n 0%N) acc
  = acc * 10 ^ Z.of_nat n.
Proof.
  revert acc. induction n as [|n IH]; intros acc.
  - cbn. lia.
  - cbn [replicate fold_left]. rewrite IH.
    rewrite Nat2Z.inj_succ, Z.pow_succ_r by lia. cbn [Z.of_N]. lia.
Qed.

Lemma digits_value_zeros cs j :
  0 <= j ->
  Parse.digits_value (digit_values (cs ++ Print.zeros j))
  = Parse.digits_value (digit_values cs) * 10 ^ j.
Proof.
  intros Hj. unfold Parse.digits_value, Print.zeros.
  rewrite List.map_app, fold_left_app.
  change (digit_values (replicate (Z.to_nat j) 48%N))
    with (List.map (fun c : N => (c - 48)%N) (replicate (Z.to_nat j) 48%N)).
  replace (List.map (fun c : N => (c - 48)%N) (replicate (Z.to_nat j) 48%N))
    with (replicate (Z.to_nat j) 0%N).
  - rewrite fold_digits_zeros. rewrite Z2Nat.id by lia. reflexivity.
  - induction (Z.to_nat j) as [|n IH]; [reflexivity|].
    cbn [replicate List.map]. rewrite <- IH. reflexivity.
Qed.

Local Abbreviation stops rest :=
  (match rest with
   | c :: _ => continues_number c = false
   | [] => True
   end).

Lemma of_decimal_shift s j :
  0 < s -> 0 <= j ->
  Number.of_decimal false (s * 10 ^ j) 0 = Number.of_decimal false s j.
Proof.
  intros Hs Hj. unfold Number.of_decimal.
  assert (0 < 10 ^ j) by (apply Z.pow_pos_nonneg; lia).
  destruct s as [|p|p]; try lia.
  replace (0 <=? j) with true by lia.
  destruct (Z.pos p * 10 ^ j) as [|q|q] eqn:E; try lia.
  cbn [Z.leb Z.compare]. rewrite Z.pow_0_r, Z.mul_1_r. reflexivity.
Qed.

Lemma parse_number_digits cs rest :
  Forall (fun c => Parse.is_digit c = true) cs ->
  (exists c cs', cs = c :: cs' /\ (c <> 48%N \/ cs' = [])) ->
  stops rest ->
  parse_number (cs ++ rest)
  = Some (Number.of_decimal false (Parse.digits_value (digit_values cs)) 0,
          rest).
Proof.
  intros Hcs (c & cs' & -> & Hc) Hrest.
  assert (Hd : Parse.is_digit c = true) by (inversion Hcs; assumption).
  assert (Hrest' : match rest with
                   | c :: _ => Parse.is_digit c = false
                   | [] => True
                   end).
  { destruct rest as [|r0 rest]; [exact I|].
    unfold continues_number in Hrest.
    apply orb_false_iff in Hrest as [Hr _]. exact Hr. }
  unfold parse_number. cbn [app].
  assert (Hneg : bool_decide (c = 45%N) = false).
  { apply bool_decide_eq_false_2. intros ->. discriminate Hd. }
  rewrite Hneg.
  change (c :: cs' ++ rest) with ((c :: cs') ++ rest).
  rewrite (scan_digits_all (c :: cs') rest Hcs Hrest').
  cbn [List.map].
  assert (Hz : bool_decide ((c - 48)%N = 0%N)
               && negb (bool_decide (digit_values cs' = [])) = false).
  { destruct Hc as [Hc | ->]; [|apply andb_false_r].
    rewrite bool_decide_eq_false_2; [reflexivity|].
    unfold Parse.is_digit in Hd. apply andb_prop in Hd as [Hd _].
    apply N.leb_le in Hd. lia. }
  rewrite Hz.
  destruct rest as [|r0 rest].
  - cbn. rewrite app_nil_r. reflexivity.
  - unfold continues_number in Hrest.
    apply orb_false_iff in Hrest as [_ Hr].
    apply bool_decide_eq_false in Hr.
    assert (r0 <> 46%N /\ r0 <> 101%N /\ r0 <> 69%N) as (H46 & H101 & H69).
    { repeat split; intros ->; apply Hr; repeat constructor. }
    cbn [Parse.scan_fraction]. rewrite (bool_decide_eq_false_2 _ H46).
    cbn [mbind option_bind].
    rewrite (bool_decide_eq_false_2 _ H101), (bool_decide_eq_false_2 _ H69).
    cbn [orb mbind option_bind]. rewrite app_nil_r. reflexivity.
Qed.

(** The digits of a positive integer [s] followed by [j] zeros are read
    as [s * 10^j]. *)
Lemma parse_number_integer s j rest :
  0 < s -> 0 <= j -> stops rest ->
  parse_number ((Print.decimal_digits s ++ Print.zeros j) ++ rest)
  = Some (Number.of_decimal false s j, rest).
Proof.
  intros Hs Hj Hrest.
  destruct (decimal_digits_head s Hs) as (c & cs & E & Hc).
  rewrite parse_number_digits; [| | |exact Hrest].
  - rewrite digits_value_zeros, digits_value_decimal by lia.
    rewrite of_decimal_shift by lia. reflexivity.
  - apply Forall_app. split; [apply uint_codes_digits | apply zeros_digits].
  - rewrite E. cbn [app]. eauto.
Qed.

Lemma parse_number_zero rest :
  stops rest ->
  parse_number (js "0" ++ rest) = Some (Number.of_Z 0, rest).
Proof.
  intros Hrest.
  rewrite parse_number_digits; [reflexivity| | |exact Hrest].
  - repeat constructor.
  - exists 48%N, []. split; [reflexivity | right; reflexivity].
Qed.

Lemma SFeqb_finite_eq y sg m e :
  SFeqb y (S754_finite sg m e) = true -> y = S754_finite sg m e.
Proof.
  unfold SFeqb. destruct y as [s0|s0| |s0 m0 e0]; cbn [SFcompare].
  - destruct sg; discriminate.
  - destruct s0; discriminate.
  - discriminate.
  - destruct s0, sg; try discriminate.
    + destruct (Z.compare_spec e0 e) as [-> | |]; try discriminate.
      rewrite Pos.compare_cont_spec. cbn [Pos.switch_Eq].
      destruct (Pos.compare_spec m0 m) as [-> | |]; try discriminate.
      reflexivity.
    + destruct (Z.compare_spec e0 e) as [-> | |]; try discriminate.
      rewrite Pos.compare_cont_spec. cbn [Pos.switch_Eq].
      destruct (Pos.compare_spec m0 m) as [-> | |]; try discriminate.
      reflexivity.
Qed.

Lemma SFeqb_finite_refl sg m e :
  SFeqb (S754_finite sg m e) (S754_finite sg m e) = true.
Proof.
  unfold SFeqb. cbn [SFcompare]. rewrite Z.compare_refl.
  rewrite Pos.compare_cont_spec, Pos.compare_refl.
  destruct sg; reflexivity.
Qed.

Section ShortestInteger.

(** The Number [x] is the positive integer [z = num / den], which has at
    most 16 digits, and is the Number the decimal [z] rounds to. *)
Variables (x : Number.t) (num den z : Z).
Hypothesis den_pos : 0 < den.
Hypothesis z_pos : 0 < z.
Hypothesis z_small : z < 10 ^ 16.
Hypothesis num_eq : num = z * den.
Hypothesis x_finite : exists m e, x = S754_finite false m e.
Hypothesis x_eq : Number.of_decimal false z 0 = x.

Lemma magnitude_up_bounds fuel :
  forall p n j,
    (j <= fuel)%nat -> 0 < p -> num < p * 10 ^ Z.of_nat j ->
    n <= Print.magnitude_up num fuel p n <= n + Z.of_nat j.
Proof.
  induction fuel as [|fuel IH]; intros p n j Hj Hp Hnum;
    cbn [Print.magnitude_up].
  - lia.
  - destruct (Z.ltb_spec num p) as [Hlt | Hge]; [lia|].
    destruct j as [|j]; [cbn in Hnum; lia|].
    rewrite Nat2Z.inj_succ, Z.pow_succ_r in Hnum by lia.
    specialize (IH (10 * p) (n + 1) j ltac:(lia) ltac:(lia) ltac:(lia)).
    lia.
Qed.

Lemma n0_bounds : 1 <= Print.n0 num den <= 16.
Proof.
  unfold Print.n0.
  replace (num <? den) with false by nia.
  pose proof (magnitude_up_bounds 400 (10 * den) 1 15 ltac:(lia) ltac:(lia))
    as H.
  change (Z.of_nat 15) with 15 in H. change (10 ^ 15) with 1000000000000000 in H.
  change (10 ^ 16) with 10000000000000000 in z_small.
  specialize (H ltac:(nia)). lia.
Qed.

Lemma candidates_n0 :
  exists c, Print.candidates num den (Print.n0 num den)
            = [(z, Print.n0 num den); c].
Proof.
  unfold Print.candidates. rewrite Z.sub_diag.
  assert (E : Print.scaled_floor num den 0 = z).
  { unfold Print.scaled_floor. cbn [Z.leb Z.compare].
    rewrite Z.pow_0_r, Z.mul_1_r, num_eq. apply Z.div_mul. lia. }
  rewrite E. cbn zeta.
  assert (C : Print.compare_midpoint num den z 0 = Lt).
  { unfold Print.compare_midpoint. cbn [Z.leb Z.compare].
    rewrite Z.pow_0_r, Z.mul_1_r, num_eq. apply Z.compare_lt_iff. nia. }
  rewrite C. eexists. reflexivity.
Qed.

Lemma round_trips_n0 :
  Print.round_trips x z (Print.n0 num den) (Print.n0 num den) = true.
Proof.
  unfold Print.round_trips. rewrite Z.sub_diag, x_eq.
  destruct x_finite as (m & e & ->). apply SFeqb_finite_refl.
Qed.

Lemma shortest_step fuel k :
  Print.shortest x num den fuel k
  = match List.filter (fun '(s, n) => Print.round_trips x s n k)
            (Print.candidates num den k) with
    | (s, n) :: _ => (s, n, k)
    | [] =>
        match fuel with
        | O => (Print.scaled_floor num den (Print.n0 num den - k),
                Print.n0 num den, k)
        | S fuel' => Print.shortest x num den fuel' (k + 1)
        end
    end.
Proof. destruct fuel; reflexivity. Qed.

Lemma shortest_found fuel :
  forall k,
    1 <= k <= Print.n0 num den ->
    Print.n0 num den - k <= Z.of_nat fuel ->
    exists s n k',
      Print.shortest x num den fuel k = (s, n, k')
      /\ k <= k' <= Print.n0 num den
      /\ In (s, n) (Print.candidates num den k')
      /\ Print.round_trips x s n k' = true.
Proof.
  induction fuel as [|fuel IH]; intros k Hk Hfuel; rewrite shortest_step.
  - assert (k = Print.n0 num den) as -> by lia.
    destruct candidates_n0 as (c & Hc). rewrite Hc.
    cbn [List.filter]. rewrite round_trips_n0.
    eexists _, _, _. split; [reflexivity|].
    split; [lia|].
    split; [rewrite Hc; apply in_eq | apply round_trips_n0].
  - destruct (List.filter _ (Print.candidates num den k))
      as [|[s n] l] eqn:Hf.
    + destruct (Z.eq_dec k (Print.n0 num den)) as [-> | Hne].
      * exfalso. destruct candidates_n0 as (c & Hc). rewrite Hc in Hf.
        cbn [List.filter] in Hf. rewrite round_trips_n0 in Hf.
        discriminate Hf.
      * destruct (IH (k + 1) ltac:(lia) ltac:(lia))
          as (s & n & k' & H1 & H2 & H3 & H4).
        exists s, n, k'. repeat split; try assumption; lia.
    + assert (Hin : In (s, n)
                      (List.filter (fun '(s, n) => Print.round_trips x s n k)
                         (Print.candidates num den k)))
        by (rewrite Hf; left; reflexivity).
      apply filter_In in Hin as [Hin Hrt].
      exists s, n, k. repeat split; try assumption; lia.
Qed.

Lemma scaled_floor_nonneg sc : 0 <= Print.scaled_floor num den sc.
Proof.
  unfold Print.scaled_floor.
  assert (0 <= num) by nia.
  destruct (0 <=? sc) eqn:E.
  - apply Z.div_pos; [assumption|].
    apply Z.mul_pos_pos; [assumption|]. apply Z.pow_pos_nonneg; lia.
  - apply Z.div_pos; [|assumption].
    apply Z.mul_nonneg_nonneg; [assumption|]. apply Z.pow_nonneg. lia.
Qed.

Lemma candidates_range k s n :
  1 <= k -> In (s, n) (Print.candidates num den k) ->
  0 <= s /\ Print.n0 num den <= n <= Print.n0 num den + 1.
Proof.
  intros Hk. unfold Print.candidates.
  pose proof (scaled_floor_nonneg (Print.n0 num den - k)) as Hlo.
  set (lo := Print.scaled_floor num den (Print.n0 num den - k)) in *.
  assert (0 < 10 ^ (k - 1)) by (apply Z.pow_pos_nonneg; lia).
  cbn zeta.
  destruct (Print.compare_midpoint num den lo _);
    try destruct (Z.even lo);
    destruct (lo + 1 =? 10 ^ k);
    cbn [In]; intros Hin; destruct Hin as [Hin | [Hin | []]];
    injection Hin as <- <-; lia.
Qed.

(** The digits [Number::toString] prints for [x] are those of an
    integer [s] followed by zeros, and read back as [x]. *)
Lemma shortest_integer :
  exists s j,
    0 < s /\ 0 <= j
    /\ (let '(s', n, k) := Print.shortest x num den 16 1 in
        Print.layout s' n k)
       = Print.decimal_digits s ++ Print.zeros j
    /\ Number.of_decimal false s j = x.
Proof.
  pose proof n0_bounds as Hn0.
  destruct (shortest_found 16 1 ltac:(lia) ltac:(lia))
    as (s & n & k & Hs & Hk & Hin & Hrt).
  rewrite Hs.
  apply candidates_range in Hin as [Hs0 Hn]; [|lia].
  unfold Print.round_trips in Hrt.
  destruct x_finite as (m & e & Hx). rewrite Hx in Hrt.
  apply SFeqb_finite_eq in Hrt.
  exists s, (n - k).
  assert (0 < s).
  { destruct (Z.eq_dec s 0) as [-> | ]; [discriminate Hrt | lia]. }
  repeat split; try lia.
  - unfold Print.layout.
    replace (k <=? n) with true by lia. replace (n <=? 21) with true by lia.
    reflexivity.
  - rewrite Hx. exact Hrt.
Qed.

End ShortestInteger.

Lemma of_decimal_of_Z z : 0 < z -> Number.of_decimal false z 0 = Number.of_Z z.
Proof.
  intros Hz. destruct z as [|p|p]; try lia.
  unfold Number.of_decimal, Number.of_Z, binary_normalize.
  cbn [Z.leb Z.compare]. rewrite Z.pow_0_r, Z.mul_1_r. reflexivity.
Qed.

(** A positive integer below [2^53] is a Number, exactly. *)
Lemma of_Z_exact z :
  0 < z < 2 ^ 53 ->
  exists m e,
    Number.of_Z z = S754_finite false m e /\ e <= 0
    /\ Z.pos m = z * 2 ^ (- e).
Proof.
  intros [Hz Hlt]. destruct z as [|p|p]; try lia.
  unfold Number.of_Z, binary_normalize.
  pose proof (digits2_pos_bounds p) as [Hlo Hhi].
  assert (Hd : Z.pos (digits2_pos p) <= 53).
  { destruct (Z.le_gt_cases (Z.pos (digits2_pos p)) 53) as [H | H];
      [exact H|].
    exfalso.
    assert (2 ^ 53 <= 2 ^ (Z.pos (digits2_pos p) - 1))
      by (apply Z.pow_le_mono_r; lia).
    lia. }
  assert (Hf : SpecFloat.fexp Number.prec Number.emax
                 (Z.pos (digits2_pos p) + 0) <= 971)
    by (rewrite fexp_spec; lia).
  destruct (binary_round_exact false p 0 Hd ltac:(lia) Hf) as (m' & Hr & Hm).
  rewrite fexp_spec in Hr, Hm.
  rewrite Z.max_l in Hr, Hm by lia.
  exists m', (Z.pos (digits2_pos p) + 0 - 53).
  refine (conj Hr (conj _ _)); [lia|].
  rewrite Hm. do 2 f_equal.
Qed.

(** The text [Number::toString] prints for an integer score starts
    with a digit and is read back by the number parser of [JSON.parse]
    as the same Number. *)
Lemma parse_number_toString z rest :
  0 <= z < 2 ^ 53 -> stops rest ->
  Number.is_finite (Number.of_Z z) = true
  /\ (exists c cs, Print.Number_toString (Number.of_Z z) = c :: cs
                   /\ Parse.is_digit c = true)
  /\ parse_number (Print.Number_toString (Number.of_Z z) ++ rest)
     = Some (Number.of_Z z, rest).
Proof.
  intros [Hz Hlt] Hrest.
  destruct (Z.eq_dec z 0) as [-> | Hne].
  { split; [reflexivity|]. split; [|apply parse_number_zero, Hrest].
    eexists _, _. split; reflexivity. }
  destruct (of_Z_exact z ltac:(lia)) as (m & e & Hx & He & Hm).
  rewrite Hx. split; [reflexivity|].
  cut (forall text,
         text = Print.Number_toString (S754_finite false m e) ->
         (exists c cs, text = c :: cs /\ Parse.is_digit c = true)
         /\ parse_number (text ++ rest) = Some (S754_finite false m e, rest)).
  { intros H. apply H. reflexivity. }
  intros text ->.
  cbn [Print.Number_toString app].
  assert (0 < 2 ^ (- e)) by (apply Z.pow_pos_nonneg; lia).
  assert (Hsmall : z < 10 ^ 16).
  { change (2 ^ 53) with 9007199254740992 in Hlt.
    change (10 ^ 16) with 10000000000000000. lia. }
  destruct (shortest_integer (S754_finite false m e)
              (if 0 <=? e then Z.pos m * 2 ^ e else Z.pos m)
              (if 0 <=? e then 1 else 2 ^ (- e)) z)
    as (s & j & Hs & Hj & Hl & Hv).
  - destruct (0 <=? e); lia.
  - lia.
  - exact Hsmall.
  - destruct (Z.leb_spec 0 e).
    + assert (e = 0) as -> by lia.
      rewrite Hm. cbn. lia.
    + exact Hm.
  - eauto.
  - rewrite <- Hx. apply of_decimal_of_Z. lia.
  - destruct (Print.shortest _ _ _ 16 1) as [[s' n] k].
    rewrite Hl, <- Hv. split; [|apply parse_number_integer; assumption].
    destruct (decimal_digits_head s Hs) as (c & cs & E & _).
    pose proof (uint_codes_digits (N.to_uint (Z.to_N s))) as Hd.
    fold (Print.decimal_digits s) in Hd. rewrite E in Hd.
    rewrite E. eexists _, _. split; [reflexivity|].
    inversion Hd; assumption.
Qed.

(** *** Records and arrays read back *)

Lemma skip_whitespace_cons c r :
  is_whitespace c = false -> skip_whitespace (c :: r) = c :: r.
Proof. intros H. cbn [skip_whitespace]. rewrite H. reflexivity. Qed.

Lemma parse_value_string fuel s rest :
  parse_value (S fuel) (quote s ++ rest) = Some (JStr s, rest).
Proof.
  rewrite parse_value_step. unfold quote. rewrite <- !app_assoc.
  cbn [app]. rewrite skip_whitespace_cons by reflexivity.
  change (bool_decide (34%N = 91%N)) with false.
  change (bool_decide (34%N = 123%N)) with false.
  change (bool_decide (34%N = 34%N)) with true. cbv iota.
  rewrite parse_string_quote. reflexivity.
Qed.

Lemma digit_not_whitespace c :
  Parse.is_digit c = true -> is_whitespace c = false.
Proof.
  unfold Parse.is_digit, is_whitespace. intros H.
  apply andb_prop in H as [H1 H2]. apply N.leb_le in H1, H2.
  apply bool_decide_eq_false_2. rewrite !elem_of_cons, elem_of_nil. lia.
Qed.

Lemma parse_value_integer fuel z rest :
  storable z -> stops rest ->
  parse_value (S fuel) (Print.Number_toString (Number.of_Z z) ++ rest)
  = Some (JNum (Number.of_Z z), rest).
Proof.
  intros Hz Hrest.
  destruct (parse_number_toString z rest Hz Hrest)
    as (_ & (c & cs & E & Hc) & Hp).
  rewrite parse_value_step. rewrite E in *. cbn [app] in *.
  rewrite skip_whitespace_cons by (apply digit_not_whitespace, Hc).
  unfold Parse.is_digit in Hc.
  apply andb_prop in Hc as [H1 H2]. apply N.leb_le in H1, H2.
  rewrite !bool_decide_eq_false_2 by lia.
  cbn [Parse.strip_prefix js].
  assert (Ht : Parse.strip_prefix (js "true") (c :: cs ++ rest) = None).
  { change (js "true") with (116 :: js "rue")%N. cbn [Parse.strip_prefix].
    rewrite bool_decide_eq_false_2 by lia. reflexivity. }
  assert (Hf : Parse.strip_prefix (js "false") (c :: cs ++ rest) = None).
  { change (js "false") with (102 :: js "alse")%N. cbn [Parse.strip_prefix].
    rewrite bool_decide_eq_false_2 by lia. reflexivity. }
  assert (Hn : Parse.strip_prefix (js "null") (c :: cs ++ rest) = None).
  { change (js "null") with (110 :: js "ull")%N. cbn [Parse.strip_prefix].
    rewrite bool_decide_eq_false_2 by lia. reflexivity. }
  rewrite Ht, Hf, Hn, Hp. reflexivity.
Qed.

Lemma parse_member_more fuel key v text rest acc :
  parse_value fuel (text ++ 44%N :: rest) = Some (v, 44%N :: rest) ->
  parse_members (S fuel) (quote key ++ 58%N :: text ++ 44%N :: rest) acc
  = parse_members fuel rest (set key v acc).
Proof.
  intros Hv. rewrite parse_members_step. unfold quote.
  rewrite <- !app_assoc. cbn [app].
  rewrite skip_whitespace_cons by reflexivity.
  change (bool_decide (34%N = 34%N)) with true. cbv iota.
  rewrite parse_string_quote. cbn [mbind option_bind].
  rewrite skip_whitespace_cons by reflexivity.
  change (bool_decide (58%N = 58%N)) with true. cbv iota.
  rewrite Hv. cbn [mbind option_bind].
  rewrite skip_whitespace_cons by reflexivity.
  change (bool_decide (44%N = 44%N)) with true. reflexivity.
Qed.

Lemma parse_member_last fuel key v text rest acc :
  parse_value fuel (text ++ 125%N :: rest) = Some (v, 125%N :: rest) ->
  parse_members (S fuel) (quote key ++ 58%N :: text ++ 125%N :: rest) acc
  = Some (JObj (set key v acc), rest).
Proof.
  intros Hv. rewrite parse_members_step. unfold quote.
  rewrite <- !app_assoc. cbn [app].
  rewrite skip_whitespace_cons by reflexivity.
  change (bool_decide (34%N = 34%N)) with true. cbv iota.
  rewrite parse_string_quote. cbn [mbind option_bind].
  rewrite skip_whitespace_cons by reflexivity.
  change (bool_decide (58%N = 58%N)) with true. cbv iota.
  rewrite Hv. cbn [mbind option_bind].
  rewrite skip_whitespace_cons by reflexivity.
  change (bool_decide (125%N = 44%N)) with false.
  change (bool_decide (125%N = 125%N)) with true. reflexivity.
Qed.

Lemma stringify_record name z date rest :
  storable z ->
  stringify (ScoreManager.record name z date) ++ rest
  = 123%N :: quote (js "name") ++ 58%N :: quote name
    ++ 44%N :: quote (js "score") ++ 58%N
    :: Print.Number_toString (Number.of_Z z)
    ++ 44%N :: quote (js "date") ++ 58%N :: quote date ++ 125%N :: rest.
Proof.
  intros Hz.
  destruct (parse_number_toString z [] Hz I) as (Hfin & _).
  unfold ScoreManager.record. cbn [stringify List.map join fst snd].
  rewrite Hfin. cbn [app].
  repeat (rewrite <- app_assoc; cbn [app]). reflexivity.
Qed.

Lemma parse_value_object fuel key r :
  parse_value (S fuel) (123%N :: quote key ++ r)
  = parse_members fuel (quote key ++ r) [].
Proof.
  rewrite parse_value_step.
  rewrite skip_whitespace_cons by reflexivity.
  change (bool_decide (123%N = 91%N)) with false.
  change (bool_decide (123%N = 123%N)) with true. cbv iota.
  unfold quote. cbn [app].
  rewrite skip_whitespace_cons by reflexivity.
  change (bool_decide (34%N = 125%N)) with false. reflexivity.
Qed.

Lemma parse_value_record fuel name z date rest :
  storable z ->
  parse_value (S (S (S (S (S fuel)))))
    (stringify (ScoreManager.record name z date) ++ rest)
  = Some (ScoreManager.record name z date, rest).
Proof.
  intros Hz. rewrite stringify_record by exact Hz.
  rewrite parse_value_object.
  rewrite (parse_member_more _ (js "name") (JStr name) (quote name))
    by apply parse_value_string.
  rewrite (parse_member_more _ (js "score") (JNum (Number.of_Z z))
             (Print.Number_toString (Number.of_Z z)))
    by (apply parse_value_integer; [exact Hz | reflexivity]).
  rewrite (parse_member_last _ (js "date") (JStr date) (quote date))
    by apply parse_value_string.
  reflexivity.
Qed.

Lemma parse_elements_records entries :
  forall fuel acc rest,
    entries <> [] ->
    Forall (fun e => storable (entry_score e)) entries ->
    (length entries + 5 <= fuel)%nat ->
    parse_elements fuel
      (join [44%N] (List.map stringify (records entries)) ++ 93%N :: rest) acc
    = Some (JArr (acc ++ records entries), rest).
Proof.
  induction entries as [|e es IH]; intros fuel acc rest Hne Hall Hfuel;
    [congruence|].
  inversion_clear Hall as [|? ? He Hes].
  destruct fuel as [|fuel]; [cbn in Hfuel; lia|].
  cbn [length] in Hfuel.
  do 5 (destruct fuel as [|fuel]; [lia|]).
  rewrite parse_elements_step.
  destruct es as [|e' es'].
  - cbn [records List.map join].
    rewrite parse_value_record by exact He. cbn [mbind option_bind].
    rewrite skip_whitespace_cons by reflexivity.
    change (bool_decide (93%N = 44%N)) with false.
    change (bool_decide (93%N = 93%N)) with true. reflexivity.
  - change (join [44%N] (List.map stringify (records (e :: e' :: es'))))
      with (stringify (ScoreManager.record e.1.1 e.1.2 e.2) ++ [44%N]
            ++ join [44%N] (List.map stringify (records (e' :: es')))).
    rewrite <- !app_assoc. cbn [app].
    rewrite parse_value_record by exact He. cbn [mbind option_bind].
    rewrite skip_whitespace_cons by reflexivity.
    change (bool_decide (44%N = 44%N)) with true. cbv iota.
    rewrite IH; [|discriminate | exact Hes | cbn [length] in *; lia].
    rewrite <- app_assoc. reflexivity.
Qed.

Lemma parse_value_records entries fuel rest :
  Forall (fun e => storable (entry_score e)) entries ->
  (length entries + 6 <= fuel)%nat ->
  parse_value fuel (stringify (JArr (records entries)) ++ rest)
  = Some (JArr (records entries), rest).
Proof.
  intros Hall Hfuel. destruct fuel as [|fuel]; [lia|].
  rewrite parse_value_step. cbn [stringify].
  rewrite <- !app_assoc. cbn [app].
  rewrite skip_whitespace_cons by reflexivity.
  change (bool_decide (91%N = 91%N)) with true. cbv iota.
  destruct entries as [|e es].
  - cbn [records List.map join app].
    rewrite skip_whitespace_cons by reflexivity. reflexivity.
  - assert (Hhead : exists r,
              join [44%N] (List.map stringify (records (e :: es)))
              ++ 93%N :: rest = 123%N :: r).
    { inversion_clear Hall as [|? ? He Hes].
      destruct es as [|e' es'].
      - cbn [records List.map join].
        rewrite stringify_record by exact He. eauto.
      - change (join [44%N] (List.map stringify (records (e :: e' :: es'))))
          with (stringify (ScoreManager.record e.1.1 e.1.2 e.2) ++ [44%N]
                ++ join [44%N] (List.map stringify (records (e' :: es')))).
        rewrite <- !app_assoc.
        rewrite stringify_record by exact He. eauto. }
    destruct Hhead as (r & Hr).
    rewrite Hr at 1.
    rewrite skip_whitespace_cons by reflexivity.
    change (bool_decide (123%N = 93%N)) with false. cbv iota.
    rewrite parse_elements_records;
      [reflexivity | discriminate | exact Hall | cbn [length] in *; lia].
Qed.

(** [JSON.parse] reads the text [JSON.stringify] writes for the records
    of saved scores back as the same records. *)
Lemma parse_stringify_records entries :
  Forall (fun e => storable (entry_score e)) entries ->
  parse (stringify (JArr (records entries))) = Normal (JArr (records entries)).
Proof.
  intros Hall. unfold parse.
  set (text := stringify (JArr (records entries))).
  rewrite <- (parse_fuel_enough text
                (2 * length text + 2 + (length entries + 6)))
    by lia.
  rewrite <- (app_nil_r text) at 2. unfold text.
  rewrite parse_value_records; [reflexivity | exact Hall | lia].
Qed.

End JsonRoundTrip.

(** ** Scores saved and read back *)

Section StoredScores.

Import ScoreManager.

Local Abbreviation storable_entries :=
  (Forall (fun e : entry => storable (entry_score e))).

Lemma score_of_record name z date :
  storable z -> score_of (record name z date) = Some z.
Proof.
  intros Hz. unfold score_of, record.
  change (JSON.get (js "score") _) with (Some (JNum (Number.of_Z z))).
  cbv iota. destruct (Z.eq_dec z 0) as [-> | Hne]; [reflexivity|].
  destruct (of_Z_exact z ltac:(unfold storable in Hz; lia))
    as (m & e & -> & He & Hm).
  unfold Number.to_Z.
  assert (0 < 2 ^ (- e)) by (apply Z.pow_pos_nonneg; lia).
  destruct (Z.leb_spec 0 e) as [H0 | H0]; cbn [orb].
  - assert (e = 0) as -> by lia. f_equal. cbn in Hm. lia.
  - rewrite Hm, Z.mod_mul, Z.div_mul by lia. reflexivity.
Qed.

Lemma records_well_formed entries :
  storable_entries entries ->
  Forall (fun v => is_Some (score_of v)) (records entries).
Proof.
  intros H. unfold records. apply Forall_forall. intros v Hv.
  apply list_elem_of_In, in_map_iff in Hv as (e & <- & He).
  rewrite Forall_forall in H.
  rewrite score_of_record; [eauto|].
  apply H, list_elem_of_In, He.
Qed.

Lemma records_app l1 l2 : records (l1 ++ l2) = records l1 ++ records l2.
Proof. apply List.map_app. Qed.

Lemma read_scores_holds ls entries :
  holds ls entries -> storable_entries entries ->
  read_scores ls = Normal (JArr (records entries)).
Proof.
  intros [Ha Hi] Hall. unfold read_scores, getItem. rewrite Ha.
  cbn [mbind completion_bind]. rewrite Hi.
  apply parse_stringify_records, Hall.
Qed.

Lemma insert_by_key_map {A B} (f : A -> B) (ka : A -> Z) (kb : B -> Z) x s :
  kb (f x) = ka x -> Forall (fun y => kb (f y) = ka y) s ->
  insert_by_key kb (f x) (List.map f s) = List.map f (insert_by_key ka x s).
Proof.
  intros Hx Hs. induction Hs as [|y s Hy Hs IH]; [reflexivity|].
  cbn [List.map insert_by_key]. rewrite Hx, Hy.
  destruct (ka y <? ka x); [reflexivity|].
  rewrite IH. reflexivity.
Qed.

Lemma sort_by_key_map {A B} (f : A -> B) (ka : A -> Z) (kb : B -> Z) l :
  Forall (fun y => kb (f y) = ka y) l ->
  sort_by_key kb (List.map f l) = List.map f (sort_by_key ka l).
Proof.
  unfold sort_by_key. intros Hl.
  assert (H : forall acc,
    Forall (fun y => kb (f y) = ka y) acc ->
    foldl (fun sorted x => insert_by_key kb x sorted) (List.map f acc)
      (List.map f l)
    = List.map f (foldl (fun sorted x => insert_by_key ka x sorted) acc l)).
  { induction Hl as [|x l Hx Hl IH]; intros acc Hacc; [reflexivity|].
    cbn [List.map foldl].
    rewrite (insert_by_key_map f ka kb) by assumption.
    apply IH. rewrite insert_by_key_perm. constructor; assumption. }
  apply (H []). constructor.
Qed.

Lemma getTopScores_holds ls entries limit :
  holds ls entries -> storable_entries entries -> 0 <= limit ->
  getTopScores limit ls
  = records (take (Z.to_nat limit) (sort_by_key entry_score entries)).
Proof.
  intros Hh Hall Hl. unfold getTopScores.
  rewrite (read_scores_holds ls entries Hh Hall).
  cbn [mbind completion_bind call_sort].
  rewrite sort_by_score by (apply records_well_formed, Hall).
  cbn [mbind completion_bind try_catch]. rewrite slice0_take by exact Hl.
  unfold records at 1. rewrite (sort_by_key_map _ entry_score).
  - unfold records. apply List.firstn_map.
  - eapply Forall_impl; [exact Hall|]. intros e He. cbn beta.
    unfold score_key. rewrite score_of_record by exact He. reflexivity.
Qed.

Lemma saveScore_holds ls entries name score now :
  holds ls entries -> storable_entries entries -> storable score ->
  (used (<[STORAGE_KEY :=
             JSON.stringify (JArr (records (entries ++ [(name, score, now)])))]>
           (items ls)) <= quota ls)%nat ->
  exists ls',
    saveScore name score now ls = (ls', None)
    /\ holds ls' (entries ++ [(name, score, now)])
    /\ quota ls' = quota ls
    /\ forall key, key <> STORAGE_KEY -> items ls' !! key = items ls !! key.
Proof.
  intros Hh Hall Hs Hq. unfold saveScore.
  rewrite (read_scores_holds ls entries Hh Hall).
  destruct Hh as [Ha Hi].
  cbn [mbind completion_bind call_push]. unfold setItem. rewrite Ha.
  rewrite records_app in Hq. cbn [records List.map fst snd] in Hq.
  apply Nat.leb_le in Hq. rewrite Hq.
  cbn [mbind completion_bind try_catch].
  eexists. split; [reflexivity|]. split; [|split; [reflexivity|]].
  - split; [reflexivity|]. cbn [items].
    rewrite lookup_insert_eq, records_app.
    cbn [records List.map fst snd JSON.stringify or_else app]. reflexivity.
  - intros key Hkey. cbn [items]. apply lookup_insert_ne. congruence.
Qed.

(** X11: a score saved is read back. On a storage that holds the
    records of earlier saves (or nothing yet), with scores that are whole
    numbers from 0 to below 2^53 and room for the new text,
    [saveScore] logs no error and leaves a storage that holds the
    earlier records followed by the new one; [getTopScores(limit)] on it
    returns the records of the first [limit] entries of all the saved
    entries sorted by descending score, entries of equal score in the
    order they were saved. *)
Theorem saveScore_getTopScores ls entries name score now limit :
  holds ls entries ->
  Forall (fun e => storable (entry_score e)) entries ->
  storable score -> 0 <= limit ->
  (used (<[STORAGE_KEY :=
             JSON.stringify (JArr (records (entries ++ [(name, score, now)])))]>
           (items ls)) <= quota ls)%nat ->
  exists ls' sorted,
    saveScore name score now ls = (ls', None)
    /\ holds ls' (entries ++ [(name, score, now)])
    /\ getTopScores limit ls' = records (take (Z.to_nat limit) sorted)
    /\ sorted ≡ₚ entries ++ [(name, score, now)]
    /\ StronglySorted (fun a b => entry_score b <= entry_score a) sorted
    /\ forall k,
         filter (fun e => entry_score e = k) sorted
         = filter (fun e => entry_score e = k)
             (entries ++ [(name, score, now)]).
Proof.
  intros Hh Hall Hs Hl Hq.
  destruct (saveScore_holds ls entries name score now Hh Hall Hs Hq)
    as (ls' & Hsave & Hh' & _).
  assert (Hall' : storable_entries (entries ++ [(name, score, now)])).
  { apply Forall_app. split; [exact Hall|].
    apply Forall_cons. split; [exact Hs | constructor]. }
  exists ls', (sort_by_key entry_score (entries ++ [(name, score, now)])).
  destruct (sort_by_key_spec entry_score (entries ++ [(name, score, now)]))
    as (Hperm & Hsorted & Hstable).
  split; [exact Hsave|]. split; [exact Hh'|].
  split; [apply getTopScores_holds; assumption|].
  split; [exact Hperm|]. split; [exact Hsorted | exact Hstable].
Qed.

Lemma holds_empty_storage : holds empty_storage [].
Proof. split; reflexivity. Qed.

Lemma saveScore_getTopScores_witness :
  exists ls' sorted,
    saveScore (js "ana") 7 example_date empty_storage = (ls', None)
    /\ holds ls' ([] ++ [(js "ana", 7, example_date)])
    /\ getTopScores 5 ls' = records (take (Z.to_nat 5) sorted)
    /\ sorted ≡ₚ [] ++ [(js "ana", 7, example_date)]
    /\ StronglySorted (fun a b => entry_score b <= entry_score a) sorted
    /\ forall k,
         filter (fun e => entry_score e = k) sorted
         = filter (fun e => entry_score e = k)
             ([] ++ [(js "ana", 7, example_date)]).
Proof.
  apply (saveScore_getTopScores empty_storage [] (js "ana") 7 example_date 5).
  - exact holds_empty_storage.
  - constructor.
  - split; [lia | reflexivity].
  - lia.
  - apply Nat.leb_le. vm_compute. reflexivity.
Defined.

End StoredScores.

(** ** The effect that saves the score *)

Section SaveEffect.

Import ScoreManager.

Lemma save_effect_holds fuel now env state name entries :
  playerNameToSave state = Some name -> name <> [] ->
  holds (localStorage env) entries ->
  Forall (fun e => storable (entry_score e)) entries ->
  storable (score state) ->
  (used (<[STORAGE_KEY :=
             JSON.stringify
               (JArr (records (entries ++ [(name, score state, now)])))]>
           (items (localStorage env)))
   <= quota (localStorage env))%nat ->
  exists ls',
    save_effect fuel now env state
    = Some (Normal
        ({| gameState := gameState state;
            currentProblem := currentProblem state;
            userInput := userInput state;
            score := score state;
            timeRemaining := timeRemaining state;
            showSuccess := showSuccess state;
            topScores :=
              records (take 5 (sort_by_key entry_score
                                 (entries ++ [(name, score state, now)])));
            playerNameToSave := playerNameToSave state |},
         with_storage env ls'))
    /\ holds ls' (entries ++ [(name, score state, now)]).
Proof.
  intros Hname Hne Hh Hall Hs Hq.
  destruct (saveScore_holds _ entries name (score state) now Hh Hall Hs Hq)
    as (ls' & Hsave & Hh' & _).
  assert (Hall' : Forall (fun e => storable (entry_score e))
                    (entries ++ [(name, score state, now)])).
  { apply Forall_app. split; [exact Hall|].
    apply Forall_cons. split; [exact Hs | constructor]. }
  exists ls'. split; [|exact Hh'].
  unfold save_effect. rewrite Hname.
  destruct name as [|c name]; [congruence|]. cbn [truthy].
  rewrite Hsave. cbn [fst gameReducer localStorage with_storage].
  rewrite (getTopScores_holds ls' _ 5 Hh' Hall') by lia.
  rewrite Hname. reflexivity.
Qed.

(** X12: the effect of [MathGameApp] that saves the score does nothing
    while no name is staged. With a staged name that is not empty, on a
    storage that holds the records of earlier saves and has room, it
    stores the score of the state under that name, and the
    [LOAD_SCORES] it dispatches puts into [topScores] the records of the
    best five of all saved entries, this one included, by descending
    score and, for equal scores, in the order saved; the other fields
    of the state stay as they were. *)
Theorem save_effect_spec fuel now env state :
  ((playerNameToSave state = None \/ playerNameToSave state = Some []) ->
   save_effect fuel now env state = Some (Normal (state, env)))
  /\ (forall name entries,
        playerNameToSave state = Some name -> name <> [] ->
        holds (localStorage env) entries ->
        Forall (fun e => storable (entry_score e)) entries ->
        storable (score state) ->
        (used (<[STORAGE_KEY :=
                   JSON.stringify
                     (JArr (records
                              (entries ++ [(name, score state, now)])))]>
                 (items (localStorage env)))
         <= quota (localStorage env))%nat ->
        exists state' env' sorted,
          save_effect fuel now env state = Some (Normal (state', env'))
          /\ holds (localStorage env')
               (entries ++ [(name, score state, now)])
          /\ topScores state' = records (take 5 sorted)
          /\ sorted ≡ₚ entries ++ [(name, score state, now)]
          /\ StronglySorted (fun a b => entry_score b <= entry_score a) sorted
          /\ (forall k,
                filter (fun e => entry_score e = k) sorted
                = filter (fun e => entry_score e = k)
                    (entries ++ [(name, score state, now)]))
          /\ gameState state' = gameState state
          /\ score state' = score state
          /\ timeRemaining state' = timeRemaining state
          /\ currentProblem state' = currentProblem state
          /\ playerNameToSave state' = playerNameToSave state).
Proof.
  split.
  - unfold save_effect. intros [-> | ->]; reflexivity.
  - intros name entries Hname Hne Hh Hall Hs Hq.
    destruct (save_effect_holds fuel now env state name entries
                Hname Hne Hh Hall Hs Hq) as (ls' & Heff & Hh').
    destruct (sort_by_key_spec entry_score
                (entries ++ [(name, score state, now)]))
      as (Hperm & Hsorted & Hstable).
    eexists _, _, _. split; [exact Heff|].
    cbn [localStorage with_storage topScores gameState score timeRemaining
         currentProblem playerNameToSave].
    split; [exact Hh'|]. split; [reflexivity|].
    split; [exact Hperm|]. split; [exact Hsorted|]. split; [exact Hstable|].
    repeat split.
Qed.

Lemma save_effect_spec_witness :
  let state :=
    {| gameState := GAME_OVER; currentProblem := None; userInput := [];
       score := 7; timeRemaining := 0; showSuccess := false;
       topScores := []; playerNameToSave := Some (js "ana") |} in
  let env :=
    {| random := source_of []; drawn := 0; localStorage := empty_storage |} in
  exists state' env' sorted,
    save_effect 0 example_date env state = Some (Normal (state', env'))
    /\ holds (localStorage env') ([] ++ [(js "ana", 7, example_date)])
    /\ topScores state' = records (take 5 sorted)
    /\ sorted ≡ₚ [] ++ [(js "ana", 7, example_date)]
    /\ StronglySorted (fun a b => entry_score b <= entry_score a) sorted
    /\ (forall k,
          filter (fun e => entry_score e = k) sorted
          = filter (fun e => entry_score e = k)
              ([] ++ [(js "ana", 7, example_date)]))
    /\ gameState state' = GAME_OVER
    /\ score state' = 7
    /\ timeRemaining state' = 0
    /\ currentProblem state' = None
    /\ playerNameToSave state' = Some (js "ana").
Proof.
  intros state env.
  apply (proj2 (save_effect_spec 0 example_date env state) (js "ana") []);
    subst state env; cbn [score playerNameToSave localStorage].
  - reflexivity.
  - discriminate.
  - exact holds_empty_storage.
  - constructor.
  - split; [lia | reflexivity].
  - apply Nat.leb_le. vm_compute. reflexivity.
Defined.

End SaveEffect.

(** ** The tolerance of the answer check, exactly *)

Section Tolerance.

Lemma tolerance_value : Number.of_decimal false 1 (-2) = tolerance.
Proof. vm_compute. reflexivity. Qed.

(** Comparing a valid positive Number with the tolerance compares its
    value with 1/100: no Number lies between 1/100 and the tolerance. *)
Lemma ltb_tolerance m e :
  valid_binary Number.prec Number.emax (S754_finite false m e) = true ->
  e <= 0 ->
  Number.ltb (S754_finite false m e) tolerance = true
  <-> 100 * Z.pos m < 2 ^ (- e).
Proof.
  intros Hv He0. apply valid_finite in Hv as (Hm & He & Hn).
  unfold Number.ltb, SFltb, tolerance. cbn [SFcompare].
  change (2 ^ 53) with 9007199254740992 in Hm.
  destruct (Z.compare_spec e (-59)) as [-> | Hlt | Hgt].
  - change (2 ^ (- -59)) with 576460752303423488.
    rewrite Pos.compare_cont_spec. cbn [Pos.switch_Eq].
    destruct (Pos.compare_spec m 5764607523034235) as [-> | H | H];
      try apply Pos2Z.pos_lt_pos in H;
      split; intros; try discriminate; try reflexivity; lia.
  - split; [intros _|reflexivity].
    assert (2 ^ 60 <= 2 ^ (- e)) by (apply Z.pow_le_mono_r; lia).
    change (2 ^ 60) with 1152921504606846976 in *. lia.
  - split; [discriminate|]. intros H. exfalso.
    specialize (Hn ltac:(lia)). change (2 ^ 52) with 4503599627370496 in Hn.
    assert (2 ^ (- e) <= 2 ^ 58) by (apply Z.pow_le_mono_r; lia).
    change (2 ^ 58) with 288230376151711744 in *. lia.
Qed.

(** The exact value of a finite Number, as a fraction over a power of
    two that is at least its own. *)
Lemma to_Q_scaled x ez :
  ez <= 0 ->
  match x with
  | S754_finite _ _ e => ez <= e
  | S754_zero _ => True
  | _ => False
  end ->
  exists q, to_Q x = Some q
            /\ (q == scaled x ez # Z.to_pos (2 ^ (- ez)))%Q.
Proof.
  intros Hez Hx.
  assert (Hp : 0 < 2 ^ (- ez)) by (apply Z.pow_pos_nonneg; lia).
  destruct x as [s| | |s m e]; try contradiction; cbn [to_Q scaled].
  - eexists. split; [reflexivity|]. reflexivity.
  - eexists. split; [reflexivity|].
    assert (Hopp : forall v w, cond_Zopp s v * w = cond_Zopp s (v * w))
      by (intros; destruct s; cbn; lia).
    destruct (Z.leb_spec 0 e) as [He | He].
    + unfold Qeq, inject_Z. cbn [Qnum Qden].
      rewrite Z2Pos.id by exact Hp. rewrite !Hopp. f_equal.
      rewrite Z.mul_1_r, <- Z.mul_assoc, <- Z.pow_add_r by lia.
      do 2 f_equal; try lia.
    + assert (Hp' : 0 < 2 ^ (- e)) by (apply Z.pow_pos_nonneg; lia).
      unfold Qeq. cbn [Qnum Qden].
      rewrite !Z2Pos.id by assumption. rewrite !Hopp. f_equal.
      rewrite <- !Z.mul_assoc, <- !Z.pow_add_r by lia.
      do 2 f_equal; try lia.
Qed.

(** The comparison of exact values, on mantissas at a common exponent. *)
Lemma within_tolerance_scaled x a ez :
  ez <= 0 ->
  match x with
  | S754_finite _ _ e => ez <= e
  | S754_zero _ => True
  | _ => False
  end ->
  match a with
  | S754_finite _ _ e => ez <= e
  | S754_zero _ => True
  | _ => False
  end ->
  within_tolerance x a
  <-> 100 * Z.abs (scaled x ez - scaled a ez) < 2 ^ (- ez).
Proof.
  intros Hez Hx Ha.
  assert (Hp : 0 < 2 ^ (- ez)) by (apply Z.pow_pos_nonneg; lia).
  destruct (to_Q_scaled x ez Hez Hx) as (v & Hv & Ev).
  destruct (to_Q_scaled a ez Hez Ha) as (w & Hw & Ew).
  unfold within_tolerance. rewrite Hv, Hw.
  set (X := scaled x ez) in *. set (Y := scaled a ez) in *.
  set (P := Z.to_pos (2 ^ (- ez))) in *.
  assert (Ed : (v - w == (X - Y) # P)%Q).
  { rewrite Ev, Ew. unfold Qeq, Qminus, Qplus, Qopp. cbn [Qnum Qden].
    rewrite Pos2Z.inj_mul. ring. }
  rewrite Ed. unfold Qabs, Qlt. cbn [Qnum Qden].
  unfold P. rewrite Z2Pos.id by exact Hp. lia.
Qed.

Lemma ltb_above s lo r :
  has_sign_above s lo r -> -59 < lo ->
  Number.ltb (Number.abs r) tolerance = false.
Proof.
  intros Hr Hlo. destruct r as [| s' | | s' m e]; cbn in Hr; try contradiction.
  - reflexivity.
  - destruct Hr as [_ He]. unfold Number.ltb, Number.abs, SFabs, SFltb, tolerance.
    cbn [SFcompare].
    destruct (Z.compare_spec e (-59)); try lia; reflexivity.
Qed.

(** Rounding a mantissa [p] at the exponent [ez] and comparing with the
    tolerance compares [p * 2^ez] with 1/100, when a value below 1/32
    has an exponent of at least -57. *)
Lemma round_tolerance sg p ez :
  -1074 <= ez <= 0 ->
  (32 * Z.pos p < 2 ^ (- ez) -> -57 <= ez) ->
  Number.ltb (Number.abs (binary_round Number.prec Number.emax sg p ez))
    tolerance = true
  <-> 100 * Z.pos p < 2 ^ (- ez).
Proof.
  intros Hez Himp.
  assert (Hz : 0 < 2 ^ (- ez)) by (apply Z.pow_pos_nonneg; lia).
  pose proof (digits2_pos_bounds p) as [Hdlo Hdhi].
  set (d := Z.pos (digits2_pos p)) in *.
  destruct (Z.le_gt_cases (2 ^ (- ez)) (32 * Z.pos p)) as [Hfar | Hnear].
  - split; [|lia]. intros Hlt. exfalso.
    assert (Hd : - ez < d + 5).
    { apply (Z.pow_lt_mono_r_iff 2); [lia | lia |].
      rewrite Z.pow_add_r by lia. change (2 ^ 5) with 32. lia. }
    pose proof (binary_round_above sg p ez) as Hab. fold d in Hab.
    rewrite (ltb_above sg _ _ (Hab ltac:(unfold emin, Number.prec,
      Number.emax; lia))) in Hlt; [discriminate|].
    rewrite fexp_spec. lia.
  - specialize (Himp Hnear).
    assert (Hd52 : d <= 52).
    { assert (2 ^ (- ez) <= 2 ^ 57) by (apply Z.pow_le_mono_r; lia).
      change (2 ^ 57) with 144115188075855872 in *.
      destruct (Z.le_gt_cases d 52) as [G | G]; [exact G | exfalso].
      assert (2 ^ 52 <= 2 ^ (d - 1)) by (apply Z.pow_le_mono_r; lia).
      change (2 ^ 52) with 4503599627370496 in *. lia. }
    assert (Hf : fexp Number.prec Number.emax (d + ez) <= ez)
      by (rewrite fexp_spec; lia).
    destruct (binary_round_exact sg p ez ltac:(fold d; lia) ltac:(lia)
                ltac:(fold d; lia)) as (m' & Hr & Hm').
    fold d in Hr, Hm'.
    pose proof (binary_round_valid sg p ez) as Hv. rewrite Hr in Hv.
    rewrite Hr. cbn [Number.abs SFabs].
    set (f := fexp Number.prec Number.emax (d + ez)) in *.
    rewrite ltb_tolerance by (exact Hv || lia).
    assert (HP : 0 < 2 ^ (ez - f)) by (apply Z.pow_pos_nonneg; lia).
    assert (HF : 2 ^ (- f) = 2 ^ (- ez) * 2 ^ (ez - f))
      by (rewrite <- Z.pow_add_r by lia; f_equal; lia).
    rewrite HF, Hm'. split; intros; nia.
Qed.

(** The difference of two finite Numbers, one of them of a magnitude
    between [2^-4] and [2^53], compares with the tolerance as the exact
    difference compares with 1/100. *)
Lemma sub_tolerance sx mx ex sa ma ea :
  valid_binary Number.prec Number.emax (S754_finite sx mx ex) = true ->
  valid_binary Number.prec Number.emax (S754_finite sa ma ea) = true ->
  -56 <= ea <= 0 ->
  let ez := Z.min ex ea in
  Number.ltb
    (Number.abs (Number.sub (S754_finite sx mx ex) (S754_finite sa ma ea)))
    tolerance = true
  <-> 100 * Z.abs (scaled (S754_finite sx mx ex) ez
                   - scaled (S754_finite sa ma ea) ez) < 2 ^ (- ez).
Proof.
  intros Hvx Hva Hea ez.
  apply valid_finite in Hvx as (Hmx & Hex & Hnx).
  apply valid_finite in Hva as (Hma & _ & Hna).
  specialize (Hna ltac:(lia)).
  change (2 ^ 53) with 9007199254740992 in *.
  change (2 ^ 52) with 4503599627370496 in *.
  unfold Number.sub, SFsub. fold ez. cbn [scaled].
  rewrite (shl_align_fst mx ex ez), (shl_align_fst ma ea ez) by lia.
  set (X := cond_Zopp sx (Z.pos mx * 2 ^ (ex - ez))).
  set (Y := cond_Zopp sa (Z.pos ma * 2 ^ (ea - ez))).
  assert (Hz : 0 < 2 ^ (- ez)) by (apply Z.pow_pos_nonneg; lia).
  assert (Himp : 32 * Z.abs (X - Y) < 2 ^ (- ez) -> -57 <= ez).
  { intros Hnear.
    destruct (Z.le_gt_cases (-57) ez) as [G | G]; [exact G | exfalso].
    assert (ez = ex) by lia.
    assert (HT : 2 ^ 2 <= 2 ^ (ea - ez)) by (apply Z.pow_le_mono_r; lia).
    change (2 ^ 2) with 4 in HT.
    assert (HZ : 2 ^ (- ez) = 2 ^ (- ea) * 2 ^ (ea - ez))
      by (rewrite <- Z.pow_add_r by lia; f_equal; lia).
    assert (HA : 2 ^ (- ea) <= 2 ^ 56) by (apply Z.pow_le_mono_r; lia).
    change (2 ^ 56) with 72057594037927936 in HA.
    assert (0 < 2 ^ (- ea)) by (apply Z.pow_pos_nonneg; lia).
    assert (HX : Z.abs X < 9007199254740992).
    { subst X. replace (ex - ez) with 0 by lia.
      rewrite Z.pow_0_r. destruct sx; cbn; lia. }
    assert (HY : 4503599627370496 * 2 ^ (ea - ez) <= Z.abs Y).
    { subst Y. destruct sa; cbn [cond_Zopp]; nia. }
    nia. }
  unfold binary_normalize.
  destruct (X - Y) as [|p|p] eqn:HD.
  - cbn. split; [lia | reflexivity].
  - apply round_tolerance; [lia | exact Himp].
  - apply round_tolerance; [lia | exact Himp].
Qed.

(** For an answer that is zero or of a magnitude between [2^-4] and
    [2^53], [isCorrect] accepts exactly the inputs that parse to a
    finite Number whose exact value is less than 1/100 away from the
    exact value of the answer. *)
Lemma isCorrect_within_tolerance p userAnswer :
  tolerance_safe (MathProblem.answer p) = true ->
  MathProblem.isCorrect p userAnswer = true
  <-> within_tolerance (parseFloat userAnswer) (MathProblem.answer p).
Proof.
  unfold MathProblem.isCorrect, tolerance_safe. rewrite tolerance_value.
  pose proof (parseFloat_valid userAnswer) as Hvx.
  destruct (parseFloat userAnswer) as [sx|sx| |sx mx ex];
    destruct (MathProblem.answer p) as [sa|sa| |sa ma ea];
    intros Hsafe; apply andb_prop in Hsafe as [Hva Hsafe];
    try discriminate Hsafe.
  - (* zero, zero *)
    split; [intros _ | intros _; destruct sx, sa; reflexivity].
    unfold within_tolerance. cbn. reflexivity.
  - (* zero, finite *)
    apply andb_prop in Hsafe as [H1 H2].
    apply Z.leb_le in H1, H2.
    cbn [Number.sub SFsub Number.abs SFabs].
    rewrite ltb_tolerance by (exact Hva || lia).
    rewrite (within_tolerance_scaled _ _ ea) by (exact I || lia).
    cbn [scaled]. rewrite Z.sub_diag, Z.pow_0_r, Z.mul_1_r.
    destruct sa; cbn [cond_Zopp]; lia.
  - (* infinity, zero *)
    split; [destruct sx; discriminate | intros []].
  - (* infinity, finite *)
    split; [destruct sx; discriminate | intros []].
  - (* NaN *)
    split; [discriminate | intros []].
  - split; [discriminate | intros []].
  - (* finite, zero *)
    cbn [Number.sub SFsub Number.abs SFabs].
    pose proof (valid_finite _ _ _ Hvx) as (Hmx & Hex & Hnx).
    destruct (Z.le_gt_cases ex 0) as [He | He].
    + rewrite ltb_tolerance by (exact Hvx || lia).
      rewrite (within_tolerance_scaled _ _ ex) by (exact I || lia).
      cbn [scaled]. rewrite Z.sub_diag, Z.pow_0_r, Z.mul_1_r.
      destruct sx; cbn [cond_Zopp]; lia.
    + rewrite (within_tolerance_scaled _ _ 0) by (exact I || lia).
      cbn [scaled]. rewrite Z.sub_0_r.
      assert (0 < 2 ^ ex) by (apply Z.pow_pos_nonneg; lia).
      split.
      * unfold Number.ltb, SFltb, tolerance. cbn [SFcompare].
        destruct (Z.compare_spec ex (-59)); try lia; discriminate.
      * intros H0. exfalso. change (2 ^ (- 0)) with 1 in H0.
        destruct sx; cbn [cond_Zopp] in H0; nia.
  - (* finite, finite *)
    apply andb_prop in Hsafe as [H1 H2].
    apply Z.leb_le in H1, H2.
    rewrite sub_tolerance by (assumption || lia).
    rewrite (within_tolerance_scaled _ _ (Z.min ex ea)) by lia.
    reflexivity.
Qed.

Lemma all_samples_tolerance_safe :
  forallb (fun '(a, b, op) =>
             rejected a b op
             || tolerance_safe (MathProblem.answer (build a b op)))
    all_samples
  = true.
Proof. vm_compute. reflexivity. Qed.

Lemma generated_tolerance_safe p :
  generated p -> tolerance_safe (MathProblem.answer p) = true.
Proof.
  intros (a & b & op & -> & Hr & Ha & Hb).
  pose proof all_samples_tolerance_safe as Hall.
  rewrite forallb_forall in Hall.
  specialize (Hall (a, b, op)
                ltac:(apply list_elem_of_In, elem_of_all_samples; assumption)).
  cbn beta iota in Hall. rewrite Hr in Hall. exact Hall.
Qed.

(** The exact value of the Number of a whole number below [2^53] is
    that whole number. *)
Lemma to_Q_of_Z n :
  0 <= n < 2 ^ 53 ->
  exists w, to_Q (Number.of_Z n) = Some w /\ (w == inject_Z n)%Q.
Proof.
  intros [Hn Hlt]. destruct (Z.eq_dec n 0) as [-> | Hne].
  { eexists. split; reflexivity. }
  destruct (of_Z_exact n ltac:(lia)) as (m & e & -> & He & Hm).
  cbn [to_Q cond_Zopp]. eexists. split; [reflexivity|].
  assert (0 < 2 ^ (- e)) by (apply Z.pow_pos_nonneg; lia).
  destruct (Z.leb_spec 0 e).
  - assert (e = 0) as -> by lia. cbn in Hm. rewrite Hm.
    rewrite Z.pow_0_r, !Z.mul_1_r. reflexivity.
  - unfold Qeq, inject_Z. cbn [Qnum Qden].
    rewrite Z2Pos.id by assumption. lia.
Qed.

Lemma generated_isCorrect p userAnswer :
  generated p ->
  let n := integer_result (MathProblem.operation p) (MathProblem.operand1 p)
             (MathProblem.operand2 p) in
  MathProblem.isCorrect p userAnswer = true
  <-> exists v, to_Q (parseFloat userAnswer) = Some v
                /\ (Qabs (v - inject_Z n) < 1 # 100)%Q.
Proof.
  intros Hg n.
  rewrite (isCorrect_within_tolerance p userAnswer
             (generated_tolerance_safe p Hg)).
  destruct (generated_answer p Hg) as (Hans & Hrange & _). fold n in Hans, Hrange.
  destruct (to_Q_of_Z n) as (w & Hw & Ew).
  { change (2 ^ 53) with 9007199254740992. lia. }
  unfold within_tolerance. rewrite Hans, Hw.
  destruct (to_Q (parseFloat userAnswer)) as [v|].
  - rewrite Ew. split; [intros H; exists v; split; [reflexivity | exact H]|].
    intros (v' & [= <-] & H). exact H.
  - split; [intros [] | intros (v' & [=] & _)].
Qed.

(** X13: for every problem the generator returns, [isCorrect] accepts
    exactly the inputs [parseFloat] reads as a finite Number whose exact
    value differs from the exact integer answer by less than 1/100: the
    rounding of the subtraction and of the literal 0.01 never changes
    the outcome. *)
Theorem generate_isCorrect_exact fuel random drawn p drawn' userAnswer :
  ProblemGenerator.generate fuel random drawn = Some (Normal (p, drawn')) ->
  let n := integer_result (MathProblem.operation p) (MathProblem.operand1 p)
             (MathProblem.operand2 p) in
  MathProblem.isCorrect p userAnswer = true
  <-> exists v, to_Q (parseFloat userAnswer) = Some v
                /\ (Qabs (v - inject_Z n) < 1 # 100)%Q.
Proof.
  intros H. apply generated_isCorrect. eapply generate_generated, H.
Qed.

Lemma generate_isCorrect_exact_witness :
  MathProblem.isCorrect (MathProblem.new 9 1 SUBTRACTION) (js "8.005") = true
  <-> exists v, to_Q (parseFloat (js "8.005")) = Some v
                /\ (Qabs (v - inject_Z 8) < 1 # 100)%Q.
Proof.
  refine (generate_isCorrect_exact 2 (source_of [8; 4; 12; 15; 0; 4]) 0
            (MathProblem.new 9 1 SUBTRACTION) 6 (js "8.005") _).
  vm_compute. reflexivity.
Defined.

End Tolerance.

(** ** Whole numbers as answers *)

Section WholeNumbers.

Import MathProblem.

Lemma digit_not_space c :
  Parse.is_digit c = true -> Parse.is_whitespace c = false.
Proof.
  unfold Parse.is_digit, Parse.is_whitespace. intros H.
  apply andb_prop in H as [H1 H2]. apply N.leb_le in H1, H2.
  apply orb_false_iff. split.
  - apply bool_decide_eq_false_2. rewrite !elem_of_cons, elem_of_nil. lia.
  - apply andb_false_iff. left. apply N.leb_gt. lia.
Qed.

(** [parseFloat] reads the decimal digits of a whole number as the
    Number nearest to it. *)
Lemma parseFloat_decimal_digits z :
  0 <= z -> parseFloat (Print.decimal_digits z) = Number.of_decimal false z 0.
Proof.
  intros Hz.
  pose proof (uint_codes_digits (N.to_uint (Z.to_N z))) as Hd.
  fold (Print.decimal_digits z) in Hd.
  pose proof (digits_value_decimal z Hz) as Hv.
  assert (Hne : exists c cs, Print.decimal_digits z = c :: cs).
  { destruct (Z.eq_dec z 0) as [-> | Hne]; [eexists _, _; reflexivity|].
    destruct (decimal_digits_head z ltac:(lia)) as (c & cs & E & _). eauto. }
  destruct Hne as (c & cs & E). rewrite E in *.
  assert (Hc : Parse.is_digit c = true) by (inversion Hd; assumption).
  unfold parseFloat. cbn [Parse.skip_whitespace].
  rewrite (digit_not_space c Hc).
  unfold Parse.scan_literal, Parse.scan_sign.
  unfold Parse.is_digit in Hc. apply andb_prop in Hc as [H1 H2].
  apply N.leb_le in H1, H2.
  rewrite !bool_decide_eq_false_2 by lia.
  unfold Parse.scan_unsigned.
  change (js "Infinity") with (73 :: js "nfinity")%N.
  cbn [Parse.strip_prefix].
  rewrite bool_decide_eq_false_2 by lia.
  rewrite <- (app_nil_r (c :: cs)) at 1.
  rewrite (scan_digits_all (c :: cs) [] Hd I).
  cbn [Parse.scan_fraction List.map Parse.scan_exponent Parse.literal_value
       length].
  rewrite app_nil_r. cbn [List.map] in Hv. rewrite Hv. reflexivity.
Qed.

(** X14: among the whole numbers from 0 to below 2^53, written in
    decimal digits, [isCorrect] accepts exactly the answer of a problem
    the generator returned: a wrong whole number is never accepted, and
    the right one always is. *)
Theorem generate_isCorrect_whole fuel random drawn p drawn' z :
  ProblemGenerator.generate fuel random drawn = Some (Normal (p, drawn')) ->
  0 <= z < 2 ^ 53 ->
  isCorrect p (Print.decimal_digits z) = true
  <-> z = integer_result (operation p) (operand1 p) (operand2 p).
Proof.
  intros H Hz. apply generate_generated in H.
  rewrite (generated_isCorrect p _ H).
  rewrite parseFloat_decimal_digits by lia.
  assert (E : Number.of_decimal false z 0 = Number.of_Z z).
  { destruct (Z.eq_dec z 0) as [-> | Hne]; [reflexivity|].
    apply of_decimal_of_Z. lia. }
  rewrite E. destruct (to_Q_of_Z z Hz) as (w & Hw & Ew). rewrite Hw.
  set (n := integer_result _ _ _).
  assert (Hiff : (Qabs (w - inject_Z n) < 1 # 100)%Q <-> z = n).
  { rewrite Ew. unfold Qminus, Qplus, Qopp, Qabs, Qlt, inject_Z.
    cbn [Qnum Qden]. lia. }
  split.
  - intros (v & [= <-] & Hv). apply Hiff, Hv.
  - intros Hn. exists w. split; [reflexivity | apply Hiff, Hn].
Qed.

Lemma generate_isCorrect_whole_witness :
  isCorrect (MathProblem.new 9 1 SUBTRACTION) (Print.decimal_digits 7) = true
  <-> 7 = integer_result SUBTRACTION 9 1.
Proof.
  refine (generate_isCorrect_whole 2 (source_of [8; 4; 12; 15; 0; 4]) 0
            (MathProblem.new 9 1 SUBTRACTION) 6 7 _ _).
  - vm_compute. reflexivity.
  - split; [lia | reflexivity].
Defined.

End WholeNumbers.

(** ** A whole game, from the start to the menu *)

Section Session.

Import ScoreManager.

Lemma dispatch_all_app fuel l1 l2 :
  forall env s,
    dispatch_all fuel env s (l1 ++ l2)
    = match dispatch_all fuel env s l1 with
      | Some (Normal (s', env')) => dispatch_all fuel env' s' l2
      | r => r
      end.
Proof.
  induction l1 as [|a l1 IH]; intros env s; [reflexivity|].
  cbn [app dispatch_all].
  destruct (gameReducer fuel env s a) as [[[s' env']|e]|]; [apply IH | |];
    reflexivity.
Qed.

(** X15: a game from start to menu. After [START_GAME], any actions
    other than [START_GAME] and [RETURN_TO_MENU], and [SAVE_SCORE] with a
    name that is not empty, on a storage that holds the records of
    earlier saves and has room, the effect that saves the score stores
    the number of [CORRECT_ANSWER] actions of the game under that name,
    and [RETURN_TO_MENU] then gives the initial state whose [topScores]
    are the best five of all saved entries, this game included, by
    descending score, entries of equal score in the order saved. *)
Theorem session_saves_score fuel now env state s0 env0 actions name s1 env1
    entries :
  gameReducer fuel env state START_GAME = Some (Normal (s0, env0)) ->
  forallb in_game actions = true ->
  dispatch_all fuel env0 s0 (actions ++ [SAVE_SCORE name])
  = Some (Normal (s1, env1)) ->
  name <> [] ->
  holds (localStorage env) entries ->
  Forall (fun e => storable (entry_score e)) entries ->
  let points := count is_correct_answer actions in
  points < 2 ^ 53 ->
  (used (<[STORAGE_KEY :=
             JSON.stringify
               (JArr (records (entries ++ [(name, points, now)])))]>
           (items (localStorage env)))
   <= quota (localStorage env))%nat ->
  exists s2 env2 s3 sorted,
    save_effect fuel now env1 s1 = Some (Normal (s2, env2))
    /\ gameReducer fuel env2 s2 RETURN_TO_MENU = Some (Normal (s3, env2))
    /\ holds (localStorage env2) (entries ++ [(name, points, now)])
    /\ topScores s3 = records (take 5 sorted)
    /\ sorted ≡ₚ entries ++ [(name, points, now)]
    /\ StronglySorted (fun a b => entry_score b <= entry_score a) sorted
    /\ (forall k,
          filter (fun e => entry_score e = k) sorted
          = filter (fun e => entry_score e = k)
              (entries ++ [(name, points, now)]))
    /\ gameState s3 = MENU /\ score s3 = 0 /\ timeRemaining s3 = 30
    /\ currentProblem s3 = None /\ playerNameToSave s3 = None.
Proof.
  intros Hstart Hin Hd Hne Hh Hall points Hpoints Hq.
  cbn [gameReducer] in Hstart.
  destruct (generate_in fuel env) as [[[q e1]|e]|] eqn:Hg; try discriminate.
  apply generate_in_inv in Hg as [_ Hls0]. injection Hstart as <- <-.
  rewrite dispatch_all_app in Hd.
  destruct (dispatch_all fuel e1 _ actions) as [[[sa enva]|e]|] eqn:Ha;
    try discriminate.
  apply dispatch_in_game in Ha as (_ & Hscore & _ & Hlsa);
    [|exact Hin | cbn; lia].
  cbn [score] in Hscore. cbn [dispatch_all gameReducer] in Hd.
  injection Hd as <- <-.
  assert (Hls : localStorage enva = localStorage env) by congruence.
  assert (Hpts : score sa = points) by (unfold points; lia).
  assert (Hstor : storable points).
  { split; [apply count_nonneg | exact Hpoints]. }
  set (s1 := {| gameState := gameState sa;
                currentProblem := currentProblem sa;
                userInput := userInput sa;
                score := score sa;
                timeRemaining := timeRemaining sa;
                showSuccess := showSuccess sa;
                topScores := topScores sa;
                playerNameToSave := Some name |}).
  destruct (save_effect_holds fuel now enva s1 name entries) as (ls' & Heff & Hh').
  - reflexivity.
  - exact Hne.
  - rewrite Hls. exact Hh.
  - exact Hall.
  - cbn [score s1]. rewrite Hpts. exact Hstor.
  - cbn [score s1]. rewrite Hpts, Hls. exact Hq.
  - cbn [score s1] in Heff, Hh'. rewrite Hpts in Heff, Hh'.
    assert (Hall' : Forall (fun e => storable (entry_score e))
                      (entries ++ [(name, points, now)])).
    { apply Forall_app. split; [exact Hall|].
      apply Forall_cons. split; [exact Hstor | constructor]. }
    destruct (sort_by_key_spec entry_score (entries ++ [(name, points, now)]))
      as (Hperm & Hsorted & Hstable).
    eexists _, _, _, _. split; [exact Heff|].
    cbn [gameReducer]. split; [reflexivity|].
    cbn [localStorage with_storage topScores gameState score timeRemaining
         currentProblem playerNameToSave INITIAL_STATE].
    split; [exact Hh'|].
    split; [apply (getTopScores_holds ls' _ 5 Hh' Hall'); lia|].
    split; [exact Hperm|]. split; [exact Hsorted|]. split; [exact Hstable|].
    repeat split.
Qed.

Lemma session_saves_score_witness :
  exists s0 env0 s1 env1 s2 env2 s3 sorted,
    gameReducer 2 fresh_env INITIAL_STATE START_GAME
    = Some (Normal (s0, env0))
    /\ dispatch_all 2 env0 s0
         ([UPDATE_INPUT (js "8"); CORRECT_ANSWER; TICK]
          ++ [SAVE_SCORE (js "ana")])
       = Some (Normal (s1, env1))
    /\ save_effect 2 example_date env1 s1 = Some (Normal (s2, env2))
    /\ gameReducer 2 env2 s2 RETURN_TO_MENU = Some (Normal (s3, env2))
    /\ holds (localStorage env2) ([] ++ [(js "ana", 1, example_date)])
    /\ topScores s3 = records (take 5 sorted)
    /\ sorted ≡ₚ [] ++ [(js "ana", 1, example_date)]
    /\ gameState s3 = MENU /\ score s3 = 0.
Proof.
  destruct (gameReducer 2 fresh_env INITIAL_STATE START_GAME)
    as [[[s0 env0]|e]|] eqn:H0;
    [|exfalso; vm_compute in H0; discriminate ..].
  destruct (dispatch_all 2 env0 s0
              ([UPDATE_INPUT (js "8"); CORRECT_ANSWER; TICK]
               ++ [SAVE_SCORE (js "ana")]))
    as [[[s1 env1]|e]|] eqn:H1;
    [|exfalso; vm_compute in H0; injection H0 as <- <-;
      vm_compute in H1; discriminate ..].
  destruct (session_saves_score 2 example_date fresh_env INITIAL_STATE s0 env0
              [UPDATE_INPUT (js "8"); CORRECT_ANSWER; TICK] (js "ana") s1 env1
              [] H0 eq_refl H1)
    as (s2 & env2 & s3 & sorted & Heff & Hret & Hh & Htop & Hperm & _ & _
        & Hmenu & Hscore & _).
  - discriminate.
  - exact holds_empty_storage.
  - constructor.
  - reflexivity.
  - apply Nat.leb_le. vm_compute. reflexivity.
  - exists s0, env0, s1, env1, s2, env2, s3, sorted.
    split; [reflexivity|]. split; [exact H1|].
    split; [exact Heff|]. split; [exact Hret|].
    split; [exact Hh|]. split; [exact Htop|].
    split; [exact Hperm|]. split; [exact Hmenu | exact Hscore].
Defined.

End Session.

(** ** What saving a score leaves alone *)

Section SaveFrame.

Import ScoreManager.

(** X16: whatever the storage holds, [saveScore] either logs no error
    and rewrites the value under its own key only, or logs an error and
    leaves the storage exactly as it was; in both cases every other key
    keeps its value, and the quota and the access to the storage are
    not changed. *)
Theorem saveScore_frame playerName score now ls :
  let ls' := (saveScore playerName score now ls).1 in
  let logged := (saveScore playerName score now ls).2 in
  (logged = None ->
   exists stored,
     read_scores ls = Normal (JArr stored)
     /\ items ls'
        = <[STORAGE_KEY :=
              JSON.stringify (JArr (stored ++ [record playerName score now]))]>
            (items ls))
  /\ (logged <> None -> ls' = ls)
  /\ (forall key, key <> STORAGE_KEY -> items ls' !! key = items ls !! key)
  /\ accessible ls' = accessible ls
  /\ quota ls' = quota ls.
Proof.
  unfold saveScore.
  destruct (read_scores ls) as [scores|e] eqn:Hr;
    cbn [mbind completion_bind try_catch fst snd];
    [|repeat split; done].
  destruct scores as [| | | |stored|];
    cbn [call_push mbind completion_bind try_catch fst snd];
    try (repeat split; done).
  unfold setItem.
  destruct (accessible ls) eqn:Ha;
    cbn [mbind completion_bind try_catch fst snd];
    [|repeat split; done].
  destruct (used _ <=? quota ls)%nat;
    cbn [mbind completion_bind try_catch fst snd items accessible quota];
    [|repeat split; done].
  split; [intros _; exists stored; split; reflexivity|].
  split; [intros H; contradiction|].
  split; [|split; reflexivity].
  intros key Hkey. apply lookup_insert_ne. congruence.
Qed.

End SaveFrame.

(** ** The random draws *)

Section RandomDraws.

(** X17: for every Number [Math.random()] can return, the two products
    the generator floors are finite binary64 Numbers, rounded to
    nearest; [Math.floor(Math.random() * 9) + 1] is an integer from 1
    to 9, and [Math.floor(Math.random() * operations.length)] is an
    index of [operations]: the rounding up of a product never reaches 9
    or 4. *)
Theorem random_draws_in_range (r : Random01) :
  let nine := Number.mul r (Number.of_Z 9) in
  let count := Number.mul r (Number.of_Z (Z.of_nat (length operations))) in
  Number.is_finite nine = true
  /\ 1 <= Math_floor nine + 1 <= 9
  /\ Number.is_finite count = true
  /\ 0 <= Math_floor count < Z.of_nat (length operations)
  /\ is_Some (array_get operations (Math_floor count)).
Proof.
  intros nine count.
  destruct (random_times_nine r) as [Hf9 H9].
  destruct (random_times_four r) as [Hf4 H4].
  fold nine in Hf9, H9.
  change (Number.of_Z 4) with
    (Number.of_Z (Z.of_nat (length operations))) in Hf4, H4.
  fold count in Hf4, H4.
  change (Z.of_nat (length operations)) with 4.
  repeat split; try assumption; try lia.
  unfold array_get. replace (Math_floor count <? 0) with false by lia.
  apply lookup_lt_is_Some. change (length operations) with 4%nat. lia.
Qed.

End RandomDraws.
